(** * Happy sync transport: endpoint resolver and socket RPC client

    A shallow embedding of [sync/serverResolver.ts] and [sync/apiSocket.ts]
    of the Happy mobile app, and the properties of the transport and
    resolver core that the design document states about them.

    JavaScript values are modelled as follows.  A [string | null] is an
    [option string]; truthiness of such a value is [truthy].  A promise is
    modelled by its eventual outcome, a [settle A]: [Fulfilled a] or
    [Rejected e].  Module-level [let] variables and private fields become
    fields of a state record, and every callback that the event loop runs
    to completion is one transition of a step function. *)

From Stdlib Require Import ZArith Lia Ascii.
From stdpp Require Import base strings gmap list.

Open Scope Z_scope.

(** ** JavaScript preliminaries *)

Module Js.

(** Errors that reach a [catch] or reject a promise.  [Error msg] is
    [new Error(msg)]; [TypeError] is what a property access on [null]
    raises; [AbortError] is what [fetch] raises once its signal aborts;
    [Foreign] stands for any error raised inside a collaborator. *)
Inductive JsError :=
| Error (msg : string)
| TypeError
| AbortError
| Foreign (tag : nat).

(** The outcome of a promise, or of a block that may throw. *)
Inductive settle (A : Type) :=
| Fulfilled (a : A)
| Rejected (e : JsError).
Arguments Fulfilled {A} a.
Arguments Rejected {A} e.

Definition bind {A B} (m : settle A) (k : A -> settle B) : settle B :=
  match m with
  | Fulfilled a => k a
  | Rejected e => Rejected e
  end.

(** [try { body } catch { handler }] *)
Definition try_catch {A} (body : settle A) (handler : settle A) : settle A :=
  match body with
  | Fulfilled a => Fulfilled a
  | Rejected _ => handler
  end.

(** Truthiness of a string: only the empty string is falsy. *)
Definition truthy_string (s : string) : bool :=
  match s with
  | EmptyString => false
  | String _ _ => true
  end.

(** Truthiness of a [string | null]. *)
Definition truthy (v : option string) : bool :=
  match v with
  | Some s => truthy_string s
  | None => false
  end.

(** [s.includes(needle)]: [needle] occurs somewhere in [s]. *)
Fixpoint includes (s needle : string) : bool :=
  String.prefix needle s ||
  match s with
  | EmptyString => false
  | String _ rest => includes rest needle
  end.

End Js.

Import Js.

(** [settle] is the error monad of [async] code that awaits one promise
    after another: [x ← m; k] is [const x = await m; k]. *)
#[global] Instance settle_ret : MRet settle := @Fulfilled.
#[global] Instance settle_bind : MBind settle := fun A B k m => Js.bind m k.

(** ** The endpoint resolver ([sync/serverResolver.ts]) *)

Module Resolver.

Definition ACTIVE_URL_KEY : string := "active-url".
Definition FAILURE_DEBOUNCE_MS : Z := 10000.

(** The identity marker [probeUrl] looks for in the response body. *)
Definition SERVER_MARKER : string := "Welcome to Happy Server!".

(** The default of [probeUrl]'s [timeoutMs] parameter. *)
Definition PROBE_TIMEOUT_MS : Z := 3000.

(** *** One probe *)

(** The part of a [Response] that [probeUrl] reads: the [ok] flag and the
    outcome of [await response.text()] when that read settles.  A body that
    never arrives, so that the read stays pending, is what [bodyArrives] of
    [Traffic] below says. *)
Record Response := { ok : bool; text : settle string }.

(** What the network does with one GET when nobody aborts it: after
    [latency] milliseconds ([None]: never) [fetch] either fulfils with a
    response or rejects with a network error. *)
Inductive FetchResult :=
| Responds (r : Response)
| NetworkFails (e : JsError).

Record Exchange := { latency : option Z; outcome : FetchResult }.

(** [await fetch(url, { signal })] where [setTimeout(() => controller.abort(),
    timeoutMs)] was armed just before: the request settles on its own when it
    is faster than the timer, and rejects with an abort error when the timer
    fires first or together with it.  (The timer is cleared as soon as
    [fetch] has settled, so it bounds the wait for the response head only.) *)
Definition fetch (x : Exchange) (timeoutMs : Z) : settle Response :=
  match latency x with
  | Some t =>
      if t <? timeoutMs then
        match outcome x with
        | Responds r => Fulfilled r
        | NetworkFails e => Rejected e
        end
      else Rejected AbortError
  | None => Rejected AbortError
  end.

(** [probeUrl(url, timeoutMs)] on an exchange whose body read settles: the
    whole body is inside [try], and the [catch] returns [null].  ([probeUrlOn]
    below is the function on any traffic.) *)
Definition probeUrl (url : string) (timeoutMs : Z) (x : Exchange)
  : settle (option string) :=
  try_catch
    (response ← fetch x timeoutMs;
     if negb (ok response) then Fulfilled None else
     body ← text response;
     if negb (includes body SERVER_MARKER) then Fulfilled None else
     Fulfilled (Some url))
    (Fulfilled None).

(** The value a probe's promise fulfils with (it cannot reject, see
    [probeUrl_total]). *)
Definition probeResult (url : string) (x : Exchange) : option string :=
  match probeUrl url PROBE_TIMEOUT_MS x with
  | Fulfilled r => r
  | Rejected _ => None
  end.

(** The response head arrived in time, with an OK status, and the body
    could be read and contains the marker. *)
Definition healthy (x : Exchange) (timeoutMs : Z) : Prop :=
  exists t r body,
    latency x = Some t /\ t < timeoutMs /\ outcome x = Responds r /\
    ok r = true /\ text r = Fulfilled body /\
    exists pre post, body = pre +:+ SERVER_MARKER +:+ post.

(** *** The probe race *)

(** The closure state of one [raceProbes(candidates)] call.  [settled] and
    [pending] are the two [let] variables of the promise executor;
    [resolved] is what [resolve] was called with ([None]: not yet);
    [inflight] lists the candidates, by position, whose probe promise has not
    settled yet.  For a single candidate the probe's own promise is returned
    and the two variables are not used. *)
Record Race := {
  candidates : list string;
  settled : bool;
  pending : Z;
  inflight : list nat;
  resolved : option (option string)
}.

(** [raceProbes(candidates)] up to the point where it returns its promise:
    every probe has been started. *)
Definition raceProbes (cs : list string) : Race :=
  match cs with
  | [] =>
      {| candidates := cs; settled := false; pending := 0;
         inflight := []; resolved := Some None |}
  | _ =>
      {| candidates := cs; settled := false; pending := Z.of_nat (length cs);
         inflight := seq 0 (length cs); resolved := None |}
  end.

(** The callback passed to [probeUrl(url).then(...)]. *)
Definition onProbeResult (result : option string) (r : Race) : Race :=
  if settled r then r
  else if truthy result then
    {| candidates := candidates r; settled := true; pending := pending r;
       inflight := inflight r; resolved := Some result |}
  else
    let pending' := pending r - 1 in
    if pending' =? 0 then
      {| candidates := candidates r; settled := true; pending := pending';
         inflight := inflight r; resolved := Some None |}
    else
      {| candidates := candidates r; settled := false; pending := pending';
         inflight := inflight r; resolved := resolved r |}.

(** The probe of candidate number [i] settles with exchange [x].  A promise
    settles once, so a probe that is no longer in flight does nothing. *)
Definition probeSettles (i : nat) (x : Exchange) (r : Race) : Race :=
  match candidates r !! i with
  | Some url =>
      if bool_decide (i ∈ inflight r) then
        let r' :=
          {| candidates := candidates r; settled := settled r;
             pending := pending r;
             inflight := filter (fun j => j ≠ i) (inflight r);
             resolved := resolved r |} in
        match candidates r with
        | [_] =>
            {| candidates := candidates r'; settled := settled r';
               pending := pending r'; inflight := inflight r';
               resolved := Some (probeResult url x) |}
        | _ => onProbeResult (probeResult url x) r'
        end
      else r
  | None => r
  end.

(** *** The resolution lock *)

(** Modelled from the spec: the class [AsyncLock] of [utils/lock] is not among
    the sources.  The design document calls it a single mutual-exclusion lock
    under which [resolve()] runs, with the contract that at most one
    resolution pass is in flight and later callers await the pass in flight
    instead of starting their own.  It is modelled as a lock with one owner
    and a first-come queue of waiting callers; callers are named by the
    number of their [resolveNow()] call. *)
Record AsyncLock := { holder : option nat; waiting : list nat }.

Definition lockFree : AsyncLock := {| holder := None; waiting := [] |}.

(** Entering [inLock]: the caller owns the lock at once when it is free and
    joins the queue otherwise. *)
Definition acquire (caller : nat) (l : AsyncLock) : AsyncLock :=
  match holder l with
  | None => {| holder := Some caller; waiting := waiting l |}
  | Some _ => {| holder := holder l; waiting := waiting l ++ [caller] |}
  end.

(** Leaving [inLock]: the lock passes to the longest-waiting caller, if any. *)
Definition release (l : AsyncLock) : AsyncLock :=
  match waiting l with
  | [] => {| holder := None; waiting := [] |}
  | next :: rest => {| holder := Some next; waiting := rest |}
  end.

(** *** Module state and the event loop *)

(** Where one [resolveNow()] call stands: queued on the lock; owner of the
    lock with the callback about to run; awaiting [raceProbes]; or done (the
    race record stays, because probes that lost the race are not cancelled
    and still call back). *)
Inductive Phase :=
| Queued
| Granted
| Racing (r : Race)
| Finished (r : Race).

(** The module-level variables of [serverResolver.ts], the MMKV store
    [server-resolver], the two settings that [getServerUrl()] and
    [getManualLanUrl()] of [serverConfig] return at the moment, and every
    [resolveNow()] call made so far. *)
Record World := {
  serverUrl : string;
  manualLanUrl : option string;
  activeUrl : option string;
  resolverStorage : gmap string string;
  lastFailureNotification : Z;
  resolveLock : AsyncLock;
  passes : list Phase
}.

(** Module initialisation: [activeUrl] is read back from the store. *)
Definition boot (primary : string) (lan : option string)
    (store : gmap string string) : World :=
  {| serverUrl := primary; manualLanUrl := lan;
     activeUrl := store !! ACTIVE_URL_KEY;
     resolverStorage := store;
     lastFailureNotification := 0;
     resolveLock := lockFree;
     passes := [] |}.

(** The de-duplicated candidate list built at the start of a pass. *)
Definition buildCandidates (primaryUrl : string) (lanUrl : option string)
  : list string :=
  match lanUrl with
  | Some lan =>
      if truthy_string lan && negb (bool_decide (lan = primaryUrl))
      then [primaryUrl; lan]
      else [primaryUrl]
  | None => [primaryUrl]
  end.

(** [resolveNow()] as far as it runs in the caller's turn: the call is
    numbered and enters [resolveLock.inLock]. *)
Definition resolveNow (w : World) : World :=
  let caller := length (passes w) in
  {| serverUrl := serverUrl w; manualLanUrl := manualLanUrl w;
     activeUrl := activeUrl w; resolverStorage := resolverStorage w;
     lastFailureNotification := lastFailureNotification w;
     resolveLock := acquire caller (resolveLock w);
     passes := passes w ++
       [match holder (resolveLock w) with None => Granted | Some _ => Queued end] |}.

(** The first half of the locked callback: read the settings, build the
    candidates and start the race. *)
Definition startPass (caller : nat) (w : World) : World :=
  match passes w !! caller with
  | Some Granted =>
      let primaryUrl := serverUrl w in
      let lanUrl := manualLanUrl w in
      {| serverUrl := serverUrl w; manualLanUrl := manualLanUrl w;
         activeUrl := activeUrl w; resolverStorage := resolverStorage w;
         lastFailureNotification := lastFailureNotification w;
         resolveLock := resolveLock w;
         passes := <[caller := Racing (raceProbes (buildCandidates primaryUrl lanUrl))]>
                     (passes w) |}
  | _ => w
  end.

(** The second half of the locked callback, once [await raceProbes] has
    produced [winner]: [if (winner) { activeUrl = winner;
    resolverStorage.set(ACTIVE_URL_KEY, winner); }]. *)
Definition adoptWinner (winner : option string) (w : World) : World :=
  match winner with
  | Some url =>
      if truthy_string url then
        {| serverUrl := serverUrl w; manualLanUrl := manualLanUrl w;
           activeUrl := Some url;
           resolverStorage := <[ACTIVE_URL_KEY := url]> (resolverStorage w);
           lastFailureNotification := lastFailureNotification w;
           resolveLock := resolveLock w; passes := passes w |}
      else w
  | None => w
  end.

(** Leaving [inLock]: the caller is done, and the next caller in the queue,
    if any, owns the lock. *)
Definition unlock (caller : nat) (r : Race) (w : World) : World :=
  let l := release (resolveLock w) in
  let done := <[caller := Finished r]> (passes w) in
  {| serverUrl := serverUrl w; manualLanUrl := manualLanUrl w;
     activeUrl := activeUrl w; resolverStorage := resolverStorage w;
     lastFailureNotification := lastFailureNotification w;
     resolveLock := l;
     passes :=
       match holder l with
       | Some next => <[next := Granted]> done
       | None => done
       end |}.

Definition finishPass (caller : nat) (r : Race) (winner : option string)
    (w : World) : World :=
  unlock caller r (adoptWinner winner w).

(** A probe started by call number [caller] settles. *)
Definition probeDone (caller i : nat) (x : Exchange) (w : World) : World :=
  match passes w !! caller with
  | Some (Racing r) =>
      let r' := probeSettles i x r in
      match resolved r' with
      | Some winner => finishPass caller r' winner w
      | None =>
          {| serverUrl := serverUrl w; manualLanUrl := manualLanUrl w;
             activeUrl := activeUrl w; resolverStorage := resolverStorage w;
             lastFailureNotification := lastFailureNotification w;
             resolveLock := resolveLock w;
             passes := <[caller := Racing r']> (passes w) |}
      end
  | Some (Finished r) =>
      {| serverUrl := serverUrl w; manualLanUrl := manualLanUrl w;
         activeUrl := activeUrl w; resolverStorage := resolverStorage w;
         lastFailureNotification := lastFailureNotification w;
         resolveLock := resolveLock w;
         passes := <[caller := Finished (probeSettles i x r)]> (passes w) |}
  | _ => w
  end.

(** The cold-cache branch of [getResolvedServerUrl()]: fall back to the
    primary URL, remember it, and start a resolution that is not awaited. *)
Definition coldStart (w : World) : string * World :=
  let primary := serverUrl w in
  (primary,
   resolveNow
     {| serverUrl := serverUrl w; manualLanUrl := manualLanUrl w;
        activeUrl := Some primary; resolverStorage := resolverStorage w;
        lastFailureNotification := lastFailureNotification w;
        resolveLock := resolveLock w; passes := passes w |}).

(** [getResolvedServerUrl()] *)
Definition getResolvedServerUrl (w : World) : string * World :=
  match activeUrl w with
  | Some url => if truthy_string url then (url, w) else coldStart w
  | None => coldStart w
  end.

(** [resetResolver()] *)
Definition resetResolver (w : World) : World :=
  {| serverUrl := serverUrl w; manualLanUrl := manualLanUrl w;
     activeUrl := None;
     resolverStorage := delete ACTIVE_URL_KEY (resolverStorage w);
     lastFailureNotification := lastFailureNotification w;
     resolveLock := resolveLock w; passes := passes w |}.

(** [notifyConnectionFailed()], with the value [Date.now()] returns. *)
Definition notifyConnectionFailed (now : Z) (w : World) : World :=
  if now - lastFailureNotification w <? FAILURE_DEBOUNCE_MS then w
  else
    resolveNow
      {| serverUrl := serverUrl w; manualLanUrl := manualLanUrl w;
         activeUrl := activeUrl w; resolverStorage := resolverStorage w;
         lastFailureNotification := now;
         resolveLock := resolveLock w; passes := passes w |}.

(** [isUsingLanUrl()] *)
Definition isUsingLanUrl (w : World) : bool :=
  if truthy (activeUrl w) then
    match manualLanUrl w with
    | Some lan => bool_decide (activeUrl w = Some lan)
    | None => false
    end
  else false.

(** The settings screen stores new URLs ([setServerUrl], [setManualLanUrl]). *)
Definition configure (primary : string) (lan : option string) (w : World)
  : World :=
  {| serverUrl := primary; manualLanUrl := lan;
     activeUrl := activeUrl w; resolverStorage := resolverStorage w;
     lastFailureNotification := lastFailureNotification w;
     resolveLock := resolveLock w; passes := passes w |}.

(** Everything that can happen to the module: a call of one of its exported
    functions, a change of settings, or a turn of the event loop that resumes
    a [resolveNow()] call. *)
Inductive Event :=
| CallResolveNow
| CallGetResolvedServerUrl
| CallResetResolver
| CallNotifyConnectionFailed (now : Z)
| Configure (primary : string) (lan : option string)
| PassStarts (caller : nat)
| ProbeSettles (caller i : nat) (x : Exchange).

Definition step (w : World) (e : Event) : World :=
  match e with
  | CallResolveNow => resolveNow w
  | CallGetResolvedServerUrl => snd (getResolvedServerUrl w)
  | CallResetResolver => resetResolver w
  | CallNotifyConnectionFailed now => notifyConnectionFailed now w
  | Configure primary lan => configure primary lan w
  | PassStarts caller => startPass caller w
  | ProbeSettles caller i x => probeDone caller i x w
  end.

Definition run (w : World) (es : list Event) : World := foldl step w es.

(** *** Notions used to state the properties *)

(** The probes of call [caller] settle in the order [order]; [xs i] is what
    the network did with the probe of candidate number [i]. *)
Definition settleAll (caller : nat) (xs : nat -> Exchange) (order : list nat)
  : list Event :=
  map (fun i => ProbeSettles caller i (xs i)) order.

(** A race in which the probes listed in [failed] have failed and nothing
    else has happened. *)
Definition undecided (cs : list string) (r : Race) (failed : list nat) : Prop :=
  candidates r = cs /\ settled r = false /\ resolved r = None /\
  pending r = Z.of_nat (length cs) - Z.of_nat (length failed) /\
  forall i, (i < length cs)%nat -> i ∉ failed -> i ∈ inflight r.

(** Call [caller] is awaiting its race. *)
Definition racing (w : World) (caller : nat) : Prop :=
  exists r, passes w !! caller = Some (Racing r).

(** One uninterrupted pass of call [caller], once it owns the lock: the
    callback starts, then the probes settle in the order [order]. *)
Definition passEvents (caller : nat) (xs : nat -> Exchange) (order : list nat)
  : list Event :=
  PassStarts caller :: settleAll caller xs order.

(** The scenario of the design document: of two candidates the first times
    out and the second answers with the marker. *)
Definition timesOut : Exchange :=
  {| latency := None; outcome := NetworkFails AbortError |}.

(** A server that answers 200 with the marker after [after] milliseconds. *)
Definition welcomes (after : Z) : Exchange :=
  {| latency := Some after;
     outcome := Responds {| ok := true;
                            text := Fulfilled "Welcome to Happy Server!" |} |}.

(** The primary URL is the bad one, the LAN URL the good one, and
    [resolveNow()] has just been called. *)
Definition twoCandidates : World :=
  resolveNow (boot "https://bad.example" (Some "https://good.example") ∅).

(** What the network does with the probe of candidate [i] in the scenario. *)
Definition badThenGood (i : nat) : Exchange :=
  match i with
  | O => timesOut
  | S _ => welcomes 120
  end.


(** A call is in flight from the moment it owns the lock until it leaves
    [inLock]. *)
Definition inFlight (p : Phase) : bool :=
  match p with
  | Granted | Racing _ => true
  | Queued | Finished _ => false
  end.

(** What every reachable world satisfies: a race that is still awaited has
    not resolved; the owner of the lock is exactly the call in flight; the
    queue of the lock holds exactly the queued calls, each once. *)
Record wf (l : AsyncLock) (ps : list Phase) : Prop := {
  wf_racing : forall i r, ps !! i = Some (Racing r) -> resolved r = None;
  wf_holder : forall i,
    holder l = Some i <-> exists p, ps !! i = Some p /\ inFlight p = true;
  wf_waiting : forall i, i ∈ waiting l <-> ps !! i = Some Queued;
  wf_nodup : NoDup (waiting l)
}.

(** A world is well formed when its lock and its calls are. *)
Definition wfWorld (w : World) : Prop := wf (resolveLock w) (passes w).

(** Event [e] is the settling of a probe of URL [u] that succeeds, in a race
    that call [caller] is awaiting. *)
Definition successfulProbe (w : World) (e : Event) (u : string) : Prop :=
  exists caller i x r,
    e = ProbeSettles caller i x /\
    passes w !! caller = Some (Racing r) /\
    candidates r !! i = Some u /\
    healthy x PROBE_TIMEOUT_MS.

(** The in-memory Active URL is changed by [e] only through a race with a
    successful probe, or cleared by [resetResolver()]. *)
Definition memoryOnlyByRaceOrReset (w : World) (e : Event) : Prop :=
  activeUrl (step w e) <> activeUrl w ->
  (e = CallResetResolver /\ activeUrl (step w e) = None) \/
  (exists u, successfulProbe w e u /\ activeUrl (step w e) = Some u).

(** The same for the persisted record. *)
Definition storeOnlyByRaceOrReset (w : World) (e : Event) : Prop :=
  resolverStorage (step w e) <> resolverStorage w ->
  (e = CallResetResolver /\
   resolverStorage (step w e) = delete ACTIVE_URL_KEY (resolverStorage w)) \/
  (exists u, successfulProbe w e u /\
             resolverStorage (step w e) = <[ACTIVE_URL_KEY := u]> (resolverStorage w)).

(** The in-memory Active URL is also changed by the cold-cache branch of
    [getResolvedServerUrl()], which stores the primary URL unprobed. *)
Definition memoryByRaceResetOrColdStart (w : World) (e : Event) : Prop :=
  activeUrl (step w e) <> activeUrl w ->
  (e = CallResetResolver /\ activeUrl (step w e) = None) \/
  (exists u, successfulProbe w e u /\ activeUrl (step w e) = Some u) \/
  (e = CallGetResolvedServerUrl /\ truthy (activeUrl w) = false /\
   activeUrl (step w e) = Some (serverUrl w)).

(** A first start: nothing stored, no LAN URL. *)
Definition freshInstall : World := boot "https://api.example" None ∅.

(** *** Notions used to state further properties of the resolver *)

(** The probes of one race settle as listed: each entry names a candidate by
    its position and gives what the network did with its probe.  An entry
    for a probe that has settled before, or for a position without a
    candidate, is a settlement that cannot happen and changes nothing. *)
Definition raceRun (r : Race) (ss : list (nat * Exchange)) : Race :=
  foldl (fun r s => probeSettles s.1 s.2 r) r ss.


(** What holds of a race over [cs] once the settlements [ss] have happened.
    While the promise is unresolved, the probes in flight are exactly those
    that have not settled, at least one is, and [pending] counts them.  Once
    it is resolved no later settlement can change it, a winner is the URL of
    a probe that succeeded, and [null] means that every probe has settled. *)
Definition raceInv (cs : list string) (ss : list (nat * Exchange)) (r : Race)
  : Prop :=
  candidates r = cs /\
  match resolved r with
  | None =>
      settled r = false /\ inflight r <> [] /\ NoDup (inflight r) /\
      (forall i, i ∈ inflight r <-> (i < length cs)%nat /\ i ∉ ss.*1) /\
      pending r = Z.of_nat (length (inflight r))
  | Some winner =>
      (inflight r = [] \/ (length cs <> 1%nat /\ settled r = true)) /\
      match winner with
      | Some u =>
          exists i x, (i, x) ∈ ss /\ cs !! i = Some u /\ healthy x PROBE_TIMEOUT_MS
      | None => forall i, (i < length cs)%nat -> i ∈ ss.*1
      end
  end.

(** What the outcome of a race says about its probes. *)
Definition raceVerdict (cs : list string) (ss : list (nat * Exchange))
    (outcome : option (option string)) : Prop :=
  match outcome with
  | Some (Some u) =>
      exists i x, (i, x) ∈ ss /\ cs !! i = Some u /\ healthy x PROBE_TIMEOUT_MS
  | Some None => forall i, (i < length cs)%nat -> i ∈ ss.*1
  | None => exists i, (i < length cs)%nat /\ i ∉ ss.*1
  end.

(** The settings screen saves new URLs and resets the resolver
    ([handleSave] of [app/(app)/server.tsx]). *)
Definition saveSettings (primary : string) (lan : option string) : list Event :=
  [Configure primary lan; CallResetResolver].

(** The process restarts: the module is initialised again from the store
    that [w] leaves behind, with the settings as they are. *)
Definition restart (w : World) : World :=
  boot (serverUrl w) (manualLanUrl w) (resolverStorage w).


(** A non-empty persisted record is the Active URL held in memory. *)
Definition storeAgrees (w : World) : Prop :=
  forall u, resolverStorage w !! ACTIVE_URL_KEY = Some u -> u <> EmptyString ->
            activeUrl w = Some u.

(** A pass that is awaiting its race, with the probe of candidate [i], a
    probe of URL [u], still in flight. *)
Definition probing (w : World) (caller i : nat) (u : string) : Prop :=
  exists r, passes w !! caller = Some (Racing r) /\
            resolved r = None /\ settled r = false /\
            i ∈ inflight r /\ candidates r !! i = Some u.

(** The pass of the first [resolveNow()] call has started and the probe of
    the primary URL has failed; the probe of the LAN URL is in flight. *)
Definition lanProbeInFlight : World :=
  run twoCandidates [PassStarts 0; ProbeSettles 0 0 timesOut].

(** *** A probe whose body may never arrive *)

(** What the network does with one GET, body included: [exchange] says when
    and how [fetch] settles and what reading the body gives, [bodyArrives]
    whether the body ever arrives once the head has.  When it does not,
    [response.text()] stays pending. *)
Record Traffic := { exchange : Exchange; bodyArrives : bool }.

(** A promise that may stay pending for ever is an [option (settle A)], with
    [None] for "never settles".  [await p k] is [const a = await p; k a]:
    nothing after a pending [await] runs, and a rejection is thrown. *)
Definition await {A B : Type} (p : option (settle A))
    (k : A -> option (settle B)) : option (settle B) :=
  match p with
  | Some (Fulfilled a) => k a
  | Some (Rejected e) => Some (Rejected e)
  | None => None
  end.

(** [try { body } catch { handler }] around such a block: the handler runs
    when the block throws, and never while the block is pending. *)
Definition catching {A : Type} (body handler : option (settle A))
  : option (settle A) :=
  match body with
  | Some (Rejected _) => handler
  | _ => body
  end.

(** [response.text()] *)
Definition readBody (n : Traffic) (response : Response) : option (settle string) :=
  if bodyArrives n then Some (text response) else None.

(** [probeUrl(url, timeoutMs)] on any traffic.  [fetch] always settles,
    because the timer aborts it; [clearTimeout(timer)] comes right after, so
    no timer runs while the body is awaited.  A probe that stays pending
    never calls back into its race: the event loop sees no [ProbeSettles]
    for it. *)
Definition probeUrlOn (url : string) (timeoutMs : Z) (n : Traffic)
  : option (settle (option string)) :=
  catching
    (await (Some (fetch (exchange n) timeoutMs)) (fun response =>
     if negb (ok response) then Some (Fulfilled None) else
     await (readBody n response) (fun body =>
     if negb (includes body SERVER_MARKER) then Some (Fulfilled None) else
     Some (Fulfilled (Some url)))))
    (Some (Fulfilled None)).

(** The response head arrived in time with an OK status. *)
Definition headOk (x : Exchange) (timeoutMs : Z) : Prop :=
  exists t r,
    latency x = Some t /\ t < timeoutMs /\ outcome x = Responds r /\ ok r = true.

(** The head arrived in time with an OK status, and the body arrived, could
    be read and contains the marker. *)
Definition succeeds (n : Traffic) (timeoutMs : Z) : Prop :=
  bodyArrives n = true /\ healthy (exchange n) timeoutMs.

(** The head arrived in time with an OK status, and the body never
    arrives. *)
Definition hangs (n : Traffic) (timeoutMs : Z) : Prop :=
  bodyArrives n = false /\ headOk (exchange n) timeoutMs.


(** A server that sends an OK head after 100 ms and then never sends the
    body. *)
Definition stalledBody : Traffic :=
  {| exchange := welcomes 100; bodyArrives := false |}.

(** *** Passes one after the other *)




(** [resolveNow()] has been called twice in a row; the pass of the first
    call has started its two probes and the second call is queued. *)
Definition twoCallers : World :=
  run (boot "https://bad.example" (Some "https://good.example") ∅)
      [CallResolveNow; CallResolveNow; PassStarts 0].

(** The probe of the LAN URL answers first and wins the race, while the
    probe of the primary URL is still out; then the callback of the second
    call starts. *)
Definition lanWinsThenNextPass : list Event :=
  [ProbeSettles 0 1 (welcomes 120); PassStarts 1].
End Resolver.

(** ** The socket client ([sync/apiSocket.ts]) *)

Module ApiSocket.

(** *** Data *)

Inductive Status := disconnected | connecting | connected | error.

#[global] Instance Status_eq_dec : EqDecision Status.
Proof. solve_decision. Defined.

Record SyncSocketConfig := { endpoint : string; token : string }.

(** Payloads: what goes into and comes out of the socket and the ciphers. *)
#[warnings="-register-all"]
Inductive Value :=
| VUndefined
| VNull
| VBool (b : bool)
| VStr (s : string)
| VObj (fields : list (string * Value)).

(** The value of the own property [name] among [fields]. *)
Fixpoint field (name : string) (fields : list (string * Value)) : Value :=
  match fields with
  | [] => VUndefined
  | (key, v) :: rest => if String.eqb key name then v else field name rest
  end.

(** [v.name]: reading a property of [null] or [undefined] throws. *)
Definition prop (v : Value) (name : string) : settle Value :=
  match v with
  | VUndefined | VNull => Rejected TypeError
  | VObj fields => Fulfilled (field name fields)
  | VBool _ | VStr _ => Fulfilled VUndefined
  end.

Definition truthyValue (v : Value) : bool :=
  match v with
  | VUndefined | VNull => false
  | VBool b => b
  | VStr s => truthy_string s
  | VObj _ => true
  end.

(** The encryption context of one peer, named by a key number.  The class
    [Encryption] of [sync/encryption] is outside these sources; the client
    uses its two lookups, which return a peer's cipher or [null], and a
    cipher's [encryptRaw] and [decryptRaw], whose results the environment
    supplies. *)
Definition Cipher := nat.

Record Encryption := {
  sessionCiphers : gmap string Cipher;
  machineCiphers : gmap string Cipher
}.

Definition getSessionEncryption (e : Encryption) (sessionId : string)
  : option Cipher := sessionCiphers e !! sessionId.

Definition getMachineEncryption (e : Encryption) (machineId : string)
  : option Cipher := machineCiphers e !! machineId.

(** The private fields of [class ApiSocket].  Sockets, listeners and
    handlers are objects and functions; each is named by a number.  The
    listener sets keep insertion order, as a JavaScript [Set] does. *)
Record ApiSocket := {
  socket : option nat;
  config : option SyncSocketConfig;
  encryption : option Encryption;
  messageHandlers : gmap string nat;
  reconnectedListeners : list nat;
  statusListeners : list nat;
  currentStatus : Status;
  networkSubscription : bool
}.

(** The two properties of a socket.io [Socket] that the client reads. *)
Record SocketObj := { sock_connected : bool; sock_recovered : bool }.

(** *** Asynchronous methods *)

Inductive Direction := Encrypt | Decrypt.

(** The body of an [async] method as a tree: it returns, throws, reads the
    fields as they are when it gets there, or awaits something and goes on
    with the answer. *)
Inductive Async :=
| Return (v : Value)
| Throw (e : JsError)
| Read (k : ApiSocket -> Async)
| AwaitConnection (timeoutMs : Z) (k : Async)
| AwaitCipher (d : Direction) (c : Cipher) (v : Value) (k : Value -> Async)
| AwaitAck (sock : nat) (event : string) (data : Value) (k : Value -> Async).

(** The default of [waitForConnection]'s [timeoutMs] parameter. *)
Definition CONNECTION_TIMEOUT_MS : Z := 10000.

(** [this.socket!] *)
Definition withSocket (k : nat -> Async) : Async :=
  Read (fun this =>
    match socket this with
    | Some sock => k sock
    | None => Throw TypeError
    end).

(** [this.encryption!] *)
Definition withEncryption (k : Encryption -> Async) : Async :=
  Read (fun this =>
    match encryption this with
    | Some e => k e
    | None => Throw TypeError
    end).

(** The method key on the wire: [`${peerId}:${method}`]. *)
Definition methodKey (peerId method : string) : string :=
  peerId +:+ ":" +:+ method.

(** [{ method, params }] *)
Definition rpcCall (method : string) (params : Value) : Value :=
  VObj [("method"%string, VStr method); ("params"%string, params)].

(** The tail shared by the two RPC methods: [if (result.ok) return await
    cipher.decryptRaw(result.result); throw new Error('RPC call failed')]. *)
Definition rpcResult (cipher : Cipher) (result : Value) : Async :=
  match prop result "ok" with
  | Rejected e => Throw e
  | Fulfilled flag =>
      if truthyValue flag then
        match prop result "result" with
        | Rejected e => Throw e
        | Fulfilled payload => AwaitCipher Decrypt cipher payload Return
        end
      else Throw (Error "RPC call failed")
  end.

(** [sessionRPC(sessionId, method, params)] *)
Definition sessionRPC (sessionId method : string) (params : Value) : Async :=
  withEncryption (fun e =>
    match getSessionEncryption e sessionId with
    | None => Throw (Error ("Session encryption not found for " +:+ sessionId))
    | Some sessionEncryption =>
        AwaitConnection CONNECTION_TIMEOUT_MS
          (withSocket (fun sock =>
             AwaitCipher Encrypt sessionEncryption params (fun encrypted =>
               AwaitAck sock "rpc-call"
                 (rpcCall (methodKey sessionId method) encrypted)
                 (rpcResult sessionEncryption))))
    end).

(** [machineRPC(machineId, method, params)] *)
Definition machineRPC (machineId method : string) (params : Value) : Async :=
  withEncryption (fun e =>
    match getMachineEncryption e machineId with
    | None => Throw (Error ("Machine encryption not found for " +:+ machineId))
    | Some machineEncryption =>
        AwaitConnection CONNECTION_TIMEOUT_MS
          (withSocket (fun sock =>
             AwaitCipher Encrypt machineEncryption params (fun encrypted =>
               AwaitAck sock "rpc-call"
                 (rpcCall (methodKey machineId method) encrypted)
                 (rpcResult machineEncryption))))
    end).

(** [emitWithAck(event, data)] *)
Definition emitWithAck (event : string) (data : Value) : Async :=
  AwaitConnection CONNECTION_TIMEOUT_MS
    (withSocket (fun sock => AwaitAck sock event data Return)).

(** *** The world around the client *)

(** Where a call of an asynchronous method stands.  [Ready]: the promise it
    awaited is settled and its continuation is queued.  [WaitingConnect]: it
    is inside [waitForConnection], with [onConnect] registered once on socket
    [sock] and the timer due at [deadline].  [Done]: its promise is settled. *)
Inductive Call :=
| Ready (k : Async)
| WaitingConnect (sock : nat) (deadline : Z) (k : Async)
| WaitingCipher (k : Value -> Async)
| WaitingAck (k : Value -> Async)
| Done (r : settle Value).

(** What the client does to its collaborators, in order. *)
Inductive Effect :=
| StatusListenerCalled (listener : nat) (status : Status)
| ReconnectedListenerCalled (listener : nat)
| MessageHandlerCalled (handler : nat) (data : Value)
| IoCreated (sock : nat) (endpoint token : string)
| SocketConnect (sock : nat)
| SocketDisconnect (sock : nat)
| SocketEmit (sock : nat) (event : string) (data : Value)
| SocketEmitWithAck (call sock : nat) (event : string) (data : Value)
| CipherCalled (call : nat) (d : Direction) (c : Cipher) (v : Value)
| NetworkListenerAdded
| NetworkListenerRemoved.

(** The effects that reach the network. *)
Definition networkIO (e : Effect) : bool :=
  match e with
  | IoCreated _ _ _ | SocketConnect _ | SocketDisconnect _
  | SocketEmit _ _ _ | SocketEmitWithAck _ _ _ _ => true
  | _ => false
  end.

Record World := {
  this : ApiSocket;
  sockets : list SocketObj;
  calls : list Call;
  clock : Z;
  effects : list Effect
}.

(** A fresh [new ApiSocket()]. *)
Definition fresh : World :=
  {| this := {| socket := None; config := None; encryption := None;
                messageHandlers := ∅; reconnectedListeners := [];
                statusListeners := []; currentStatus := disconnected;
                networkSubscription := false |};
     sockets := []; calls := []; clock := 0; effects := [] |}.

(** Field updates. *)
Definition setThis (f : ApiSocket -> ApiSocket) (w : World) : World :=
  {| this := f (this w); sockets := sockets w; calls := calls w;
     clock := clock w; effects := effects w |}.

Definition perform (es : list Effect) (w : World) : World :=
  {| this := this w; sockets := sockets w; calls := calls w;
     clock := clock w; effects := effects w ++ es |}.

Definition setCall (call : nat) (c : Call) (w : World) : World :=
  {| this := this w; sockets := sockets w; calls := <[call := c]> (calls w);
     clock := clock w; effects := effects w |}.

Definition setSocketObj (sock : nat) (o : SocketObj) (w : World) : World :=
  {| this := this w; sockets := <[sock := o]> (sockets w); calls := calls w;
     clock := clock w; effects := effects w |}.

Definition withSocketField (s : option nat) (a : ApiSocket) : ApiSocket :=
  {| socket := s; config := config a; encryption := encryption a;
     messageHandlers := messageHandlers a;
     reconnectedListeners := reconnectedListeners a;
     statusListeners := statusListeners a; currentStatus := currentStatus a;
     networkSubscription := networkSubscription a |}.

Definition withConfig (c : option SyncSocketConfig) (a : ApiSocket) : ApiSocket :=
  {| socket := socket a; config := c; encryption := encryption a;
     messageHandlers := messageHandlers a;
     reconnectedListeners := reconnectedListeners a;
     statusListeners := statusListeners a; currentStatus := currentStatus a;
     networkSubscription := networkSubscription a |}.

Definition withEncryptionField (e : option Encryption) (a : ApiSocket) : ApiSocket :=
  {| socket := socket a; config := config a; encryption := e;
     messageHandlers := messageHandlers a;
     reconnectedListeners := reconnectedListeners a;
     statusListeners := statusListeners a; currentStatus := currentStatus a;
     networkSubscription := networkSubscription a |}.

Definition withMessageHandlers (m : gmap string nat) (a : ApiSocket) : ApiSocket :=
  {| socket := socket a; config := config a; encryption := encryption a;
     messageHandlers := m;
     reconnectedListeners := reconnectedListeners a;
     statusListeners := statusListeners a; currentStatus := currentStatus a;
     networkSubscription := networkSubscription a |}.

Definition withReconnectedListeners (l : list nat) (a : ApiSocket) : ApiSocket :=
  {| socket := socket a; config := config a; encryption := encryption a;
     messageHandlers := messageHandlers a;
     reconnectedListeners := l;
     statusListeners := statusListeners a; currentStatus := currentStatus a;
     networkSubscription := networkSubscription a |}.

Definition withStatusListeners (l : list nat) (a : ApiSocket) : ApiSocket :=
  {| socket := socket a; config := config a; encryption := encryption a;
     messageHandlers := messageHandlers a;
     reconnectedListeners := reconnectedListeners a;
     statusListeners := l; currentStatus := currentStatus a;
     networkSubscription := networkSubscription a |}.

Definition withCurrentStatus (s : Status) (a : ApiSocket) : ApiSocket :=
  {| socket := socket a; config := config a; encryption := encryption a;
     messageHandlers := messageHandlers a;
     reconnectedListeners := reconnectedListeners a;
     statusListeners := statusListeners a; currentStatus := s;
     networkSubscription := networkSubscription a |}.

Definition withNetworkSubscription (b : bool) (a : ApiSocket) : ApiSocket :=
  {| socket := socket a; config := config a; encryption := encryption a;
     messageHandlers := messageHandlers a;
     reconnectedListeners := reconnectedListeners a;
     statusListeners := statusListeners a; currentStatus := currentStatus a;
     networkSubscription := b |}.

(** [set.add(x)] and [set.delete(x)] on an insertion-ordered set. *)
Definition setAdd (x : nat) (l : list nat) : list nat :=
  if bool_decide (x ∈ l) then l else l ++ [x].

Definition setDelete (x : nat) (l : list nat) : list nat :=
  filter (fun y => y ≠ x) l.

(** [this.socket?.connected] and [this.socket?.recovered], falsy when there
    is no socket. *)
Definition socketConnected (w : World) : bool :=
  match socket (this w) with
  | Some sock => default false (sock_connected <$> sockets w !! sock)
  | None => false
  end.

Definition socketRecovered (w : World) : bool :=
  match socket (this w) with
  | Some sock => default false (sock_recovered <$> sockets w !! sock)
  | None => false
  end.

(** *** Synchronous methods *)

(** [updateStatus(status)] *)
Definition updateStatus (status : Status) (w : World) : World :=
  if bool_decide (currentStatus (this w) ≠ status) then
    perform (map (fun listener => StatusListenerCalled listener status)
                 (statusListeners (this w)))
            (setThis (withCurrentStatus status) w)
  else w.

(** [cleanupNetworkListener()] *)
Definition cleanupNetworkListener (w : World) : World :=
  if networkSubscription (this w) then
    setThis (withNetworkSubscription false) (perform [NetworkListenerRemoved] w)
  else w.

(** [setupNetworkListener()] *)
Definition setupNetworkListener (w : World) : World :=
  setThis (withNetworkSubscription true)
          (perform [NetworkListenerAdded] (cleanupNetworkListener w)).

(** [connect()].  [setupEventHandlers()] registers on the new socket the
    handlers that [onSocketConnect] and the other socket events below run;
    every socket the client creates has them. *)
Definition connect (w : World) : World :=
  match config (this w), socket (this w) with
  | Some cfg, None =>
      let w1 := updateStatus connecting w in
      let sock := length (sockets w1) in
      let w2 :=
        {| this := withSocketField (Some sock) (this w1);
           sockets := sockets w1 ++
             [{| sock_connected := false; sock_recovered := false |}];
           calls := calls w1; clock := clock w1;
           effects := effects w1 ++ [IoCreated sock (endpoint cfg) (token cfg)] |} in
      setupNetworkListener w2
  | _, _ => w
  end.

(** [socket.disconnect()] on the socket object [sock]. *)
Definition socketDisconnect (sock : nat) (w : World) : World :=
  match sockets w !! sock with
  | Some o =>
      perform [SocketDisconnect sock]
        (setSocketObj sock
           {| sock_connected := false; sock_recovered := sock_recovered o |} w)
  | None => w
  end.

(** [disconnect()] *)
Definition disconnect (w : World) : World :=
  let w1 := cleanupNetworkListener w in
  let w2 :=
    match socket (this w1) with
    | Some sock => setThis (withSocketField None) (socketDisconnect sock w1)
    | None => w1
    end in
  updateStatus disconnected w2.

(** [ensureConnected()] *)
Definition ensureConnected (w : World) : World :=
  match socket (this w) with
  | Some sock =>
      if negb (socketConnected w) then perform [SocketConnect sock] w else w
  | None =>
      match config (this w) with
      | Some _ => connect w
      | None => w
      end
  end.

(** [initialize(config, encryption)] *)
Definition initialize (cfg : SyncSocketConfig) (e : Encryption) (w : World)
  : World :=
  connect (setThis (fun a => withEncryptionField (Some e) (withConfig (Some cfg) a)) w).

(** [onStatusChange(listener)]; the function it returns is
    [offStatusChange]. *)
Definition onStatusChange (listener : nat) (w : World) : World :=
  let w1 := setThis (fun a => withStatusListeners
                                (setAdd listener (statusListeners a)) a) w in
  perform [StatusListenerCalled listener (currentStatus (this w1))] w1.

Definition offStatusChange (listener : nat) (w : World) : World :=
  setThis (fun a => withStatusListeners (setDelete listener (statusListeners a)) a) w.

(** [onReconnected(listener)] and the function it returns. *)
Definition onReconnected (listener : nat) (w : World) : World :=
  setThis (fun a => withReconnectedListeners
                      (setAdd listener (reconnectedListeners a)) a) w.

Definition offReconnected (listener : nat) (w : World) : World :=
  setThis (fun a => withReconnectedListeners
                      (setDelete listener (reconnectedListeners a)) a) w.

(** [onMessage(event, handler)] and [offMessage(event)]. *)
Definition onMessage (event : string) (handler : nat) (w : World) : World :=
  setThis (fun a => withMessageHandlers (<[event := handler]> (messageHandlers a)) a) w.

Definition offMessage (event : string) (w : World) : World :=
  setThis (fun a => withMessageHandlers (delete event (messageHandlers a)) a) w.

(** [send(event, data)] *)
Definition send (event : string) (data : Value) (w : World) : bool * World :=
  match socket (this w) with
  | Some sock =>
      if socketConnected w then (true, perform [SocketEmit sock event data] w)
      else (false, w)
  | None => (false, w)
  end.

(** [updateToken(newToken)] *)
Definition updateToken (newToken : string) (w : World) : World :=
  match config (this w) with
  | Some cfg =>
      if bool_decide (token cfg ≠ newToken) then
        let w1 := setThis (withConfig
                    (Some {| endpoint := endpoint cfg; token := newToken |})) w in
        match socket (this w1) with
        | Some _ => connect (disconnect w1)
        | None => w1
        end
      else w
  | None => w
  end.

(** *** Asynchronous calls *)

(** [waitForConnection(timeoutMs)] as called by call number [call], whose
    continuation after the [await] is [k].  An already connected socket gives
    a resolved promise; no socket gives a rejected one, which ends the call;
    otherwise the timer is armed and [onConnect] is registered. *)
Definition waitForConnection (call : nat) (timeoutMs : Z) (k : Async)
    (w : World) : World :=
  if socketConnected w then setCall call (Ready k) w
  else
    match socket (this w) with
    | None => setCall call (Done (Rejected (Error "Socket not initialized"))) w
    | Some sock => setCall call (WaitingConnect sock (clock w + timeoutMs) k) w
    end.

(** Run call number [call] from [p] up to its next [await]. *)
Fixpoint drive (call : nat) (p : Async) (w : World) : World :=
  match p with
  | Return v => setCall call (Done (Fulfilled v)) w
  | Throw e => setCall call (Done (Rejected e)) w
  | Read k => drive call (k (this w)) w
  | AwaitConnection timeoutMs k => waitForConnection call timeoutMs k w
  | AwaitCipher d c v k =>
      setCall call (WaitingCipher k) (perform [CipherCalled call d c v] w)
  | AwaitAck sock event data k =>
      setCall call (WaitingAck k)
              (perform [SocketEmitWithAck call sock event data] w)
  end.

(** A caller invokes an asynchronous method with body [p]: the call gets
    the next number and runs up to its first [await]. *)
Definition invoke (p : Async) (w : World) : World :=
  let call := length (calls w) in
  drive call p
    {| this := this w; sockets := sockets w; calls := calls w ++ [Ready p];
       clock := clock w; effects := effects w |}.

(** The event loop runs the queued continuation of [call]. *)
Definition resume (call : nat) (w : World) : World :=
  match calls w !! call with
  | Some (Ready k) => drive call k w
  | _ => w
  end.

(** The promise call [call] awaits from a cipher, or from the socket's
    acknowledgement, settles. *)
Definition settleAwaited (r : settle Value) (call : nat) (k : Value -> Async)
    (w : World) : World :=
  match r with
  | Fulfilled v => drive call (k v) w
  | Rejected e => setCall call (Done (Rejected e)) w
  end.

Definition cipherSettles (call : nat) (r : settle Value) (w : World) : World :=
  match calls w !! call with
  | Some (WaitingCipher k) => settleAwaited r call k w
  | _ => w
  end.

Definition ackSettles (call : nat) (r : settle Value) (w : World) : World :=
  match calls w !! call with
  | Some (WaitingAck k) => settleAwaited r call k w
  | _ => w
  end.

(** The timer of [waitForConnection] fires for every call whose deadline has
    passed: [this.socket?.off('connect', onConnect); reject(new Error('Socket
    connection timeout'))]. *)
Definition expire (now : Z) (c : Call) : Call :=
  match c with
  | WaitingConnect sock deadline k =>
      if deadline <=? now then Done (Rejected (Error "Socket connection timeout"))
      else c
  | _ => c
  end.

(** Time passes; timers that fall due fire. *)
Definition elapse (dt : Z) (w : World) : World :=
  if 0 <=? dt then
    {| this := this w; sockets := sockets w;
       calls := map (expire (clock w + dt)) (calls w);
       clock := clock w + dt; effects := effects w |}
  else w.

(** *** Socket and network events *)

(** The [onConnect] listeners of [waitForConnection] registered on [sock]:
    [clearTimeout(timeout); resolve()]. *)
Definition connectWaiter (sock : nat) (c : Call) : Call :=
  match c with
  | WaitingConnect sock' deadline k =>
      if bool_decide (sock' = sock) then Ready k else c
  | _ => c
  end.

(** Socket [sock] emits ['connect']: socket.io has set its [connected] and
    [recovered] properties; the handler of [setupEventHandlers] runs, then the
    listeners registered once. *)
Definition onSocketConnect (sock : nat) (recovered : bool) (w : World) : World :=
  match sockets w !! sock with
  | Some _ =>
      let w1 := setSocketObj sock
                  {| sock_connected := true; sock_recovered := recovered |} w in
      let w2 := updateStatus connected w1 in
      let w3 :=
        if negb (socketRecovered w2) then
          perform (map ReconnectedListenerCalled (reconnectedListeners (this w2))) w2
        else w2 in
      {| this := this w3; sockets := sockets w3;
         calls := map (connectWaiter sock) (calls w3);
         clock := clock w3; effects := effects w3 |}
  | None => w
  end.

(** Socket [sock] emits ['disconnect']. *)
Definition onSocketDisconnect (sock : nat) (w : World) : World :=
  match sockets w !! sock with
  | Some o =>
      updateStatus disconnected
        (setSocketObj sock
           {| sock_connected := false; sock_recovered := sock_recovered o |} w)
  | None => w
  end.

(** Socket [sock] emits ['connect_error'] or ['error']. *)
Definition onSocketError (sock : nat) (w : World) : World :=
  match sockets w !! sock with
  | Some _ => updateStatus error w
  | None => w
  end.

(** Socket [sock] receives an event: the [onAny] handler. *)
Definition onSocketAny (sock : nat) (event : string) (data : Value) (w : World)
  : World :=
  match sockets w !! sock with
  | Some _ =>
      match messageHandlers (this w) !! event with
      | Some handler => perform [MessageHandlerCalled handler data] w
      | None => w
      end
  | None => w
  end.

(** The network state listener, while subscribed. *)
Definition onNetworkState (isConnected : bool) (isInternetReachable : option bool)
    (w : World) : World :=
  if networkSubscription (this w) then
    if isConnected && negb (bool_decide (isInternetReachable = Some false)) then
      match socket (this w) with
      | Some sock =>
          if negb (socketConnected w) then
            perform [SocketConnect sock] (socketDisconnect sock w)
          else w
      | None => w
      end
    else w
  else w.

(** *** The event loop *)

Inductive Event :=
| Initialize (cfg : SyncSocketConfig) (e : Encryption)
| Connect
| Disconnect
| EnsureConnected
| OnStatusChange (listener : nat)
| OffStatusChange (listener : nat)
| OnReconnected (listener : nat)
| OffReconnected (listener : nat)
| OnMessage (event : string) (handler : nat)
| OffMessage (event : string)
| Send (event : string) (data : Value)
| UpdateToken (newToken : string)
| CallEmitWithAck (event : string) (data : Value)
| CallSessionRPC (sessionId method : string) (params : Value)
| CallMachineRPC (machineId method : string) (params : Value)
| RegistryChanges (e : Encryption)
| SocketConnects (sock : nat) (recovered : bool)
| SocketDisconnects (sock : nat)
| SocketConnectError (sock : nat)
| SocketError (sock : nat)
| SocketReceives (sock : nat) (event : string) (data : Value)
| NetworkChanges (isConnected : bool) (isInternetReachable : option bool)
| Resume (call : nat)
| CipherSettles (call : nat) (r : settle Value)
| AckSettles (call : nat) (r : settle Value)
| Elapse (dt : Z).

(** The encryption registry is shared with the sync engine, which adds and
    removes peers; the client sees its current content. *)
Definition registryChanges (e : Encryption) (w : World) : World :=
  match encryption (this w) with
  | Some _ => setThis (withEncryptionField (Some e)) w
  | None => w
  end.

Definition step (w : World) (e : Event) : World :=
  match e with
  | Initialize cfg enc => initialize cfg enc w
  | Connect => connect w
  | Disconnect => disconnect w
  | EnsureConnected => ensureConnected w
  | OnStatusChange listener => onStatusChange listener w
  | OffStatusChange listener => offStatusChange listener w
  | OnReconnected listener => onReconnected listener w
  | OffReconnected listener => offReconnected listener w
  | OnMessage event handler => onMessage event handler w
  | OffMessage event => offMessage event w
  | Send event data => snd (send event data w)
  | UpdateToken newToken => updateToken newToken w
  | CallEmitWithAck event data => invoke (emitWithAck event data) w
  | CallSessionRPC sessionId method params =>
      invoke (sessionRPC sessionId method params) w
  | CallMachineRPC machineId method params =>
      invoke (machineRPC machineId method params) w
  | RegistryChanges enc => registryChanges enc w
  | SocketConnects sock recovered => onSocketConnect sock recovered w
  | SocketDisconnects sock => onSocketDisconnect sock w
  | SocketConnectError sock => onSocketError sock w
  | SocketError sock => onSocketError sock w
  | SocketReceives sock event data => onSocketAny sock event data w
  | NetworkChanges isConnected reachable => onNetworkState isConnected reachable w
  | Resume call => resume call w
  | CipherSettles call r => cipherSettles call r w
  | AckSettles call r => ackSettles call r w
  | Elapse dt => elapse dt w
  end.

Definition run (w : World) (es : list Event) : World := foldl step w es.

(** *** Notions used to state the properties *)

(** The statuses that [listener] has been called with, oldest first. *)
Definition statusesSeen (listener : nat) (es : list Effect) : list Status :=
  omap (fun e =>
          match e with
          | StatusListenerCalled l s =>
              if bool_decide (l = listener) then Some s else None
          | _ => None
          end) es.

(** The status [listener] was last called with, if it was ever called. *)
Definition lastStatusSeen (listener : nat) (es : list Effect) : option Status :=
  last (statusesSeen listener es).

(** Every registered listener was last called with the current status. *)
Definition informed (w : World) : Prop :=
  forall listener, listener ∈ statusListeners (this w) ->
    lastStatusSeen listener (effects w) = Some (currentStatus (this w)).

(** An effect that calls no status listener. *)
Definition quiet (e : Effect) : bool :=
  match e with
  | StatusListenerCalled _ _ => false
  | _ => true
  end.

(** [w'] differs from [w] by changes that neither touch the status or its
    listeners nor call a status listener. *)
Definition quietly (w w' : World) : Prop :=
  statusListeners (this w') = statusListeners (this w) /\
  currentStatus (this w') = currentStatus (this w) /\
  exists es, effects w' = effects w ++ es /\ forallb quiet es = true.

(** A sample configuration. *)
Definition sampleConfig : SyncSocketConfig :=
  {| endpoint := "https://api.example"; token := "t1" |}.

(** A sample registry: sessions S1 and S2 and machine M1 have ciphers. *)
Definition sampleEncryption : Encryption :=
  {| sessionCiphers := {[ "S1"%string := 1%nat; "S2"%string := 2%nat ]};
     machineCiphers := {[ "M1"%string := 3%nat ]} |}.

(** The client initialised with the samples, its socket connected. *)
Definition online : World :=
  run fresh [Initialize sampleConfig sampleEncryption; SocketConnects 0 false].

(** A call whose body throws before its first [await]: its promise is
    rejected at once, and nothing else changes. *)
Definition rejectedAtOnce (w w' : World) (e : JsError) : Prop :=
  calls w' = calls w ++ [Done (Rejected e)] /\
  this w' = this w /\ sockets w' = sockets w /\
  effects w' = effects w /\ clock w' = clock w.

(** A call that an event of its own can resume: its continuation is queued,
    or it awaits a cipher or an acknowledgement. *)
Definition resumable (c : option Call) : Prop :=
  match c with
  | Some (Ready _) | Some (WaitingCipher _) | Some (WaitingAck _) => True
  | _ => False
  end.

(** [w'] has the calls and the clock of [w]. *)
Definition keepsCalls (w w' : World) : Prop :=
  calls w' = calls w /\ clock w' = clock w.

(** The error of the timer callback in [waitForConnection]. *)
Definition timeoutError : JsError := Error "Socket connection timeout".

(** No event of [es] is a ['connect'] of socket [sock]. *)
Definition noConnect (sock : nat) (es : list Event) : Prop :=
  forall r, SocketConnects sock r ∉ es.

(** Call [c] is in [waitForConnection] on [sock] with its timer due at
    [deadline], which has not come; or the deadline has come and the call is
    rejected with the timeout error. *)
Definition waitingOrTimedOut (w : World) (c sock : nat) (deadline : Z)
    (k : Async) : Prop :=
  (clock w < deadline /\ calls w !! c = Some (WaitingConnect sock deadline k)) \/
  (deadline <= clock w /\ calls w !! c = Some (Done (Rejected timeoutError))).

(** The three acknowledged-send operations on a socket that exists but is
    not connected: the call starts to wait, with the timer armed for 10000
    ms. *)
Definition startsWaiting (w : World) (e : Event) (sock : nat) : Prop :=
  exists k,
    calls (step w e) = calls w ++ [WaitingConnect sock (clock w + 10000) k] /\
    this (step w e) = this w /\ sockets (step w e) = sockets w /\
    effects (step w e) = effects w /\ clock (step w e) = clock w.

(** The property as the design document states it: when nothing happens for
    10000 ms after call [e], the call is rejected with the timeout error ... *)
Definition rejectsWithTimeout (w : World) (e : Event) : Prop :=
  calls (run w [e; Elapse 10000]) !! length (calls w)
    = Some (Done (Rejected timeoutError)).

(** ... for every world whose status is [disconnected]. *)
Definition disconnectedCallTimesOut (w : World) (e : Event) : Prop :=
  currentStatus (this w) = disconnected -> rejectsWithTimeout w e.

(** After [disconnect()] the status is [disconnected] and there is no socket
    object. *)
Definition offline : World :=
  run fresh [Initialize sampleConfig sampleEncryption; Disconnect].

(** After the transport closed, the status is [disconnected] and the socket
    object is still there, reconnecting. *)
Definition reconnecting : World :=
  run online [SocketDisconnects 0].

(** A successful acknowledgement carrying [payload]. *)
Definition ackOk (payload : Value) : Value :=
  VObj [("ok"%string, VBool true); ("result"%string, payload)].

(** One RPC call from invocation to result with nothing in between: the
    queued continuation runs, the cipher returns [encrypted], the peer
    acknowledges with [payload], the cipher returns [plain]. *)
Definition roundTrip (call : nat) (encrypted payload plain : Value)
  : list Event :=
  [Resume call; CipherSettles call (Fulfilled encrypted);
   AckSettles call (Fulfilled (ackOk payload));
   CipherSettles call (Fulfilled plain)].

(** What a peer RPC body does once it has its cipher. *)
Definition rpcBody (cipher : Cipher) (peerId method : string) (params : Value)
  : Async :=
  AwaitConnection CONNECTION_TIMEOUT_MS
    (withSocket (fun sock =>
       AwaitCipher Encrypt cipher params (fun encrypted =>
         AwaitAck sock "rpc-call" (rpcCall (methodKey peerId method) encrypted)
           (rpcResult cipher)))).

(** An identifier without a colon. *)
Definition colonFree (s : string) : Prop := includes s ":" = false.

(** The property as the design document states it: calls to different peers have
    different method keys. *)
Definition distinctPeersDistinctKeys (id1 m1 id2 m2 : string) : Prop :=
  id1 <> id2 -> methodKey id1 m1 <> methodKey id2 m2.

(** The method key inside an emitted payload. *)
Definition wireMethod (data : Value) : option string :=
  match prop data "method" with
  | Fulfilled (VStr key) => Some key
  | _ => None
  end.

(** If effect [e] was caused by call number [call], then it is a cipher
    operation with cipher [c] or an 'rpc-call' emitted under [key]. *)
Definition confined (call : nat) (c : Cipher) (key : string) (e : Effect) : Prop :=
  match e with
  | CipherCalled call' _ c' _ => call' = call -> c' = c
  | SocketEmitWithAck call' _ event data =>
      call' = call -> event = "rpc-call"%string /\ wireMethod data = Some key
  | _ => True
  end.

(** A method body that, however it is answered, only ever uses cipher [c]
    and only ever emits 'rpc-call' under [key]. *)
Inductive bound (c : Cipher) (key : string) : Async -> Prop :=
| bound_return v : bound c key (Return v)
| bound_throw e : bound c key (Throw e)
| bound_read k : (forall a, bound c key (k a)) -> bound c key (Read k)
| bound_wait t k : bound c key k -> bound c key (AwaitConnection t k)
| bound_cipher d v k :
    (forall v', bound c key (k v')) -> bound c key (AwaitCipher d c v k)
| bound_ack sock data k :
    wireMethod data = Some key -> (forall v', bound c key (k v')) ->
    bound c key (AwaitAck sock "rpc-call" data k).

(** What is left of a call's body is bound. *)
Definition callBound (c : Cipher) (key : string) (s : Call) : Prop :=
  match s with
  | Ready k | WaitingConnect _ _ k => bound c key k
  | WaitingCipher k | WaitingAck k => forall v, bound c key (k v)
  | Done _ => True
  end.

(** Since the call was made in [w0], everything call number [call] caused is
    confined, and what is left of its body is bound. *)
Definition isolated (w0 w : World) (call : nat) (c : Cipher) (key : string)
  : Prop :=
  (exists new, effects w = effects w0 ++ new /\ Forall (confined call c key) new) /\
  (exists s, calls w !! call = Some s /\ callBound c key s).

(** An effect that no asynchronous call causes. *)
Definition clientEffect (e : Effect) : bool :=
  match e with
  | CipherCalled _ _ _ _ | SocketEmitWithAck _ _ _ _ => false
  | _ => true
  end.

(** [w'] has the effects of [w] and then some client effects. *)
Definition addsClientEffects (w w' : World) : Prop :=
  exists new, effects w' = effects w ++ new /\ forallb clientEffect new = true.

(** [w'] differs from [w] only in the client's fields and socket objects and
    in client effects. *)
Definition syncChange (w w' : World) : Prop :=
  keepsCalls w w' /\ addsClientEffects w w'.

(** What one event adds on behalf of call [call], and what it leaves of the
    call. *)
Definition advances (w w' : World) (call : nat) (c : Cipher) (key : string)
  : Prop :=
  (exists new, effects w' = effects w ++ new /\ Forall (confined call c key) new) /\
  (exists s, calls w' !! call = Some s /\ callBound c key s).

(** The effects of an RPC round trip for peer [peerId] with cipher [c] on
    socket [sock]: encrypt the parameters with [c], emit 'rpc-call' under the
    peer's method key with the ciphertext, decrypt the acknowledged payload
    with [c]. *)
Definition roundTripEffects (call sock : nat) (c : Cipher)
    (peerId method : string) (params encrypted payload : Value) : list Effect :=
  [CipherCalled call Encrypt c params;
   SocketEmitWithAck call sock "rpc-call" (rpcCall (methodKey peerId method) encrypted);
   CipherCalled call Decrypt c payload].

(** What holds of an RPC call [e] made in [w] for a peer whose cipher is
    [c]: its straight-line round trip, and its confinement under any
    interleaving. *)
Definition usesCipher (w : World) (e : Event) (c : Cipher)
    (peerId method : string) (params : Value) : Prop :=
  (forall sock encrypted payload plain,
      socket (this w) = Some sock -> socketConnected w = true ->
      effects (run (step w e) (roundTrip (length (calls w)) encrypted payload plain))
        = effects w ++ roundTripEffects (length (calls w)) sock c peerId method
                                        params encrypted payload /\
      calls (run (step w e) (roundTrip (length (calls w)) encrypted payload plain))
        = calls w ++ [Done (Fulfilled plain)]) /\
  (forall es, exists new,
      effects (run (step w e) es) = effects w ++ new /\
      Forall (confined (length (calls w)) c (methodKey peerId method)) new).

(** *** Notions used to state further properties of the client *)

(** The sockets created so far, oldest first. *)
Definition created (es : list Effect) : list nat :=
  omap (fun e =>
          match e with
          | IoCreated sock _ _ => Some sock
          | _ => None
          end) es.

(** What an effect adds to the number of registered network-state
    listeners. *)
Definition listenerDelta (e : Effect) : Z :=
  match e with
  | NetworkListenerAdded => 1
  | NetworkListenerRemoved => -1
  | _ => 0
  end.

(** The number of network-state listeners registered and not removed. *)
Definition listening (es : list Effect) : Z :=
  foldr (fun e n => listenerDelta e + n) 0 es.

(** An effect that neither creates a socket nor adds or removes a
    network-state listener. *)
Definition plain (e : Effect) : bool :=
  match e with
  | IoCreated _ _ _ | NetworkListenerAdded | NetworkListenerRemoved => false
  | _ => true
  end.

(** [w'] has the socket, the network subscription, the listener sets and as
    many socket objects as [w], and the effects of [w] and then some plain
    ones. *)
Definition steady (w w' : World) : Prop :=
  socket (this w') = socket (this w) /\
  networkSubscription (this w') = networkSubscription (this w) /\
  statusListeners (this w') = statusListeners (this w) /\
  reconnectedListeners (this w') = reconnectedListeners (this w) /\
  length (sockets w') = length (sockets w) /\
  exists new, effects w' = effects w ++ new /\ forallb plain new = true.

(** What every world the client can reach satisfies.  The sockets created
    are numbered in order; the socket in use is the one created last; every
    other socket has been disconnected by the client; a network-state
    listener is registered exactly while there is a socket in use; and the
    listener sets hold no listener twice. *)
Record tidy (w : World) : Prop := {
  tidy_created : created (effects w) = seq 0 (length (sockets w));
  tidy_current : forall sock,
    socket (this w) = Some sock -> S sock = length (sockets w);
  tidy_retired : forall sock,
    (sock < length (sockets w))%nat -> socket (this w) <> Some sock ->
    SocketDisconnect sock ∈ effects w;
  tidy_subscribed :
    networkSubscription (this w) = true <-> is_Some (socket (this w));
  tidy_listening :
    listening (effects w) = if networkSubscription (this w) then 1 else 0;
  tidy_status : NoDup (statusListeners (this w));
  tidy_reconnected : NoDup (reconnectedListeners (this w))
}.

(** The calls of the status listeners that [updateStatus(status)] makes in
    [w]. *)
Definition statusCalls (status : Status) (w : World) : list Effect :=
  if bool_decide (currentStatus (this w) ≠ status)
  then map (fun listener => StatusListenerCalled listener status)
           (statusListeners (this w))
  else [].

(** The effects that reach the network, in order. *)
Definition wire (es : list Effect) : list Effect := List.filter networkIO es.

(** A waiting call on a socket that is in use but not connected, as the sync
    engine makes it while the transport is down. *)
Definition waitingCall : World :=
  run reconnecting [CallEmitWithAck "ping" VNull].

(** A call that waits for the connection, gets it, and is acknowledged: the
    call is made, [dt] ms later socket [sock] connects, [dt'] ms later the
    continuation of call [call] runs, and the acknowledgement settles with
    [r]. *)
Definition connectThenAck (event : string) (data : Value) (dt : Z) (sock : nat)
    (recovered : bool) (dt' : Z) (call : nat) (r : settle Value) : list Event :=
  [CallEmitWithAck event data; Elapse dt; SocketConnects sock recovered;
   Elapse dt'; Resume call; AckSettles call r].

(** A call waits for the connection while the token is rotated: the call is
    made, the token changes, the new socket [new] connects, and the rest of
    the 10000 ms passes. *)
Definition rotateWhileWaiting (event : string) (data : Value) (newToken : string)
    (new : nat) (recovered : bool) : list Event :=
  [CallEmitWithAck event data; UpdateToken newToken; SocketConnects new recovered;
   Elapse 10000].

(** The state of call [call] and the effects since [w], in [w']. *)
Definition outcomeSince (w w' : World) (call : nat) (c : Call)
    (new : list Effect) : Prop :=
  calls w' !! call = Some c /\ effects w' = effects w ++ new.

(** How an RPC call [e] made in [w] on the connected socket [sock] fails,
    when [c] is the peer's cipher and [key] its method key.  A failure of
    [encryptRaw] rejects the call before anything is emitted; a rejected
    acknowledgement rejects the call; an acknowledgement whose [ok] is falsy
    rejects it with 'RPC call failed', and one that is [null] or
    [undefined] with a type error, in both cases without decrypting; a
    failure of [decryptRaw] rejects the call. *)
Definition rpcFailures (w : World) (e : Event) (c : Cipher) (key : string)
    (params : Value) (sock : nat) : Prop :=
  let call := length (calls w) in
  let encrypt := CipherCalled call Encrypt c params in
  let emit encrypted :=
    SocketEmitWithAck call sock "rpc-call" (rpcCall key encrypted) in
  (forall err,
     outcomeSince w
       (run (step w e) [Resume call; CipherSettles call (Rejected err)])
       call (Done (Rejected err)) [encrypt]) /\
  (forall encrypted err,
     outcomeSince w
       (run (step w e) [Resume call; CipherSettles call (Fulfilled encrypted);
                        AckSettles call (Rejected err)])
       call (Done (Rejected err)) [encrypt; emit encrypted]) /\
  (forall encrypted ack flag,
     prop ack "ok" = Fulfilled flag -> truthyValue flag = false ->
     outcomeSince w
       (run (step w e) [Resume call; CipherSettles call (Fulfilled encrypted);
                        AckSettles call (Fulfilled ack)])
       call (Done (Rejected (Error "RPC call failed"))) [encrypt; emit encrypted]) /\
  (forall encrypted ack,
     ack = VNull \/ ack = VUndefined ->
     outcomeSince w
       (run (step w e) [Resume call; CipherSettles call (Fulfilled encrypted);
                        AckSettles call (Fulfilled ack)])
       call (Done (Rejected TypeError)) [encrypt; emit encrypted]) /\
  (forall encrypted payload err,
     outcomeSince w
       (run (step w e) [Resume call; CipherSettles call (Fulfilled encrypted);
                        AckSettles call (Fulfilled (ackOk payload));
                        CipherSettles call (Rejected err)])
       call (Done (Rejected err))
       [encrypt; emit encrypted; CipherCalled call Decrypt c payload]).

(** The token is rotated while an RPC call awaits [encryptRaw]: the
    continuation of call [call] runs, the token changes, and then the
    ciphertext arrives. *)
Definition rotateWhileEncrypting (call : nat) (newToken : string)
    (encrypted : Value) : list Event :=
  [Resume call; UpdateToken newToken; CipherSettles call (Fulfilled encrypted)].

(** What then happens to the RPC call [e] made in [w] on socket [sock]: the
    client closes [sock] and opens a new socket with the new token, and
    after that the call is emitted on [sock], the socket it took from
    [this.socket] before it awaited [encryptRaw], while the socket in use
    is the new one. *)
Definition emitsOnDroppedSocket (w : World) (e : Event) (key : string)
    (sock : nat) (cfg : SyncSocketConfig) (newToken : string)
    (encrypted : Value) : Prop :=
  wire (effects (run (step w e)
                     (rotateWhileEncrypting (length (calls w)) newToken encrypted)))
  = wire (effects w) ++
    [SocketDisconnect sock;
     IoCreated (length (sockets w)) (endpoint cfg) newToken;
     SocketEmitWithAck (length (calls w)) sock "rpc-call" (rpcCall key encrypted)] /\
  socket (this (run (step w e)
                    (rotateWhileEncrypting (length (calls w)) newToken encrypted)))
  = Some (length (sockets w)).

(** What the network-state listener puts on the wire in [w]: when the
    network is back and the socket in use is down, that socket is
    disconnected and connected again. *)
Definition forcedReconnect (isConnected : bool) (isInternetReachable : option bool)
    (w : World) : list Effect :=
  match socket (this w) with
  | Some sock =>
      if isConnected && negb (bool_decide (isInternetReachable = Some false))
         && negb (socketConnected w)
      then [SocketDisconnect sock; SocketConnect sock]
      else []
  | None => []
  end.

(** Listener [l] is not registered, and [seen] is what it has been called
    with so far. *)
Definition unheard (l : nat) (seen : list Status) (w : World) : Prop :=
  (l ∉ statusListeners (this w)) /\ statusesSeen l (effects w) = seen.


(** *** Calls for a peer without an encryption context *)

(** No encryption context has been established for the session [peerId]:
    there is no registry yet, or the registry holds no cipher for it. *)
Definition noSessionContext (w : World) (peerId : string) : Prop :=
  forall e, encryption (this w) = Some e -> getSessionEncryption e peerId = None.

(** The same for the machine [peerId]. *)
Definition noMachineContext (w : World) (peerId : string) : Prop :=
  forall e, encryption (this w) = Some e -> getMachineEncryption e peerId = None.

(** The property as the design document states it: a call for a peer
    without an encryption context is rejected at once with the error that
    names the missing context. *)
Definition rejectsContextMissing (w : World) (peerId method : string)
    (params : Value) : Prop :=
  (noSessionContext w peerId ->
     rejectedAtOnce w (step w (CallSessionRPC peerId method params))
       (Error ("Session encryption not found for " +:+ peerId))) /\
  (noMachineContext w peerId ->
     rejectedAtOnce w (step w (CallMachineRPC peerId method params))
       (Error ("Machine encryption not found for " +:+ peerId))).
End ApiSocket.

(** ** The server settings screen ([app/(app)/server.tsx]) *)

Module ServerScreen.
Import Resolver.

(** The keys of the messages that [validateServer] shows. *)
Inductive Message :=
| serverReturnedError
| notValidHappyServer
| failedToConnectToServer.

(** The two state hooks that [validateServer] writes. *)
Record Screen := { error : option Message; isValidating : bool }.

(** [await fetch(url, { method, headers })], without an abort signal: the
    request settles when the network does, and never ([None]) when the
    network never answers. *)
Definition plainFetch (x : Exchange) : option (settle Response) :=
  match latency x with
  | Some _ =>
      Some match outcome x with
           | Responds r => Fulfilled r
           | NetworkFails e => Rejected e
           end
  | None => None
  end.

(** The [try] block of [validateServer] with its [catch]: the value
    returned and the argument of the last [setError], or [None] while one of
    the two awaits, for the head or for the body, is pending. *)
Definition validated (n : Traffic) : option (settle (bool * option Message)) :=
  catching
    (await (plainFetch (exchange n)) (fun response =>
     if negb (ok response) then Some (Fulfilled (false, Some serverReturnedError)) else
     await (readBody n response) (fun body =>
     if negb (includes body SERVER_MARKER)
     then Some (Fulfilled (false, Some notValidHappyServer))
     else Some (Fulfilled (true, None)))))
    (Some (Fulfilled (false, Some failedToConnectToServer))).

(** [validateServer(url)]: what its promise settles with, [None] while it is
    pending, and the state it leaves.  The block starts with
    [setIsValidating(true); setError(null)], and [finally] ends it with
    [setIsValidating(false)]. *)
Definition validateServer (n : Traffic) : option (settle bool) * Screen :=
  match validated n with
  | None => (None, {| error := None; isValidating := true |})
  | Some (Fulfilled (valid, message)) =>
      (Some (Fulfilled valid), {| error := message; isValidating := false |})
  | Some (Rejected e) =>
      (Some (Rejected e), {| error := None; isValidating := false |})
  end.

(** A server that answers 200 with the marker, but only after 5 s. *)
Definition slowServer : Traffic :=
  {| exchange := welcomes 5000; bodyArrives := true |}.

End ServerScreen.

(** ** The configuration of the command-line agent ([loadConfig]) *)

Module CliConfig.

(** A parsed JSON document.  The fields of an object are its own
    properties, each key once. *)
#[warnings="-register-all"]
Inductive Json :=
| JNull
| JBool (b : bool)
| JNum (literal : string)
| JStr (s : string)
| JArr (items : list Json)
| JObj (fields : list (string * Json)).

(** The own property [name] among [fields]; [None] is [undefined]. *)
Fixpoint member (name : string) (fields : list (string * Json)) : option Json :=
  match fields with
  | [] => None
  | (key, v) :: rest => if String.eqb key name then Some v else member name rest
  end.

(** [raw.serverUrl]: reading a property of [null] throws; values other than
    objects have no such property. *)
Definition serverUrlOf (raw : Json) : settle (option Json) :=
  match raw with
  | JNull => Rejected TypeError
  | JObj fields => Fulfilled (member "serverUrl" fields)
  | _ => Fulfilled None
  end.

(** [s.replace(/\/+$/, '')]: [s] without its trailing slashes. *)
Fixpoint stripTrailingSlashes (s : string) : string :=
  match s with
  | EmptyString => EmptyString
  | String a rest =>
      match stripTrailingSlashes rest with
      | EmptyString =>
          if Ascii.eqb a "/" then EmptyString else String a EmptyString
      | kept => String a kept
      end
  end.

Definition DEFAULT_SERVER_URL : string := "https://api.cluster-fluster.com".

(** What [loadConfig] reads: the two environment variables, the home
    directory, and for a path the file there: [None] when [existsSync] says
    no, otherwise the outcome of [JSON.parse(readFileSync(path, 'utf8'))]. *)
Record Env := {
  HAPPY_HOME_DIR : option string;
  HAPPY_SERVER_URL : option string;
  homedir : string;
  files : string -> option (settle Json)
}.

Record Config := { serverUrl : string; homeDir : string; credentialPath : string }.

(** [(envUrl ?? settingsServerUrl ?? DEFAULT).replace(...)].  [??] passes
    over [undefined] and [null] only; a value that is not a string has no
    [replace] method, and calling it throws. *)
Definition chooseServerUrl (envUrl : option string) (settingsServerUrl : option Json)
  : settle string :=
  match envUrl with
  | Some s => Fulfilled (stripTrailingSlashes s)
  | None =>
      match settingsServerUrl with
      | None | Some JNull => Fulfilled (stripTrailingSlashes DEFAULT_SERVER_URL)
      | Some (JStr s) => Fulfilled (stripTrailingSlashes s)
      | Some _ => Rejected TypeError
      end
  end.

Section LoadConfig.

(** [join] of [node:path]. *)
Variable join : string -> string -> string.

Definition homeDirOf (env : Env) : string :=
  default (join (homedir env) ".happy") (HAPPY_HOME_DIR env).

(** The variable [settingsServerUrl] after the [if (existsSync(...))]
    block, whose [catch] ignores every error. *)
Definition settingsServerUrlOf (env : Env) : option Json :=
  match files env (join (homeDirOf env) "settings.json") with
  | Some parsed =>
      match raw ← parsed; serverUrlOf raw with
      | Fulfilled v => v
      | Rejected _ => None
      end
  | None => None
  end.

(** [loadConfig()] *)
Definition loadConfig (env : Env) : settle Config :=
  let homeDir := homeDirOf env in
  serverUrl ← chooseServerUrl (HAPPY_SERVER_URL env) (settingsServerUrlOf env);
  Fulfilled {| serverUrl := serverUrl; homeDir := homeDir;
               credentialPath := join homeDir "agent.key" |}.

(** The configuration that [loadConfig] returns when the server URL is
    [url]. *)
Definition configWith (env : Env) (url : string) : Config :=
  {| serverUrl := url; homeDir := homeDirOf env;
     credentialPath := join (homeDirOf env) "agent.key" |}.

(** The settings file as [loadConfig] finds it. *)
Definition settingsFile (env : Env) : option (settle Json) :=
  files env (join (homeDirOf env) "settings.json").

(** The settings file gives no server URL: it is missing, cannot be read or
    parsed, is not an object, or has no [serverUrl] or [null] there. *)
Definition noSettingsUrl (env : Env) : Prop :=
  settingsFile env = None \/
  (exists e, settingsFile env = Some (Rejected e)) \/
  (exists raw, settingsFile env = Some (Fulfilled raw) /\
               forall fields, raw <> JObj fields) \/
  (exists fields, settingsFile env = Some (Fulfilled (JObj fields)) /\
                  (member "serverUrl" fields = None \/
                   member "serverUrl" fields = Some JNull)).

(** The settings file gives [v] as server URL. *)
Definition settingsUrl (env : Env) (v : Json) : Prop :=
  exists fields, settingsFile env = Some (Fulfilled (JObj fields)) /\
                 member "serverUrl" fields = Some v.

End LoadConfig.

(** The string ends with a slash. *)
Fixpoint endsWithSlash (s : string) : bool :=
  match s with
  | EmptyString => false
  | String a EmptyString => Ascii.eqb a "/"
  | String _ rest => endsWithSlash rest
  end.

(** [n] slashes. *)
Fixpoint slashes (n : nat) : string :=
  match n with
  | O => EmptyString
  | S m => String "/" (slashes m)
  end.

(** A simple [join], for the examples. *)
Definition joinSlash (a b : string) : string := a +:+ "/" +:+ b.

(** An environment with a settings file that names a server. *)
Definition sampleEnv : Env :=
  {| HAPPY_HOME_DIR := Some "/h"%string; HAPPY_SERVER_URL := None;
     homedir := "/home/u";
     files := fun path =>
       if String.eqb path "/h/settings.json"
       then Some (Fulfilled (JObj [("serverUrl"%string, JStr "http://10.0.0.2:3005//")]))
       else None |}.

End CliConfig.

(** ** Shell commands of the git screen ([shellEscape]) *)

Module GitScreen.

(** [path.replace(/'/g, "'\\''")]: every single quote becomes the four
    characters quote, backslash, quote, quote. *)
Fixpoint shellEscape (path : string) : string :=
  match path with
  | EmptyString => EmptyString
  | String c rest =>
      if Ascii.eqb c "'" then "'\''" +:+ shellEscape rest
      else String c (shellEscape rest)
  end.

(** The word that the commands of the screen build around an escaped path:
    [`'${escaped}'`]. *)
Definition quotedWord (path : string) : string :=
  "'" +:+ shellEscape path +:+ "'".

(** The path holds a NUL character. *)
Fixpoint hasNul (path : string) : bool :=
  match path with
  | EmptyString => false
  | String c rest => Ascii.eqb c "000" || hasNul rest
  end.

(** A shell cannot hold a NUL character in a word: [sh] and [bash] drop it
    from what they read. *)
Fixpoint dropNul (input : string) : string :=
  match input with
  | EmptyString => EmptyString
  | String c rest =>
      if Ascii.eqb c "000" then dropNul rest else String c (dropNul rest)
  end.

(** How a POSIX shell reads one word made of quoted parts, once the NUL
    characters are gone.  Inside single quotes ([quoted]) every character
    stands for itself up to the closing quote; outside, a quote opens a
    quoted part and a backslash makes the next character stand for itself.
    The reader gives up ([None]) on an unterminated quote, on a trailing
    backslash or a backslash before a newline, and on any other character
    outside quotes. *)
Fixpoint readWord (quoted : bool) (word : string) : option string :=
  match word with
  | EmptyString => if quoted then None else Some EmptyString
  | String c rest =>
      if quoted then
        if Ascii.eqb c "'" then readWord false rest
        else String c <$> readWord true rest
      else if Ascii.eqb c "'" then readWord true rest
      else if Ascii.eqb c "\" then
        match rest with
        | EmptyString => None
        | String d rest' =>
            if Ascii.eqb d "010" then None else String d <$> readWord false rest'
        end
      else None
  end.

(** How the shell that runs the commands reads one word. *)
Definition shellRead (quoted : bool) (word : string) : option string :=
  readWord quoted (dropNul word).

End GitScreen.

(** ** Facts about the JavaScript preliminaries *)

Module JsFacts.

Lemma truthy_Some_iff (s : string) : truthy (Some s) = true <-> s <> EmptyString.
Proof. destruct s; simpl; split; congruence. Qed.

Lemma append_cons (a : Ascii.ascii) (s t : string) :
  String a s +:+ t = String a (s +:+ t).
Proof. reflexivity. Qed.

Lemma append_nil_l (t : string) : EmptyString +:+ t = t.
Proof. reflexivity. Qed.

Lemma prefix_app (p s : string) :
  String.prefix p s = true <-> exists t, s = p +:+ t.
Proof.
  revert s. induction p as [|a p IH]; intros s.
  - split; [intros _; exists s; reflexivity | intros _; destruct s; reflexivity].
  - destruct s as [|b s]; simpl.
    + split; [discriminate | intros [t Ht]; discriminate].
    + destruct (Ascii.ascii_dec a b) as [->|Hne].
      * rewrite IH. split; intros [t Ht]; exists t;
          rewrite append_cons in *; congruence.
      * split; [discriminate |].
        intros [t Ht]. rewrite append_cons in Ht. congruence.
Qed.

(** [includes] decides the substring relation. *)
Lemma includes_spec (s needle : string) :
  includes s needle = true <-> exists pre post, s = pre +:+ needle +:+ post.
Proof.
  induction s as [|a s IH]; cbn [includes].
  - rewrite orb_false_r, prefix_app. split.
    + intros [t Ht]. exists EmptyString, t. exact Ht.
    + intros [pre [post H]]. destruct pre; [exists post; exact H | discriminate].
  - rewrite orb_true_iff, prefix_app, IH. split.
    + intros [[t Ht] | [pre [post H]]].
      * exists EmptyString, t. exact Ht.
      * exists (String a pre), post. rewrite append_cons. congruence.
    + intros [pre [post H]]. destruct pre as [|b pre].
      * left. exists post. exact H.
      * right. exists pre, post. rewrite append_cons in H. congruence.
Qed.

End JsFacts.

(** ** Facts about the endpoint resolver *)

Module ResolverFacts.
Import Resolver JsFacts.

(** *** Probes *)

Lemma fetch_in_time (x : Exchange) (timeoutMs : Z) (r : Response) :
  fetch x timeoutMs = Fulfilled r <->
  exists t, latency x = Some t /\ t < timeoutMs /\ outcome x = Responds r.
Proof.
  unfold fetch. destruct (latency x) as [t|].
  - destruct (Z.ltb_spec t timeoutMs) as [Hlt|Hge].
    + destruct (outcome x) as [r'|e].
      * split.
        -- intros [= ->]. exists t. auto.
        -- intros (t' & [= <-] & _ & [= ->]). reflexivity.
      * split; [discriminate | intros (t' & _ & _ & [=])].
    + split; [discriminate | intros (t' & [= <-] & Hlt & _); lia].
  - split; [discriminate | intros (t' & [=] & _)].
Qed.

Lemma probeUrl_total (url : string) (timeoutMs : Z) (x : Exchange) :
  probeUrl url timeoutMs x = Fulfilled (Some url) \/
  probeUrl url timeoutMs x = Fulfilled None.
Proof.
  unfold probeUrl. destruct (fetch x timeoutMs) as [r|e]; cbn; [|auto].
  destruct (ok r); cbn; [|auto].
  destruct (text r) as [body|e]; cbn; [|auto].
  destruct (includes body SERVER_MARKER); cbn; auto.
Qed.

Lemma probeUrl_success (url : string) (timeoutMs : Z) (x : Exchange) :
  probeUrl url timeoutMs x = Fulfilled (Some url) <-> healthy x timeoutMs.
Proof.
  unfold healthy. split.
  - unfold probeUrl. destruct (fetch x timeoutMs) as [r|e] eqn:Hf; cbn; [|discriminate].
    apply fetch_in_time in Hf as (t & Ht & Hlt & Hout).
    destruct (ok r) eqn:Hok; cbn; [|discriminate].
    destruct (text r) as [body|e] eqn:Htext; cbn; [|discriminate].
    destruct (includes body SERVER_MARKER) eqn:Hinc; cbn; [|discriminate].
    intros _. exists t, r, body. repeat split; try assumption.
    apply includes_spec. exact Hinc.
  - intros (t & r & body & Ht & Hlt & Hout & Hok & Htext & Hsub).
    assert (Hf : fetch x timeoutMs = Fulfilled r)
      by (apply fetch_in_time; exists t; auto).
    apply includes_spec in Hsub.
    unfold probeUrl. rewrite Hf. cbn. rewrite Hok. cbn.
    rewrite Htext. cbn. rewrite Hsub. reflexivity.
Qed.

Lemma probeResult_cases (url : string) (x : Exchange) :
  probeResult url x = Some url \/ probeResult url x = None.
Proof.
  unfold probeResult.
  destruct (probeUrl_total url PROBE_TIMEOUT_MS x) as [-> | ->]; auto.
Qed.

Lemma probeResult_success (url : string) (x : Exchange) :
  probeResult url x = Some url <-> healthy x PROBE_TIMEOUT_MS.
Proof.
  rewrite <- (probeUrl_success url). unfold probeResult.
  destruct (probeUrl_total url PROBE_TIMEOUT_MS x) as [-> | ->];
    split; congruence.
Qed.

(** On an exchange whose body read settles, a probe with the default
    timeout fulfils with its URL exactly when the response head arrives
    within 3000 ms with an OK status and the body is read and contains the
    marker "Welcome to Happy Server!".  In every other case it fulfils with
    [null]: a non-OK status, an abort by the 3000 ms timer (a slower or
    missing response), a network error, a body that cannot be read, or a
    body without the marker.  It never rejects. *)
Lemma probeUrl_settled (url : string) (x : Exchange) :
  (probeUrl url 3000 x = Fulfilled (Some url) <-> healthy x 3000) /\
  (probeUrl url 3000 x = Fulfilled None <-> ~ healthy x 3000) /\
  (forall e, probeUrl url 3000 x <> Rejected e) /\
  (forall t r, latency x = Some t -> t < 3000 -> outcome x = Responds r ->
     ok r = false -> probeUrl url 3000 x = Fulfilled None) /\
  (forall t, latency x = Some t -> 3000 <= t -> probeUrl url 3000 x = Fulfilled None) /\
  (latency x = None -> probeUrl url 3000 x = Fulfilled None) /\
  (forall e, outcome x = NetworkFails e -> probeUrl url 3000 x = Fulfilled None) /\
  (forall t r body, latency x = Some t -> t < 3000 -> outcome x = Responds r ->
     text r = Fulfilled body -> includes body SERVER_MARKER = false ->
     probeUrl url 3000 x = Fulfilled None).
Proof.
  pose proof (probeUrl_success url 3000 x) as Hs.
  pose proof (probeUrl_total url 3000 x) as Ht.
  assert (Hnone : ~ healthy x 3000 -> probeUrl url 3000 x = Fulfilled None).
  { intros Hn. destruct Ht as [H|H]; [|exact H]. apply Hs in H. contradiction. }
  split; [exact Hs|]. split.
  { split; [|exact Hnone]. intros H Hh. apply Hs in Hh. congruence. }
  split. { intros e He. destruct Ht as [H|H]; congruence. }
  repeat split.
  - intros t r Hl Hlt Ho Hok. apply Hnone.
    intros (t' & r' & body & Hl' & _ & Ho' & Hok' & _). congruence.
  - intros t Hl Hge. apply Hnone.
    intros (t' & r' & body & Hl' & Hlt & _). assert (t' = t) by congruence. lia.
  - intros Hl. apply Hnone. intros (t' & r' & body & Hl' & _). congruence.
  - intros e Ho. apply Hnone.
    intros (t' & r' & body & _ & _ & Ho' & _). congruence.
  - intros t r body Hl Hlt Ho Htx Hinc. apply Hnone.
    intros (t' & r' & body' & _ & _ & Ho' & _ & Htx' & Hsub).
    apply includes_spec in Hsub.
    assert (r' = r) by congruence. subst r'.
    assert (body' = body) by congruence. subst body'. congruence.
Qed.

(** *** One resolution pass *)

Lemma raceProbes_undecided (cs : list string) :
  cs <> [] -> undecided cs (raceProbes cs) [].
Proof.
  intros Hne. destruct cs as [|c cs]; [congruence|].
  unfold undecided, raceProbes.
  cbn [candidates settled resolved pending inflight].
  split; [reflexivity|]. split; [reflexivity|]. split; [reflexivity|].
  split; [cbn [length]; lia|].
  intros i Hi _. apply elem_of_seq. lia.
Qed.

Lemma buildCandidates_nonempty (primary : string) (lan : option string) :
  buildCandidates primary lan <> [].
Proof.
  unfold buildCandidates. destruct lan as [l|]; [|discriminate].
  destruct (truthy_string l && negb (bool_decide (l = primary))); discriminate.
Qed.

Lemma truthy_string_iff (s : string) : truthy_string s = true <-> s <> EmptyString.
Proof. destruct s; simpl; split; congruence. Qed.

Lemma buildCandidates_truthy (primary : string) (lan : option string) (u : string) :
  primary <> EmptyString -> u ∈ buildCandidates primary lan -> truthy_string u = true.
Proof.
  intros Hp%truthy_string_iff. unfold buildCandidates.
  destruct lan as [l|].
  - destruct (truthy_string l) eqn:Hl; cbn [andb].
    + destruct (negb (bool_decide (l = primary)));
        rewrite ?elem_of_cons, ?elem_of_nil; intros H; intuition congruence.
    + rewrite elem_of_cons, elem_of_nil. intuition congruence.
  - rewrite elem_of_cons, elem_of_nil. intuition congruence.
Qed.

(** What one more settling probe does to an undecided race. *)
Lemma probeSettles_undecided (cs : list string) (r : Race) (failed : list nat)
    (i : nat) (x : Exchange) (u : string) :
  undecided cs r failed -> cs !! i = Some u -> i ∉ failed ->
  (healthy x PROBE_TIMEOUT_MS -> truthy_string u = true ->
     resolved (probeSettles i x r) = Some (Some u)) /\
  (~ healthy x PROBE_TIMEOUT_MS ->
     (resolved (probeSettles i x r) = Some None /\
      (length cs <= length failed + 1)%nat) \/
     (resolved (probeSettles i x r) = None /\
      undecided cs (probeSettles i x r) (failed ++ [i]))).
Proof.
  intros (Hc & Hs & Hr & Hp & Hin) Hi Hnf.
  assert (Hlt : (i < length cs)%nat) by (eapply lookup_lt_Some; exact Hi).
  assert (Hfl : i ∈ inflight r) by (apply Hin; assumption).
  unfold probeSettles. rewrite Hc, Hi.
  rewrite bool_decide_eq_true_2 by exact Hfl.
  pose proof (probeResult_success u x) as Hsucc.
  assert (Hfail : ~ healthy x PROBE_TIMEOUT_MS -> probeResult u x = None).
  { intros Hn. destruct (probeResult_cases u x) as [H|H]; [|exact H].
    apply Hsucc in H. contradiction. }
  destruct cs as [|c0 [|c1 cs']]; [discriminate| |].
  - (* a single candidate: the probe's own promise is the result *)
    cbn [resolved]. split.
    + intros Hh _. apply Hsucc in Hh. rewrite Hh. reflexivity.
    + intros Hn. left. rewrite (Hfail Hn). split; [reflexivity|]. cbn [length]. lia.
  - (* several candidates: the [then] callback *)
    unfold onProbeResult. cbn [settled pending resolved candidates inflight].
    rewrite Hs. split.
    + intros Hh Hu. apply Hsucc in Hh. rewrite Hh. cbn [truthy]. rewrite Hu.
      reflexivity.
    + intros Hn. rewrite (Hfail Hn). cbn [truthy].
      destruct (Z.eqb_spec (pending r - 1) 0) as [Hz|Hz]; cbn [resolved].
      * left. split; [reflexivity|]. lia.
      * right. split; [exact Hr|].
        unfold undecided. cbn [settled pending resolved candidates inflight].
        rewrite length_app. cbn [length] in *.
        split; [reflexivity|]. split; [reflexivity|]. split; [assumption|].
        split; [lia|].
        intros j Hj Hjf. rewrite not_elem_of_app, list_elem_of_singleton in Hjf.
        apply list_elem_of_filter. split; [tauto|]. apply Hin; tauto.
Qed.

Lemma healthy_dec (x : Exchange) (timeoutMs : Z) :
  healthy x timeoutMs \/ ~ healthy x timeoutMs.
Proof.
  destruct (probeUrl_total EmptyString timeoutMs x) as [H|H].
  - left. apply (probeUrl_success EmptyString). exact H.
  - right. intros Hh. apply (probeUrl_success EmptyString) in Hh. congruence.
Qed.

(** No more distinct probes can settle than were started. *)
Lemma distinct_indices_bounded (l : list nat) (n : nat) :
  NoDup l -> Forall (fun i => (i < n)%nat) l -> (length l <= n)%nat.
Proof.
  intros Hnd Hall.
  rewrite <- (length_seq n 0). apply submseteq_length.
  apply NoDup_submseteq; [exact Hnd|].
  intros i Hi. rewrite Forall_forall in Hall. apply elem_of_seq.
  specialize (Hall i Hi). cbn beta in Hall. lia.
Qed.

Lemma run_cons (w : World) (e : Event) (es : list Event) :
  run w (e :: es) = run (step w e) es.
Proof. reflexivity. Qed.

Lemma run_app (w : World) (es1 es2 : list Event) :
  run w (es1 ++ es2) = run (run w es1) es2.
Proof. unfold run. apply foldl_app. Qed.

(** Probes that settle for a call that is not (or no longer) awaiting its
    race change neither the Active URL nor the store. *)
Lemma late_probes_harmless (caller : nat) (xs : nat -> Exchange) (order : list nat) :
  forall w, ~ racing w caller ->
    activeUrl (run w (settleAll caller xs order)) = activeUrl w /\
    resolverStorage (run w (settleAll caller xs order)) = resolverStorage w.
Proof.
  induction order as [|i rest IH]; intros w Hnr; [split; reflexivity|].
  cbn [settleAll map]. rewrite run_cons. cbn [step]. unfold probeDone.
  destruct (passes w !! caller) as [[| |r|r]|] eqn:Hp; try (apply IH; exact Hnr).
  - exfalso. apply Hnr. exists r. exact Hp.
  - match goal with |- context [run ?w1 _] => destruct (IH w1) as [Ha Hs] end.
    + intros [r' Hr']. cbn [passes] in Hr'.
      rewrite list_lookup_insert_eq in Hr' by (eapply lookup_lt_Some; exact Hp).
      discriminate.
    + fold (settleAll caller xs rest). rewrite Ha, Hs. split; reflexivity.
Qed.

Lemma finishPass_not_racing (caller : nat) (r : Race) (winner : option string)
    (w : World) :
  (caller < length (passes w))%nat -> ~ racing (finishPass caller r winner w) caller.
Proof.
  intros Hlt [r' Hr']. unfold finishPass, unlock in Hr'. cbn [passes] in Hr'.
  assert (Hp : passes (adoptWinner winner w) = passes w).
  { unfold adoptWinner. destruct winner as [u|]; [|reflexivity].
    destruct (truthy_string u); reflexivity. }
  rewrite Hp in Hr'.
  destruct (holder (release (resolveLock (adoptWinner winner w)))) as [next|].
  - destruct (decide (next = caller)) as [->|Hne].
    + rewrite list_lookup_insert_eq in Hr' by (rewrite length_insert; exact Hlt).
      discriminate.
    + rewrite list_lookup_insert_ne in Hr' by exact Hne.
      rewrite list_lookup_insert_eq in Hr' by exact Hlt. discriminate.
  - rewrite list_lookup_insert_eq in Hr' by exact Hlt. discriminate.
Qed.

Lemma finishPass_activeUrl (caller : nat) (r : Race) (winner : option string)
    (w : World) :
  activeUrl (finishPass caller r winner w) =
    (if truthy winner then winner else activeUrl w) /\
  resolverStorage (finishPass caller r winner w) =
    match winner with
    | Some u => if truthy_string u
                then <[ACTIVE_URL_KEY := u]> (resolverStorage w)
                else resolverStorage w
    | None => resolverStorage w
    end.
Proof.
  unfold finishPass, unlock, adoptWinner. cbn [activeUrl resolverStorage].
  destruct winner as [u|]; cbn [truthy]; [|split; reflexivity].
  destruct (truthy_string u); split; reflexivity.
Qed.

(** The outcome of a pass, from any point at which its race is undecided. *)
Lemma pass_progress (caller : nat) (xs : nat -> Exchange) (cs : list string) :
  (forall u, u ∈ cs -> truthy_string u = true) ->
  forall order w r failed,
    passes w !! caller = Some (Racing r) ->
    undecided cs r failed ->
    NoDup (failed ++ order) ->
    Forall (fun i => (i < length cs)%nat) (failed ++ order) ->
    (forall pre j post u,
        order = pre ++ j :: post -> cs !! j = Some u ->
        healthy (xs j) PROBE_TIMEOUT_MS ->
        (forall i, i ∈ pre -> ~ healthy (xs i) PROBE_TIMEOUT_MS) ->
        activeUrl (run w (settleAll caller xs order)) = Some u /\
        resolverStorage (run w (settleAll caller xs order))
          = <[ACTIVE_URL_KEY := u]> (resolverStorage w)) /\
    ((forall i, i ∈ order -> ~ healthy (xs i) PROBE_TIMEOUT_MS) ->
        activeUrl (run w (settleAll caller xs order)) = activeUrl w /\
        resolverStorage (run w (settleAll caller xs order)) = resolverStorage w).
Proof.
  intros Htruthy. induction order as [|i rest IH]; intros w r failed Hp Hund Hnd Hall.
  { split; [|intros _; split; reflexivity].
    intros pre j post u Ho. destruct pre; discriminate. }
  assert (Hlen : (caller < length (passes w))%nat) by (eapply lookup_lt_Some; exact Hp).
  assert (Hi : (i < length cs)%nat).
  { rewrite Forall_forall in Hall. apply (Hall i).
    rewrite elem_of_app, elem_of_cons. auto. }
  destruct (lookup_lt_is_Some_2 cs i Hi) as [ui Hui].
  assert (Hnf : i ∉ failed).
  { apply NoDup_app in Hnd as (_ & Hdis & _). intros Hin.
    apply (Hdis i Hin). left. }
  destruct (probeSettles_undecided cs r failed i (xs i) ui Hund Hui Hnf)
    as [Hgood Hbad].
  cbn [settleAll map]. rewrite run_cons. fold (settleAll caller xs rest).
  cbn [step]. unfold probeDone. rewrite Hp.
  destruct (healthy_dec (xs i) PROBE_TIMEOUT_MS) as [Hh|Hn].
  - (* probe [i] succeeds: it wins *)
    assert (Hut : truthy_string ui = true).
    { apply Htruthy. eapply list_elem_of_lookup_2. exact Hui. }
    rewrite (Hgood Hh Hut).
    destruct (late_probes_harmless caller xs rest
                (finishPass caller (probeSettles i (xs i) r) (Some ui) w))
      as [Ha Hs]; [apply finishPass_not_racing; exact Hlen|].
    destruct (finishPass_activeUrl caller (probeSettles i (xs i) r) (Some ui) w)
      as [Ha' Hs'].
    cbn [truthy] in Ha'. rewrite Hut in Ha', Hs'.
    split.
    + intros pre j post u Ho Hj Hhj Hpre. destruct pre as [|p pre].
      * cbn [app] in Ho. injection Ho as <- _.
        assert (u = ui) by congruence. subst u.
        rewrite Ha, Hs, Ha', Hs'. split; reflexivity.
      * cbn [app] in Ho. injection Ho as <- _.
        exfalso. apply (Hpre i); [left | exact Hh].
    + intros Hno. exfalso. apply (Hno i); [left | exact Hh].
  - destruct (Hbad Hn) as [[Hres Hfull] | [Hres Hund']].
    + (* the last probe fails: the race resolves to null *)
      rewrite Hres.
      destruct (late_probes_harmless caller xs rest
                  (finishPass caller (probeSettles i (xs i) r) None w))
        as [Ha Hs]; [apply finishPass_not_racing; exact Hlen|].
      destruct (finishPass_activeUrl caller (probeSettles i (xs i) r) None w)
        as [Ha' Hs'].
      cbn [truthy] in Ha'.
      split.
      * intros pre j post u Ho Hj Hhj Hpre. exfalso.
        destruct pre as [|p pre]; cbn [app] in Ho; injection Ho as <- Hrest.
        -- exact (Hn Hhj).
        -- pose proof (distinct_indices_bounded _ _ Hnd Hall) as Hb.
           rewrite length_app in Hb. cbn [length] in Hb.
           rewrite Hrest, length_app in Hb. cbn [length] in Hb. lia.
      * intros _. rewrite Ha, Hs, Ha', Hs'. split; reflexivity.
    + (* another probe fails and the race goes on *)
      rewrite Hres.
      match goal with |- context [run ?w1 _] => set (w1' := w1) end.
      assert (Hp1 : passes w1' !! caller = Some (Racing (probeSettles i (xs i) r))).
      { subst w1'. cbn [passes]. apply list_lookup_insert_eq. exact Hlen. }
      destruct (IH w1' _ (failed ++ [i]) Hp1 Hund') as [IH1 IH2].
      { rewrite <- app_assoc. exact Hnd. }
      { rewrite <- app_assoc. exact Hall. }
      split.
      * intros pre j post u Ho Hj Hhj Hpre.
        destruct pre as [|p pre]; cbn [app] in Ho; injection Ho as <- Hrest.
        -- exfalso. exact (Hn Hhj).
        -- apply (IH1 pre j post u Hrest Hj Hhj).
           intros k Hk. apply Hpre. right. exact Hk.
      * intros Hno. apply IH2. intros k Hk. apply Hno. right. exact Hk.
Qed.

Lemma startPass_granted (caller : nat) (w : World) :
  passes w !! caller = Some Granted ->
  passes (startPass caller w) !! caller
    = Some (Racing (raceProbes (buildCandidates (serverUrl w) (manualLanUrl w)))) /\
  activeUrl (startPass caller w) = activeUrl w /\
  resolverStorage (startPass caller w) = resolverStorage w.
Proof.
  intros Hp. unfold startPass. rewrite Hp. cbn [passes activeUrl resolverStorage].
  split; [|split; reflexivity].
  apply list_lookup_insert_eq. eapply lookup_lt_Some. exact Hp.
Qed.

(** What an uninterrupted pass of a call that owns the lock leaves behind,
    in terms of the race it starts. *)
Lemma granted_pass (w : World) (caller : nat) (xs : nat -> Exchange)
    (order : list nat) :
  passes w !! caller = Some Granted ->
  serverUrl w <> EmptyString ->
  NoDup order ->
  Forall (fun i => (i < length (buildCandidates (serverUrl w) (manualLanUrl w)))%nat)
         order ->
  (forall pre j post u,
      order = pre ++ j :: post ->
      buildCandidates (serverUrl w) (manualLanUrl w) !! j = Some u ->
      healthy (xs j) PROBE_TIMEOUT_MS ->
      (forall i, i ∈ pre -> ~ healthy (xs i) PROBE_TIMEOUT_MS) ->
      activeUrl (run w (passEvents caller xs order)) = Some u /\
      resolverStorage (run w (passEvents caller xs order))
        = <[ACTIVE_URL_KEY := u]> (resolverStorage w)) /\
  ((forall i, i ∈ order -> ~ healthy (xs i) PROBE_TIMEOUT_MS) ->
      activeUrl (run w (passEvents caller xs order)) = activeUrl w /\
      resolverStorage (run w (passEvents caller xs order)) = resolverStorage w).
Proof.
  intros Hp Hprimary Hnd Hall.
  destruct (startPass_granted caller w Hp) as (Hp1 & Ha1 & Hs1).
  set (cs := buildCandidates (serverUrl w) (manualLanUrl w)) in *.
  destruct (pass_progress caller xs cs
              (fun u => buildCandidates_truthy _ _ u Hprimary)
              order (startPass caller w) (raceProbes cs) [] Hp1
              (raceProbes_undecided cs (buildCandidates_nonempty _ _)) Hnd Hall)
    as [H1 H2].
  unfold passEvents. rewrite run_cons. cbn [step]. split.
  - intros pre j post u Ho Hj Hh Hpre.
    destruct (H1 pre j post u Ho Hj Hh Hpre) as [Ha Hs].
    split; [exact Ha|]. rewrite Hs, Hs1. reflexivity.
  - intros Hno. destruct (H2 Hno) as [Ha Hs]. rewrite Ha, Hs. auto.
Qed.

(** C1.  Let call [caller] own the lock, let the primary URL be configured
    (not empty), and let the started probes settle one after the other in any
    order [order] (each at most once).  If the probe of candidate [j] is the
    first in that order to succeed, however many failed probes returned
    before it, then the in-memory Active URL and the persisted record both
    become candidate [j].  If no probe in the order succeeds, both stay as
    they were. *)
Theorem resolveNow_first_success_wins (w : World) (caller : nat)
    (xs : nat -> Exchange) (order : list nat) :
  passes w !! caller = Some Granted ->
  serverUrl w <> EmptyString ->
  NoDup order ->
  Forall (fun i => (i < length (buildCandidates (serverUrl w) (manualLanUrl w)))%nat)
         order ->
  (forall pre j post u,
      order = pre ++ j :: post ->
      buildCandidates (serverUrl w) (manualLanUrl w) !! j = Some u ->
      healthy (xs j) 3000 ->
      (forall i, i ∈ pre -> ~ healthy (xs i) 3000) ->
      activeUrl (run w (passEvents caller xs order)) = Some u /\
      resolverStorage (run w (passEvents caller xs order)) !! ACTIVE_URL_KEY = Some u) /\
  ((forall i, i ∈ order -> ~ healthy (xs i) 3000) ->
      activeUrl (run w (passEvents caller xs order)) = activeUrl w /\
      resolverStorage (run w (passEvents caller xs order)) = resolverStorage w).
Proof.
  intros Hp Hprimary Hnd Hall.
  destruct (granted_pass w caller xs order Hp Hprimary Hnd Hall) as [Hwin Hnone].
  split.
  - intros pre j post u Ho Hj Hh Hpre.
    destruct (Hwin pre j post u Ho Hj Hh Hpre) as [Ha Hs].
    split; [exact Ha|]. rewrite Hs. apply lookup_insert_eq.
  - intros Hno. apply Hnone. exact Hno.
Qed.

Lemma welcomes_healthy (after : Z) : after < 3000 -> healthy (welcomes after) 3000.
Proof.
  intros Hlt. exists after, {| ok := true; text := Fulfilled "Welcome to Happy Server!" |},
    "Welcome to Happy Server!"%string.
  repeat split; try reflexivity; try exact Hlt.
  exists EmptyString, EmptyString. reflexivity.
Qed.

Lemma timesOut_unhealthy : ~ healthy timesOut 3000.
Proof. intros (t & r & body & Hl & _). discriminate. Qed.

Lemma resolveNow_first_success_wins_witness :
  activeUrl (run twoCandidates (passEvents 0 badThenGood [0; 1]%nat))
    = Some "https://good.example"%string /\
  resolverStorage (run twoCandidates (passEvents 0 badThenGood [0; 1]%nat))
    !! ACTIVE_URL_KEY = Some "https://good.example"%string.
Proof.
  refine (proj1 (resolveNow_first_success_wins twoCandidates 0 badThenGood
                   [0; 1]%nat eq_refl _ _ _)
                [0%nat] 1%nat [] "https://good.example"%string
                eq_refl eq_refl _ _).
  - discriminate.
  - exact (NoDup_seq 0 2).
  - repeat constructor.
  - apply welcomes_healthy. reflexivity.
  - intros i Hi. apply list_elem_of_singleton in Hi. subst i.
    exact timesOut_unhealthy.
Defined.

(** When exactly one probe succeeds, the order in which all the probes return
    does not matter. *)
Lemma single_success_any_order (w : World) (caller : nat)
    (xs : nat -> Exchange) (order : list nat) (j : nat) (u : string) :
  passes w !! caller = Some Granted ->
  serverUrl w <> EmptyString ->
  order ≡ₚ seq 0 (length (buildCandidates (serverUrl w) (manualLanUrl w))) ->
  buildCandidates (serverUrl w) (manualLanUrl w) !! j = Some u ->
  healthy (xs j) 3000 ->
  (forall i, i <> j -> ~ healthy (xs i) 3000) ->
  activeUrl (run w (passEvents caller xs order)) = Some u /\
  resolverStorage (run w (passEvents caller xs order)) !! ACTIVE_URL_KEY = Some u.
Proof.
  intros Hp Hprim Hperm Hj Hh Hothers.
  assert (Hnd : NoDup order) by (rewrite Hperm; apply NoDup_seq).
  assert (Hin : j ∈ order).
  { rewrite Hperm. apply elem_of_seq. apply lookup_lt_Some in Hj. lia. }
  apply list_elem_of_split in Hin as (pre & post & ->).
  assert (Hall : Forall (fun i => (i < length (buildCandidates (serverUrl w)
                                                  (manualLanUrl w)))%nat)
                        (pre ++ j :: post)).
  { rewrite Forall_forall. intros i Hi. rewrite Hperm in Hi.
    apply elem_of_seq in Hi. lia. }
  destruct (proj1 (granted_pass w caller xs _ Hp Hprim Hnd Hall)
                  pre j post u eq_refl Hj Hh) as [Ha Hs].
  - intros i Hi. apply Hothers. intros ->.
    apply NoDup_app in Hnd as (_ & Hdis & _). apply (Hdis j Hi). left.
  - split; [exact Ha|]. rewrite Hs. apply lookup_insert_eq.
Qed.

(** When both probes succeed, the one that settles first wins, whatever its
    place in the candidate list. *)
Example both_succeed_earlier_wins :
  activeUrl (run twoCandidates
               (passEvents 0 (fun _ => welcomes 120) [1; 0]%nat))
    = Some "https://good.example"%string /\
  activeUrl (run twoCandidates
               (passEvents 0 (fun _ => welcomes 120) [0; 1]%nat))
    = Some "https://bad.example"%string.
Proof. split; vm_compute; reflexivity. Qed.

(** *** The synchronous getter *)


(** *** Debounced failure notifications *)






(** *** Well-formed worlds *)

Lemma wf_boot (primary : string) (lan : option string) (store : gmap string string) :
  wfWorld (boot primary lan store).
Proof.
  unfold wfWorld, boot. cbn [resolveLock passes]. constructor; cbn.
  - intros i r H. rewrite lookup_nil in H. discriminate.
  - intros i. split; [discriminate|]. intros (p & H & _).
    rewrite lookup_nil in H. discriminate.
  - intros i. rewrite elem_of_nil, lookup_nil. split; [tauto | discriminate].
  - constructor.
Qed.

Lemma lookup_snoc_cases {A} (l : list A) (x y : A) (i : nat) :
  (l ++ [x]) !! i = Some y ->
  l !! i = Some y \/ (i = length l /\ y = x).
Proof.
  intros H. apply lookup_snoc_Some in H as [[_ H] | [H1 H2]]; [left | right]; auto.
Qed.

Lemma wf_acquire (l : AsyncLock) (ps : list Phase) :
  wf l ps ->
  wf (acquire (length ps) l)
     (ps ++ [match holder l with None => Granted | Some _ => Queued end]).
Proof.
  intros [Hr Hh Hw Hn]. unfold acquire.
  assert (Hfresh : length ps ∉ waiting l).
  { intros Hin. apply Hw in Hin. apply lookup_lt_Some in Hin. lia. }
  destruct (holder l) as [h|] eqn:Hhold; constructor; cbn [holder waiting].
  - intros i r H. apply lookup_snoc_cases in H as [H | [_ H]]; [eauto | discriminate].
  - intros i. rewrite Hh. split.
    + intros (p & Hp & Hf). exists p. split; [|exact Hf].
      apply lookup_app_l_Some. exact Hp.
    + intros (p & Hp & Hf). apply lookup_snoc_cases in Hp as [Hp | [_ ->]].
      * eauto.
      * discriminate.
  - intros i. rewrite elem_of_app, list_elem_of_singleton, Hw. split.
    + intros [H | ->].
      * apply lookup_app_l_Some. exact H.
      * apply list_lookup_middle. reflexivity.
    + intros H. apply lookup_snoc_cases in H as [H | [-> _]]; auto.
  - apply NoDup_app. split; [exact Hn|]. split; [|apply NoDup_singleton].
    intros i Hi Hi'. apply list_elem_of_singleton in Hi'. subst i. contradiction.
  - intros i r H. apply lookup_snoc_cases in H as [H | [_ H]]; [eauto | discriminate].
  - intros i. split.
    + intros [= <-]. exists Granted. split; [|reflexivity].
      apply list_lookup_middle. reflexivity.
    + intros (p & Hp & Hf). apply lookup_snoc_cases in Hp as [Hp | [-> _]].
      * exfalso. assert (Hsome : @None nat = Some i) by (apply Hh; eauto).
        discriminate.
      * reflexivity.
  - intros i. rewrite Hw. split.
    + intros H. apply lookup_app_l_Some. exact H.
    + intros H. apply lookup_snoc_cases in H as [H | [_ H]]; [exact H | discriminate].
  - exact Hn.
Qed.

Lemma wf_replace_in_flight (l : AsyncLock) (ps : list Phase) (i : nat) (p q : Phase) :
  wf l ps -> ps !! i = Some p -> inFlight p = true -> inFlight q = true ->
  (forall r, q = Racing r -> resolved r = None) ->
  wf l (<[i := q]> ps).
Proof.
  intros [Hr Hh Hw Hn] Hp Hfp Hfq Hq.
  assert (Hlt : (i < length ps)%nat) by (eapply lookup_lt_Some; exact Hp).
  constructor.
  - intros j r H. destruct (decide (j = i)) as [->|Hne].
    + rewrite list_lookup_insert_eq in H by exact Hlt. injection H as H. eauto.
    + rewrite list_lookup_insert_ne in H by congruence. eauto.
  - intros j. rewrite Hh. destruct (decide (j = i)) as [->|Hne].
    + rewrite list_lookup_insert_eq by exact Hlt. split; eauto.
    + rewrite list_lookup_insert_ne by congruence. tauto.
  - intros j. rewrite Hw. destruct (decide (j = i)) as [->|Hne].
    + rewrite list_lookup_insert_eq by exact Hlt. rewrite Hp.
      split; intros [= H]; subst; discriminate.
    + rewrite list_lookup_insert_ne by congruence. tauto.
  - exact Hn.
Qed.

Lemma wf_replace_finished (l : AsyncLock) (ps : list Phase) (i : nat) (r r' : Race) :
  wf l ps -> ps !! i = Some (Finished r) -> wf l (<[i := Finished r']> ps).
Proof.
  intros [Hr Hh Hw Hn] Hp.
  assert (Hlt : (i < length ps)%nat) by (eapply lookup_lt_Some; exact Hp).
  constructor.
  - intros j q H. destruct (decide (j = i)) as [->|Hne].
    + rewrite list_lookup_insert_eq in H by exact Hlt. discriminate.
    + rewrite list_lookup_insert_ne in H by congruence. eauto.
  - intros j. rewrite Hh. destruct (decide (j = i)) as [->|Hne].
    + rewrite list_lookup_insert_eq by exact Hlt. rewrite Hp.
      split; intros (p & [= <-] & Hf); discriminate.
    + rewrite list_lookup_insert_ne by congruence. tauto.
  - intros j. rewrite Hw. destruct (decide (j = i)) as [->|Hne].
    + rewrite list_lookup_insert_eq by exact Hlt. rewrite Hp.
      split; discriminate.
    + rewrite list_lookup_insert_ne by congruence. tauto.
  - exact Hn.
Qed.

(** Leaving the lock hands it to the head of the queue. *)
Lemma wf_release (l : AsyncLock) (ps : list Phase) (i : nat) (r r' : Race) :
  wf l ps -> ps !! i = Some (Racing r) ->
  wf (release l)
     (match holder (release l) with
      | Some next => <[next := Granted]> (<[i := Finished r']> ps)
      | None => <[i := Finished r']> ps
      end).
Proof.
  intros [Hr Hh Hw Hn] Hp.
  assert (Hlt : (i < length ps)%nat) by (eapply lookup_lt_Some; exact Hp).
  assert (Hown : holder l = Some i) by (apply Hh; eexists; split; [exact Hp | reflexivity]).
  assert (Honly : forall j p, ps !! j = Some p -> inFlight p = true -> j = i).
  { intros j p Hj Hf. assert (holder l = Some j) by (apply Hh; eauto). congruence. }
  unfold release. destruct (waiting l) as [|next rest] eqn:Hwait; cbn [holder waiting].
  - constructor; cbn [holder waiting].
    + intros j q H. destruct (decide (j = i)) as [->|Hne].
      * rewrite list_lookup_insert_eq in H by exact Hlt. discriminate.
      * rewrite list_lookup_insert_ne in H by congruence. eauto.
    + intros j. split; [discriminate|]. intros (p & Hj & Hf). exfalso.
      destruct (decide (j = i)) as [->|Hne].
      * rewrite list_lookup_insert_eq in Hj by exact Hlt.
        injection Hj as <-. discriminate.
      * rewrite list_lookup_insert_ne in Hj by congruence.
        apply Hne. eapply Honly; eassumption.
    + intros j. rewrite elem_of_nil. split; [tauto|]. intros H.
      destruct (decide (j = i)) as [->|Hne].
      * rewrite list_lookup_insert_eq in H by exact Hlt. discriminate.
      * rewrite list_lookup_insert_ne in H by congruence.
        apply Hw in H. apply elem_of_nil in H. exact H.
    + constructor.
  - assert (Hnq : ps !! next = Some Queued) by (apply Hw; left).
    assert (Hni : next <> i) by (intros ->; congruence).
    assert (Hnlt : (next < length ps)%nat) by (eapply lookup_lt_Some; exact Hnq).
    apply NoDup_cons in Hn as [Hnr Hn].
    constructor; cbn [holder waiting].
    + intros j q H. destruct (decide (j = next)) as [->|Hne].
      * rewrite list_lookup_insert_eq in H by (rewrite length_insert; exact Hnlt).
        discriminate.
      * rewrite list_lookup_insert_ne in H by congruence.
        destruct (decide (j = i)) as [->|Hne'].
        -- rewrite list_lookup_insert_eq in H by exact Hlt. discriminate.
        -- rewrite list_lookup_insert_ne in H by congruence. eauto.
    + intros j. split.
      * intros [= <-]. exists Granted. split; [|reflexivity].
        apply list_lookup_insert_eq. rewrite length_insert. exact Hnlt.
      * intros (p & Hj & Hf). destruct (decide (j = next)) as [->|Hne]; [reflexivity|].
        exfalso. rewrite list_lookup_insert_ne in Hj by congruence.
        destruct (decide (j = i)) as [->|Hne'].
        -- rewrite list_lookup_insert_eq in Hj by exact Hlt.
           injection Hj as <-. discriminate.
        -- rewrite list_lookup_insert_ne in Hj by congruence.
           apply Hne'. eapply Honly; eassumption.
    + intros j. destruct (decide (j = next)) as [->|Hne].
      * rewrite list_lookup_insert_eq by (rewrite length_insert; exact Hnlt).
        split; [contradiction | discriminate].
      * rewrite list_lookup_insert_ne by congruence.
        destruct (decide (j = i)) as [->|Hne'].
        -- rewrite list_lookup_insert_eq by exact Hlt. split; [|discriminate].
           intros Hin. assert (Hq : ps !! i = Some Queued)
             by (apply Hw; right; exact Hin).
           congruence.
        -- rewrite list_lookup_insert_ne by congruence. rewrite <- Hw.
           rewrite elem_of_cons. split; [tauto|]. intros [H|H]; [congruence | exact H].
    + exact Hn.
Qed.

Lemma adoptWinner_lock (winner : option string) (w : World) :
  resolveLock (adoptWinner winner w) = resolveLock w /\
  passes (adoptWinner winner w) = passes w.
Proof.
  unfold adoptWinner. destruct winner as [u|]; [|split; reflexivity].
  destruct (truthy_string u); split; reflexivity.
Qed.

Lemma wf_resolveNow (w : World) : wfWorld w -> wfWorld (resolveNow w).
Proof. intros H. unfold wfWorld, resolveNow. cbn [resolveLock passes]. apply wf_acquire. exact H. Qed.

Lemma raceProbes_unresolved (cs : list string) :
  cs <> [] -> resolved (raceProbes cs) = None.
Proof. destruct cs; [congruence | reflexivity]. Qed.

Lemma wf_step (w : World) (e : Event) : wfWorld w -> wfWorld (step w e).
Proof.
  intros Hwf. destruct e as [| | |now|primary lan|caller|caller i x]; cbn [step].
  - apply wf_resolveNow. exact Hwf.
  - unfold getResolvedServerUrl, coldStart.
    destruct (activeUrl w) as [u|]; [destruct (truthy_string u)|]; cbn [snd];
      try exact Hwf; apply wf_resolveNow; exact Hwf.
  - exact Hwf.
  - unfold notifyConnectionFailed.
    destruct (now - lastFailureNotification w <? FAILURE_DEBOUNCE_MS);
      [exact Hwf | apply wf_resolveNow; exact Hwf].
  - exact Hwf.
  - unfold startPass. destruct (passes w !! caller) as [[| |r|r]|] eqn:Hp; try exact Hwf.
    unfold wfWorld. cbn [resolveLock passes].
    apply (wf_replace_in_flight _ _ _ Granted); try assumption; try reflexivity.
    intros r [= <-]. apply raceProbes_unresolved. apply buildCandidates_nonempty.
  - unfold probeDone. destruct (passes w !! caller) as [[| |r|r]|] eqn:Hp; try exact Hwf.
    + destruct (resolved (probeSettles i x r)) as [winner|] eqn:Hres.
      * unfold finishPass, unlock, wfWorld. cbn [resolveLock passes].
        destruct (adoptWinner_lock winner w) as [-> ->].
        apply (wf_release _ _ _ r); assumption.
      * unfold wfWorld. cbn [resolveLock passes].
        apply (wf_replace_in_flight _ _ _ (Racing r)); try assumption; try reflexivity.
        intros r' [= <-]. exact Hres.
    + unfold wfWorld. cbn [resolveLock passes].
      apply (wf_replace_finished _ _ _ r); assumption.
Qed.

Lemma wf_run (es : list Event) : forall w, wfWorld w -> wfWorld (run w es).
Proof.
  induction es as [|e es IH]; intros w Hwf; [exact Hwf|].
  rewrite run_cons. apply IH. apply wf_step. exact Hwf.
Qed.

(** Every world the module can be in: booted from some store and settings,
    then driven by any events. *)
Lemma wf_reachable (primary : string) (lan : option string)
    (store : gmap string string) (es : list Event) :
  wfWorld (run (boot primary lan store) es).
Proof. apply wf_run. apply wf_boot. Qed.

(** *** Mutual exclusion of passes *)


(** *** Who writes the Active URL *)

(** A fresh install has no Active URL and has never probed anything; the
    first [getResolvedServerUrl()] sets the in-memory Active URL all the
    same. *)
Lemma cold_getter_sets_active_url_unprobed :
  ~ memoryOnlyByRaceOrReset freshInstall CallGetResolvedServerUrl.
Proof.
  unfold memoryOnlyByRaceOrReset. intros H.
  destruct H as [[H _] | (u & (caller & i & x & r & H & _) & _)].
  - cbn. discriminate.
  - discriminate.
  - discriminate.
Qed.

(** When a settling probe resolves a race that had not resolved, and the
    race's value is a URL, that URL is the probed candidate and the probe
    succeeded. *)
Lemma probeSettles_winner (i : nat) (x : Exchange) (r : Race) (u : string) :
  resolved r = None ->
  resolved (probeSettles i x r) = Some (Some u) ->
  candidates r !! i = Some u /\ healthy x PROBE_TIMEOUT_MS.
Proof.
  intros Hnone Hres. unfold probeSettles in Hres.
  destruct (candidates r !! i) as [url|] eqn:Hi; [|congruence].
  destruct (bool_decide (i ∈ inflight r)); [|congruence].
  assert (Hurl : probeResult url x = Some u -> Some url = Some u /\ healthy x PROBE_TIMEOUT_MS).
  { intros H. destruct (probeResult_cases url x) as [H'|H']; [|congruence].
    split; [congruence|]. apply (probeResult_success url). exact H'. }
  destruct (candidates r) as [|c0 [|c1 cs]].
  - cbn in Hres. unfold onProbeResult in Hres. cbn in Hres.
    destruct (settled r); cbn in Hres; [congruence|].
    destruct (truthy (probeResult url x)); cbn in Hres; [apply Hurl; congruence|].
    destruct (pending r - 1 =? 0); cbn in Hres; congruence.
  - cbn in Hres. apply Hurl. congruence.
  - unfold onProbeResult in Hres. cbn in Hres.
    destruct (settled r); cbn in Hres; [congruence|].
    destruct (truthy (probeResult url x)); cbn in Hres; [apply Hurl; congruence|].
    destruct (pending r - 1 =? 0); cbn in Hres; congruence.
Qed.

(** Closes a goal [x <> x -> _]: the event did not touch the field. *)
Ltac untouched :=
  let H := fresh "H" in
  intros H; exfalso; first [apply H; reflexivity | cbn in H; congruence].

Lemma step_writes (w : World) (e : Event) :
  wfWorld w -> storeOnlyByRaceOrReset w e /\ memoryByRaceResetOrColdStart w e.
Proof.
  intros Hwf.
  unfold storeOnlyByRaceOrReset, memoryByRaceResetOrColdStart.
  destruct e as [| | |now|primary lan|caller|caller i x]; cbn [step].
  - split; untouched.
  - unfold getResolvedServerUrl, coldStart.
    destruct (activeUrl w) as [u|] eqn:Ha; [destruct (truthy_string u) eqn:Hu|];
      cbn [snd resolveNow activeUrl resolverStorage]; (split; [untouched|]).
    + untouched.
    + intros _. right. right. cbn [truthy]. auto.
    + intros _. right. right. auto.
  - split; intros _; left; split; reflexivity.
  - unfold notifyConnectionFailed.
    destruct (now - lastFailureNotification w <? FAILURE_DEBOUNCE_MS);
      split; untouched.
  - split; untouched.
  - unfold startPass. destruct (passes w !! caller) as [[| |r|r]|];
      split; untouched.
  - unfold probeDone.
    destruct (passes w !! caller) as [[| |r|r]|] eqn:Hp; try (split; untouched).
    destruct (resolved (probeSettles i x r)) as [winner|] eqn:Hres;
      [|split; untouched].
    destruct (finishPass_activeUrl caller (probeSettles i x r) winner w) as [-> ->].
    destruct winner as [u|]; cbn [truthy]; [|split; untouched].
    destruct (truthy_string u); [|split; untouched].
    destruct (probeSettles_winner i x r u (wf_racing _ _ Hwf caller r Hp) Hres)
      as [Hcand Hh].
    assert (Hprobe : successfulProbe w (ProbeSettles caller i x) u).
    { exists caller, i, x, r. auto. }
    split; intros _; right; [|left]; exists u; auto.
Qed.

(** C9 (amended).  In every reachable world, an event changes the persisted
    Active URL record only by deleting it in [resetResolver()] or by writing
    the URL of a probe that has just succeeded in the awaited race.  The
    in-memory Active URL changes in the same two ways and in one more: the
    cold-cache branch of [getResolvedServerUrl()] sets it to the primary URL.
    Consequently only [resetResolver()] ever clears either of them. *)
Theorem active_url_writers (primary : string) (lan : option string)
    (store : gmap string string) (es : list Event) (e : Event) :
  storeOnlyByRaceOrReset (run (boot primary lan store) es) e /\
  memoryByRaceResetOrColdStart (run (boot primary lan store) es) e /\
  (activeUrl (step (run (boot primary lan store) es) e) = None ->
   activeUrl (run (boot primary lan store) es) <> None ->
   e = CallResetResolver) /\
  (resolverStorage (step (run (boot primary lan store) es) e) !! ACTIVE_URL_KEY = None ->
   resolverStorage (run (boot primary lan store) es) !! ACTIVE_URL_KEY <> None ->
   e = CallResetResolver).
Proof.
  pose proof (wf_reachable primary lan store es) as Hwf.
  set (w := run (boot primary lan store) es) in *.
  destruct (step_writes w e Hwf) as [Hstore Hmem].
  split; [exact Hstore|]. split; [exact Hmem|]. split.
  - intros Hnone Hsome.
    destruct Hmem as [[He _] | [(u & _ & Hu) | (_ & _ & Hu)]]; congruence.
  - intros Hnone Hsome.
    destruct Hstore as [[He _] | (u & _ & Hu)].
    + congruence.
    + exact He.
    + rewrite Hu, lookup_insert_eq in Hnone. discriminate.
Qed.



(** *** The properties at work on the scenarios *)



(** In the two-candidate scenario the store is written at the moment the
    second probe succeeds, with that probe's URL. *)
Lemma active_url_writers_witness :
  exists u,
    successfulProbe
      (run (boot "https://bad.example" (Some "https://good.example"%string) ∅)
           [CallResolveNow; PassStarts 0; ProbeSettles 0 0 timesOut])
      (ProbeSettles 0 1 (welcomes 120)) u /\
    resolverStorage
      (step (run (boot "https://bad.example" (Some "https://good.example"%string) ∅)
                 [CallResolveNow; PassStarts 0; ProbeSettles 0 0 timesOut])
            (ProbeSettles 0 1 (welcomes 120)))
    = <[ACTIVE_URL_KEY := u]>
        (resolverStorage
           (run (boot "https://bad.example" (Some "https://good.example"%string) ∅)
                [CallResolveNow; PassStarts 0; ProbeSettles 0 0 timesOut])).
Proof.
  destruct (proj1 (active_url_writers "https://bad.example"
                     (Some "https://good.example"%string) ∅
                     [CallResolveNow; PassStarts 0; ProbeSettles 0 0 timesOut]
                     (ProbeSettles 0 1 (welcomes 120))))
    as [[Hreset _] | Hprobe].
  - intros Heq. apply (f_equal (fun m => m !! ACTIVE_URL_KEY)) in Heq.
    vm_compute in Heq. discriminate.
  - discriminate.
  - exact Hprobe.
Defined.

(** *** The probe race in general *)

Lemma filter_ne_length (l : list nat) (i : nat) :
  NoDup l -> i ∈ l ->
  length (filter (fun j => j ≠ i) l) = pred (length l).
Proof.
  induction 1 as [|a l Hni Hnd IH]; intros Hin.
  - inversion Hin.
  - rewrite filter_cons. destruct (decide (a ≠ i)) as [Hne|He].
    + cbn [length]. rewrite IH.
      * destruct l; [|reflexivity].
        apply elem_of_cons in Hin as [->|Hin]; [congruence | inversion Hin].
      * apply elem_of_cons in Hin as [->|Hin]; [congruence | exact Hin].
    + assert (a = i) as -> by (destruct (decide (a = i)); [assumption | contradiction]).
      cbn [length pred]. f_equal.
      clear IH Hin He Hnd. induction l as [|b l IH]; [reflexivity|].
      rewrite filter_cons. destruct (decide (b ≠ i)) as [_|He].
      * cbn [length]. f_equal. apply IH. intros Hin. apply Hni. right. exact Hin.
      * exfalso. apply Hni.
        assert (b = i) as -> by (destruct (decide (b = i)); [assumption | contradiction]).
        left.
  Qed.

Lemma raceInv_start (cs : list string) : raceInv cs [] (raceProbes cs).
Proof.
  destruct cs as [|c cs].
  - split; [reflexivity|]. cbn. split; [left; reflexivity|]. intros i Hi. lia.
  - split; [reflexivity|]. cbn [resolved raceProbes settled inflight pending].
    split; [reflexivity|]. split; [discriminate|].
    split; [apply NoDup_seq|]. split.
    + intros i. rewrite elem_of_seq. cbn. split.
      * intros [_ Hi]. split; [exact Hi | apply not_elem_of_nil].
      * intros [Hi _]. split; [lia | exact Hi].
    + rewrite length_seq. reflexivity.
Qed.

Lemma fmap_fst_snoc (ss : list (nat * Exchange)) (i : nat) (x : Exchange) (j : nat) :
  j ∈ (ss ++ [(i, x)]).*1 <-> j ∈ ss.*1 \/ j = i.
Proof.
  rewrite fmap_app, elem_of_app. cbn. rewrite list_elem_of_singleton. reflexivity.
Qed.

Lemma raceVerdict_mono (cs : list string) (ss : list (nat * Exchange))
    (s : nat * Exchange) (winner : option string) :
  raceVerdict cs ss (Some winner) -> raceVerdict cs (ss ++ [s]) (Some winner).
Proof.
  destruct winner as [u|]; cbn.
  - intros (i & x & Hin & H). exists i, x. split; [|exact H].
    apply elem_of_app. left. exact Hin.
  - intros H i Hi. rewrite fmap_app. apply elem_of_app. left. apply H. exact Hi.
Qed.

(** One settlement keeps the invariant, and leaves a resolved race as it
    is. *)
Lemma probeSettles_inv (cs : list string) (ss : list (nat * Exchange))
    (r : Race) (i : nat) (x : Exchange) :
  raceInv cs ss r ->
  raceInv cs (ss ++ [(i, x)]) (probeSettles i x r) /\
  (forall v, resolved r = Some v -> resolved (probeSettles i x r) = Some v).
Proof.
  intros [Hc Hinv]. unfold probeSettles. rewrite Hc.
  destruct (cs !! i) as [url|] eqn:Hurl.
  2: { split; [|tauto]. split; [exact Hc|].
       apply lookup_ge_None in Hurl.
       destruct (resolved r) as [winner|].
       - destruct Hinv as [Hcl Hw]. split; [exact Hcl|].
         apply (raceVerdict_mono cs ss (i, x) winner Hw).
       - destruct Hinv as (Hs & Hne & Hnd & Hiff & Hp).
         split; [exact Hs|]. split; [exact Hne|]. split; [exact Hnd|].
         split; [|exact Hp]. intros j. rewrite Hiff, fmap_fst_snoc.
         split.
         + intros [Hj Hn]. split; [exact Hj|]. intros [Hm | Hm]; [tauto | lia].
         + intros [Hj Hn]. split; [exact Hj|]. intros Hm. apply Hn. left. exact Hm. }
  assert (Hi : (i < length cs)%nat) by (apply lookup_lt_is_Some; eauto).
  case_bool_decide as Hin.
  2: { split; [|tauto]. split; [exact Hc|].
       destruct (resolved r) as [winner|].
       - destruct Hinv as [Hcl Hw]. split; [exact Hcl|].
         apply (raceVerdict_mono cs ss (i, x) winner Hw).
       - destruct Hinv as (Hs & Hne & Hnd & Hiff & Hp).
         split; [exact Hs|]. split; [exact Hne|]. split; [exact Hnd|].
         split; [|exact Hp]. intros j. rewrite Hiff, fmap_fst_snoc.
         split.
         + intros [Hj Hn]. split; [exact Hj|]. intros [Hm | Hm]; [tauto|].
           subst j. apply Hin. apply Hiff. split; assumption.
         + intros [Hj Hn]. split; [exact Hj|]. intros Hm. apply Hn. left. exact Hm. }
  destruct (resolved r) as [winner|] eqn:Hres.
  - (* resolved already *)
    destruct Hinv as [[Hnil | [Hlen Hset]] Hw].
    { rewrite Hnil in Hin. inversion Hin. }
    assert (Hgoal :
      raceInv cs (ss ++ [(i, x)])
        (onProbeResult (probeResult url x)
           {| candidates := cs; settled := settled r; pending := pending r;
              inflight := filter (fun j => j ≠ i) (inflight r);
              resolved := Some winner |}) /\
      (forall v, Some winner = Some v ->
         resolved (onProbeResult (probeResult url x)
           {| candidates := cs; settled := settled r; pending := pending r;
              inflight := filter (fun j => j ≠ i) (inflight r);
              resolved := Some winner |})
         = Some v)).
    { unfold onProbeResult. cbn [settled]. rewrite Hset. cbn [resolved].
      split; [|tauto]. split; [first [exact Hc | reflexivity]|]. cbn [resolved].
      split; [right; split; [exact Hlen | reflexivity]|].
      apply (raceVerdict_mono cs ss (i, x) winner Hw). }
    destruct cs as [|a [|b cs']]; [exact Hgoal | cbn in Hlen; congruence | exact Hgoal].
  - (* still unresolved *)
    destruct Hinv as (Hs & Hne & Hnd & Hiff & Hp).
    split; [|discriminate].
    assert (Hflt : forall j, j ∈ filter (fun j => j ≠ i) (inflight r) <->
                             (j < length cs)%nat /\ j ∉ (ss ++ [(i, x)]).*1).
    { intros j. rewrite list_elem_of_filter, Hiff, fmap_fst_snoc. tauto. }
    assert (Hlenf : length (filter (fun j => j ≠ i) (inflight r))
                    = pred (length (inflight r)))
      by (apply filter_ne_length; assumption).
    assert (Hpos : (0 < length (inflight r))%nat).
    { destruct (inflight r); [inversion Hin | cbn; lia]. }
    assert (Hall : filter (fun j => j ≠ i) (inflight r) = [] ->
                   forall j, (j < length cs)%nat -> j ∈ (ss ++ [(i, x)]).*1).
    { intros Hnil j Hj. destruct (decide (j ∈ (ss ++ [(i, x)]).*1)) as [?|Hn]; [assumption|].
      exfalso. assert (H0 : j ∈ filter (fun j => j ≠ i) (inflight r)) by (apply Hflt; tauto).
      rewrite Hnil in H0. inversion H0. }
    assert (Hwin : probeResult url x = Some url ->
                   exists i0 x0, (i0, x0) ∈ ss ++ [(i, x)] /\ cs !! i0 = Some url /\
                                 healthy x0 PROBE_TIMEOUT_MS).
    { intros Hpr. exists i, x. split; [apply elem_of_app; right; left|].
      split; [exact Hurl | apply (probeResult_success url); exact Hpr]. }
    destruct cs as [|a [|b cs']].
    + discriminate.
    + (* one candidate: the probe's own promise *)
      split; [first [exact Hc | reflexivity]|]. cbn [resolved inflight].
      assert (Hnil : filter (fun j => j ≠ i) (inflight r) = []).
      { apply elem_of_nil_inv. intros j Hj. apply list_elem_of_filter in Hj as [Hji Hj].
        apply Hiff in Hj as [Hj _]. cbn in Hj, Hi. lia. }
      split; [left; exact Hnil|].
      destruct (probeResult_cases url x) as [Hpr|Hpr]; rewrite Hpr.
      * apply Hwin. exact Hpr.
      * apply Hall. exact Hnil.
    + (* several candidates: the callback *)
      unfold onProbeResult. cbn [settled pending inflight candidates resolved].
      rewrite Hs.
      destruct (probeResult_cases url x) as [Hpr|Hpr]; rewrite Hpr.
      * cbn [truthy]. destruct (truthy_string url) eqn:Htr.
        -- split; [first [exact Hc | reflexivity]|]. cbn [resolved settled inflight].
           split; [right; split; [cbn; lia | reflexivity]|].
           apply Hwin. exact Hpr.
        -- destruct (pending r - 1 =? 0) eqn:Hz.
           ++ split; [first [exact Hc | reflexivity]|]. cbn [resolved settled inflight].
              split; [right; split; [cbn; lia | reflexivity]|].
              apply Hall. apply Z.eqb_eq in Hz.
              apply nil_length_inv. rewrite Hlenf. lia.
           ++ split; [first [exact Hc | reflexivity]|]. cbn [resolved settled inflight pending].
              apply Z.eqb_neq in Hz.
              split; [reflexivity|].
              split; [intros Hnil; apply (f_equal length) in Hnil;
                      rewrite Hlenf in Hnil; cbn in Hnil; lia|].
              split; [apply NoDup_filter; exact Hnd|].
              split; [exact Hflt|]. rewrite Hlenf. lia.
      * cbn [truthy].
        destruct (pending r - 1 =? 0) eqn:Hz.
        -- split; [first [exact Hc | reflexivity]|]. cbn [resolved settled inflight].
           split; [right; split; [cbn; lia | reflexivity]|].
           apply Hall. apply Z.eqb_eq in Hz.
           apply nil_length_inv. rewrite Hlenf. lia.
        -- split; [first [exact Hc | reflexivity]|]. cbn [resolved settled inflight pending].
           apply Z.eqb_neq in Hz.
           split; [reflexivity|].
           split; [intros Hnil; apply (f_equal length) in Hnil;
                   rewrite Hlenf in Hnil; cbn in Hnil; lia|].
           split; [apply NoDup_filter; exact Hnd|].
           split; [exact Hflt|]. rewrite Hlenf. lia.
Qed.

Lemma raceRun_snoc (r : Race) (ss : list (nat * Exchange)) (i : nat) (x : Exchange) :
  raceRun r (ss ++ [(i, x)]) = probeSettles i x (raceRun r ss).
Proof. unfold raceRun. rewrite foldl_app. reflexivity. Qed.

Lemma raceRun_app (r : Race) (ss ss' : list (nat * Exchange)) :
  raceRun r (ss ++ ss') = raceRun (raceRun r ss) ss'.
Proof. unfold raceRun. apply foldl_app. Qed.

Lemma raceInv_run (cs : list string) (ss : list (nat * Exchange)) :
  raceInv cs ss (raceRun (raceProbes cs) ss).
Proof.
  induction ss as [|[i x] ss IH] using rev_ind.
  - apply raceInv_start.
  - rewrite raceRun_snoc. apply probeSettles_inv. exact IH.
Qed.

Lemma raceInv_resolved_stable (cs : list string) (ss' : list (nat * Exchange)) :
  forall ss r v, raceInv cs ss r -> resolved r = Some v ->
                 resolved (raceRun r ss') = Some v.
Proof.
  induction ss' as [|[i x] ss' IH]; intros ss r v Hinv Hres; [exact Hres|].
  cbn. destruct (probeSettles_inv cs ss r i x Hinv) as [Hinv' Hst].
  apply (IH (ss ++ [(i, x)])); [exact Hinv' | apply Hst; exact Hres].
Qed.

(** X1.  The promise of [raceProbes] is resolved once: whatever value it
    has after some probes have settled, it still has after any further
    settlements, for any list of candidates. *)
Theorem race_resolves_once (cs : list string) (ss ss' : list (nat * Exchange))
    (v : option string) :
  resolved (raceRun (raceProbes cs) ss) = Some v ->
  resolved (raceRun (raceProbes cs) (ss ++ ss')) = Some v.
Proof.
  intros H. rewrite raceRun_app.
  apply (raceInv_resolved_stable cs ss' ss); [apply raceInv_run | exact H].
Qed.

Lemma race_resolves_once_witness :
  resolved (raceRun (raceProbes ["https://bad.example"; "https://good.example"]%string)
                    ([(1%nat, welcomes 120)] ++ [(0%nat, welcomes 500)]))
  = Some (Some "https://good.example"%string).
Proof.
  apply (race_resolves_once ["https://bad.example"; "https://good.example"]%string
           [(1%nat, welcomes 120)] [(0%nat, welcomes 500)]).
  vm_compute. reflexivity.
Defined.


(** X2.  What the outcome of [raceProbes] means, for any list of candidates
    and any order of settlements: a URL it resolves with is a candidate
    whose probe succeeded; it resolves with [null] only when every probe has
    settled; and it stays unresolved only while some probe is outstanding. *)
Theorem race_outcome_sound (cs : list string) (ss : list (nat * Exchange)) :
  raceVerdict cs ss (resolved (raceRun (raceProbes cs) ss)).
Proof.
  destruct (raceInv_run cs ss) as [_ H].
  destruct (resolved (raceRun (raceProbes cs) ss)) as [winner|].
  - destruct H as [_ H]. destruct winner; exact H.
  - destruct H as (_ & Hne & _ & Hiff & _). cbn.
    destruct (inflight (raceRun (raceProbes cs) ss)) as [|i l] eqn:Hl; [congruence|].
    exists i. apply Hiff. left.
Qed.

(** *** A pass ends *)


Lemma settleAll_cons (caller : nat) (xs : nat -> Exchange) (i : nat)
    (order : list nat) :
  settleAll caller xs (i :: order)
  = ProbeSettles caller i (xs i) :: settleAll caller xs order.
Proof. reflexivity. Qed.





(** *** Settings changes, resets and restarts *)

Lemma probeSettles_success (r : Race) (i : nat) (x : Exchange) (u : string) :
  resolved r = None -> settled r = false -> i ∈ inflight r ->
  candidates r !! i = Some u -> u <> EmptyString -> healthy x PROBE_TIMEOUT_MS ->
  resolved (probeSettles i x r) = Some (Some u).
Proof.
  intros Hres Hs Hin Hu Hne Hh. unfold probeSettles. rewrite Hu.
  rewrite bool_decide_eq_true_2 by exact Hin.
  apply (probeResult_success u) in Hh. rewrite Hh.
  apply truthy_string_iff in Hne.
  destruct (candidates r) as [|a [|b l]]; [discriminate | reflexivity |].
  unfold onProbeResult. cbn [settled truthy]. rewrite Hs, Hne. reflexivity.
Qed.

Lemma finishPass_settings (caller : nat) (r : Race) (winner : option string)
    (w : World) :
  serverUrl (finishPass caller r winner w) = serverUrl w /\
  manualLanUrl (finishPass caller r winner w) = manualLanUrl w.
Proof.
  unfold finishPass, unlock, adoptWinner.
  destruct winner as [u|]; [destruct (truthy_string u)|]; split; reflexivity.
Qed.

(** X4.  Saving new settings and resetting the resolver does not cancel a
    pass that is in flight: when one of its probes then succeeds, the URL it
    probed becomes the Active URL in memory and in the store, whatever the
    new settings are, and [getResolvedServerUrl()] returns it without
    starting a new pass. *)
Theorem pass_in_flight_survives_reset (w : World) (caller i : nat) (u : string)
    (x : Exchange) (primary : string) (lan : option string) :
  probing w caller i u -> u <> EmptyString -> healthy x 3000 ->
  serverUrl (run w (saveSettings primary lan ++ [ProbeSettles caller i x])) = primary /\
  manualLanUrl (run w (saveSettings primary lan ++ [ProbeSettles caller i x])) = lan /\
  activeUrl (run w (saveSettings primary lan)) = None /\
  activeUrl (run w (saveSettings primary lan ++ [ProbeSettles caller i x])) = Some u /\
  resolverStorage (run w (saveSettings primary lan ++ [ProbeSettles caller i x]))
    !! ACTIVE_URL_KEY = Some u /\
  getResolvedServerUrl (run w (saveSettings primary lan ++ [ProbeSettles caller i x]))
    = (u, run w (saveSettings primary lan ++ [ProbeSettles caller i x])).
Proof.
  intros (r & Hp & Hres & Hs & Hin & Hu) Hne Hh.
  pose proof (probeSettles_success r i x u Hres Hs Hin Hu Hne Hh) as Hwin.
  assert (Htr : truthy_string u = true) by (apply truthy_string_iff; exact Hne).
  cbn [saveSettings app run foldl step].
  set (w1 := resetResolver (configure primary lan w)).
  assert (Hp1 : passes w1 !! caller = Some (Racing r)) by exact Hp.
  unfold probeDone. rewrite Hp1, Hwin.
  destruct (finishPass_activeUrl caller (probeSettles i x r) (Some u) w1) as [Ha Hst].
  cbn [truthy] in Ha. rewrite Htr in Ha, Hst.
  destruct (finishPass_settings caller (probeSettles i x r) (Some u) w1) as [Hsu Hlu].
  split; [rewrite Hsu; reflexivity|]. split; [rewrite Hlu; reflexivity|].
  split; [reflexivity|].
  split; [exact Ha|]. split; [rewrite Hst; apply lookup_insert_eq|].
  unfold getResolvedServerUrl. rewrite Ha, Htr. reflexivity.
Qed.

Lemma pass_in_flight_survives_reset_witness :
  activeUrl (run lanProbeInFlight
               (saveSettings "https://new.example" None
                  ++ [ProbeSettles 0 1 (welcomes 120)]))
    = Some "https://good.example"%string /\
  serverUrl (run lanProbeInFlight
               (saveSettings "https://new.example" None
                  ++ [ProbeSettles 0 1 (welcomes 120)]))
    = "https://new.example"%string.
Proof.
  destruct (pass_in_flight_survives_reset lanProbeInFlight 0 1
              "https://good.example" (welcomes 120) "https://new.example" None)
    as (Hs & _ & _ & Ha & _).
  - eexists. split; [reflexivity|]. split; [reflexivity|]. split; [reflexivity|].
    split; [|reflexivity]. vm_compute. left.
  - discriminate.
  - apply welcomes_healthy. lia.
  - split; [exact Ha | exact Hs].
Defined.


Lemma storeAgrees_boot (primary : string) (lan : option string)
    (store : gmap string string) :
  storeAgrees (boot primary lan store).
Proof. intros u Hu _. exact Hu. Qed.

Lemma storeAgrees_step (w : World) (e : Event) :
  storeAgrees w -> storeAgrees (step w e).
Proof.
  intros Hinv. destruct e as [| | |now|primary lan|caller|caller i x]; cbn [step].
  - exact Hinv.
  - unfold getResolvedServerUrl, coldStart.
    destruct (activeUrl w) as [a|] eqn:Ha.
    + destruct (truthy_string a) eqn:Htr; [exact Hinv|].
      intros u Hu Hne. cbn in Hu. specialize (Hinv u Hu Hne).
      rewrite Ha in Hinv. injection Hinv as ->.
      apply truthy_string_iff in Hne. congruence.
    + intros u Hu Hne. cbn in Hu. specialize (Hinv u Hu Hne). congruence.
  - intros u Hu _. cbn in Hu. rewrite lookup_delete_eq in Hu. discriminate.
  - unfold notifyConnectionFailed.
    destruct (now - lastFailureNotification w <? FAILURE_DEBOUNCE_MS); exact Hinv.
  - exact Hinv.
  - unfold startPass. destruct (passes w !! caller) as [[| |r|r]|]; exact Hinv.
  - unfold probeDone. destruct (passes w !! caller) as [[| |r|r]|]; try exact Hinv.
    destruct (resolved (probeSettles i x r)) as [winner|]; [|exact Hinv].
    destruct (finishPass_activeUrl caller (probeSettles i x r) winner w) as [Ha Hst].
    intros u Hu Hne. rewrite Ha. rewrite Hst in Hu.
    destruct winner as [v|]; cbn [truthy]; [|apply Hinv; assumption].
    destruct (truthy_string v); [|apply Hinv; assumption].
    rewrite lookup_insert_eq in Hu. exact Hu.
Qed.

Lemma storeAgrees_run (es : list Event) :
  forall w, storeAgrees w -> storeAgrees (run w es).
Proof.
  induction es as [|e es IH]; intros w H; [exact H|].
  rewrite run_cons. apply IH. apply storeAgrees_step. exact H.
Qed.

(** X6.  In every world the resolver can reach, a non-empty persisted
    record is the Active URL held in memory, so [getResolvedServerUrl()]
    returns the same URL before and after a restart of the process. *)
Theorem persisted_url_is_active (primary : string) (lan : option string)
    (store : gmap string string) (es : list Event) (u : string) :
  resolverStorage (run (boot primary lan store) es) !! ACTIVE_URL_KEY = Some u ->
  u <> EmptyString ->
  activeUrl (run (boot primary lan store) es) = Some u /\
  fst (getResolvedServerUrl (run (boot primary lan store) es)) = u /\
  getResolvedServerUrl (restart (run (boot primary lan store) es))
    = (u, restart (run (boot primary lan store) es)).
Proof.
  intros Hu Hne.
  pose proof (storeAgrees_run es _ (storeAgrees_boot primary lan store) u Hu Hne) as Ha.
  assert (Htr : truthy_string u = true) by (apply truthy_string_iff; exact Hne).
  split; [exact Ha|]. unfold getResolvedServerUrl.
  split; [rewrite Ha, Htr; reflexivity|].
  assert (Hb : activeUrl (restart (run (boot primary lan store) es)) = Some u)
    by exact Hu.
  rewrite Hb, Htr. reflexivity.
Qed.

Lemma persisted_url_is_active_witness :
  activeUrl (run (boot "https://bad.example" (Some "https://good.example"%string) ∅)
                 (CallResolveNow :: passEvents 0 badThenGood [0; 1]%nat))
    = Some "https://good.example"%string.
Proof.
  apply (persisted_url_is_active "https://bad.example"
           (Some "https://good.example"%string) ∅
           (CallResolveNow :: passEvents 0 badThenGood [0; 1]%nat)
           "https://good.example").
  - vm_compute. reflexivity.
  - discriminate.
Defined.

(** *** The LAN indicator *)

Lemma probeDone_settings (caller i : nat) (x : Exchange) (w : World) :
  serverUrl (probeDone caller i x w) = serverUrl w /\
  manualLanUrl (probeDone caller i x w) = manualLanUrl w.
Proof.
  unfold probeDone. destruct (passes w !! caller) as [[| |r|r]|]; try (split; reflexivity).
  destruct (resolved (probeSettles i x r)) as [[u|]|]; try (split; reflexivity).
  unfold finishPass, unlock, adoptWinner. destruct (truthy_string u); split; reflexivity.
Qed.

Lemma settleAll_settings (caller : nat) (xs : nat -> Exchange) (order : list nat) :
  forall w, serverUrl (run w (settleAll caller xs order)) = serverUrl w /\
            manualLanUrl (run w (settleAll caller xs order)) = manualLanUrl w.
Proof.
  induction order as [|i order IH]; intros w; [split; reflexivity|].
  rewrite settleAll_cons, run_cons. cbn [step].
  destruct (IH (probeDone caller i (xs i) w)) as [-> ->].
  apply probeDone_settings.
Qed.

(** X7.  After a pass that a probe won, [isUsingLanUrl()] tells whether the
    winner is the configured LAN URL: it is [true] when the LAN candidate
    won and [false] when the primary URL won and the LAN URL differs from
    it. *)
Theorem isUsingLanUrl_after_pass (w : World) (caller : nat)
    (xs : nat -> Exchange) (pre post : list nat) (j : nat) (u : string) :
  passes w !! caller = Some Granted ->
  serverUrl w <> EmptyString ->
  NoDup (pre ++ j :: post) ->
  Forall (fun i => (i < length (buildCandidates (serverUrl w) (manualLanUrl w)))%nat)
         (pre ++ j :: post) ->
  buildCandidates (serverUrl w) (manualLanUrl w) !! j = Some u ->
  healthy (xs j) 3000 ->
  (forall i, i ∈ pre -> ~ healthy (xs i) 3000) ->
  isUsingLanUrl (run w (passEvents caller xs (pre ++ j :: post)))
    = bool_decide (manualLanUrl w = Some u) /\
  (j = 1%nat -> isUsingLanUrl (run w (passEvents caller xs (pre ++ j :: post))) = true) /\
  (j = 0%nat -> manualLanUrl w <> Some (serverUrl w) ->
     isUsingLanUrl (run w (passEvents caller xs (pre ++ j :: post))) = false).
Proof.
  intros Hp Hprimary Hnd Hall Hj Hh Hpre.
  destruct (granted_pass w caller xs (pre ++ j :: post) Hp Hprimary Hnd Hall) as [Hwin _].
  destruct (Hwin pre j post u eq_refl Hj Hh Hpre) as [Ha _].
  assert (Htr : truthy_string u = true).
  { apply (buildCandidates_truthy (serverUrl w) (manualLanUrl w)); [exact Hprimary|].
    apply list_elem_of_lookup_2 with j. exact Hj. }
  assert (Hlan : manualLanUrl (run w (passEvents caller xs (pre ++ j :: post)))
                 = manualLanUrl w).
  { unfold passEvents. rewrite run_cons. cbn [step].
    destruct (settleAll_settings caller xs (pre ++ j :: post) (startPass caller w))
      as [_ ->].
    unfold startPass. rewrite Hp. reflexivity. }
  assert (Heq : isUsingLanUrl (run w (passEvents caller xs (pre ++ j :: post)))
                = bool_decide (manualLanUrl w = Some u)).
  { unfold isUsingLanUrl. rewrite Ha, Hlan. cbn [truthy]. rewrite Htr.
    destruct (manualLanUrl w) as [l|].
    - apply bool_decide_ext. split; congruence.
    - symmetry. apply bool_decide_eq_false_2. discriminate. }
  split; [exact Heq|]. rewrite Heq. split.
  - intros ->. apply bool_decide_eq_true_2.
    revert Hj. unfold buildCandidates.
    destruct (manualLanUrl w) as [l|]; [|discriminate].
    destruct (truthy_string l && negb (bool_decide (l = serverUrl w)));
      [|discriminate].
    cbn. congruence.
  - intros -> Hdiff. apply bool_decide_eq_false_2.
    assert (u = serverUrl w) as ->.
    { revert Hj. unfold buildCandidates.
      destruct (manualLanUrl w) as [l|]; [|cbn; congruence].
      destruct (truthy_string l && negb (bool_decide (l = serverUrl w)));
        cbn; congruence. }
    exact Hdiff.
Qed.

Lemma isUsingLanUrl_after_pass_witness :
  isUsingLanUrl (run twoCandidates (passEvents 0 badThenGood ([0%nat] ++ 1%nat :: [])))
    = true.
Proof.
  destruct (isUsingLanUrl_after_pass twoCandidates 0 badThenGood [0%nat] [] 1
              "https://good.example") as (_ & H & _).
  - reflexivity.
  - discriminate.
  - exact (NoDup_seq 0 2).
  - repeat constructor.
  - reflexivity.
  - apply welcomes_healthy. lia.
  - intros i Hi. apply list_elem_of_singleton in Hi as ->. exact timesOut_unhealthy.
  - apply H. reflexivity.
Defined.

(** *** Failure notifications that are not debounced *)





(** *** Probes whose body may never arrive *)

Lemma probeUrlOn_arrives (url : string) (timeoutMs : Z) (n : Traffic) :
  bodyArrives n = true ->
  probeUrlOn url timeoutMs n = Some (probeUrl url timeoutMs (exchange n)).
Proof.
  intros Hb. unfold probeUrlOn, probeUrl, readBody. rewrite Hb.
  destruct (fetch (exchange n) timeoutMs) as [r|e]; cbn; [|reflexivity].
  destruct (ok r); cbn; [|reflexivity].
  destruct (text r) as [body|e]; cbn; [|reflexivity].
  destruct (includes body SERVER_MARKER); reflexivity.
Qed.

Lemma headOk_fetch (x : Exchange) (timeoutMs : Z) :
  headOk x timeoutMs <-> exists r, fetch x timeoutMs = Fulfilled r /\ ok r = true.
Proof.
  unfold headOk. split.
  - intros (t & r & Hl & Hlt & Ho & Hok). exists r.
    split; [apply fetch_in_time; eauto | exact Hok].
  - intros (r & Hf & Hok). apply fetch_in_time in Hf as (t & Hl & Hlt & Ho).
    exists t, r. auto.
Qed.

Lemma healthy_headOk (x : Exchange) (timeoutMs : Z) :
  healthy x timeoutMs -> headOk x timeoutMs.
Proof.
  intros (t & r & body & Hl & Hlt & Ho & Hok & _). exists t, r. auto.
Qed.

Lemma probeUrlOn_stalls (url : string) (timeoutMs : Z) (n : Traffic) :
  bodyArrives n = false ->
  (headOk (exchange n) timeoutMs /\ probeUrlOn url timeoutMs n = None) \/
  (~ headOk (exchange n) timeoutMs /\
   probeUrlOn url timeoutMs n = Some (Fulfilled None)).
Proof.
  intros Hb. unfold probeUrlOn, readBody. rewrite Hb.
  destruct (fetch (exchange n) timeoutMs) as [r|e] eqn:Hf; cbn.
  - destruct (ok r) eqn:Hok; cbn.
    + left. split; [apply headOk_fetch; eauto | reflexivity].
    + right. split; [|reflexivity].
      intros H. apply headOk_fetch in H as (r' & Hf' & Hok'). congruence.
  - right. split; [|reflexivity].
    intros H. apply headOk_fetch in H as (r' & Hf' & _). congruence.
Qed.

Lemma probeUrlOn_success (url : string) (timeoutMs : Z) (n : Traffic) :
  probeUrlOn url timeoutMs n = Some (Fulfilled (Some url)) <-> succeeds n timeoutMs.
Proof.
  unfold succeeds. destruct (bodyArrives n) eqn:Hb.
  - rewrite (probeUrlOn_arrives url timeoutMs n Hb). split.
    + intros [= H]. split; [reflexivity | apply (probeUrl_success url); exact H].
    + intros [_ H]. f_equal. apply probeUrl_success. exact H.
  - split; [|intros [H _]; discriminate].
    destruct (probeUrlOn_stalls url timeoutMs n Hb) as [[_ ->]|[_ ->]]; discriminate.
Qed.

Lemma probeUrlOn_pending (url : string) (timeoutMs : Z) (n : Traffic) :
  probeUrlOn url timeoutMs n = None <-> hangs n timeoutMs.
Proof.
  unfold hangs. destruct (bodyArrives n) eqn:Hb.
  - rewrite (probeUrlOn_arrives url timeoutMs n Hb).
    split; [discriminate | intros [H _]; discriminate].
  - destruct (probeUrlOn_stalls url timeoutMs n Hb) as [[Hh ->]|[Hh ->]].
    + split; auto.
    + split; [discriminate | intros [_ H]; contradiction].
Qed.

Lemma probeUrlOn_total (url : string) (timeoutMs : Z) (n : Traffic) :
  probeUrlOn url timeoutMs n = Some (Fulfilled (Some url)) \/
  probeUrlOn url timeoutMs n = Some (Fulfilled None) \/
  probeUrlOn url timeoutMs n = None.
Proof.
  destruct (bodyArrives n) eqn:Hb.
  - rewrite (probeUrlOn_arrives url timeoutMs n Hb).
    destruct (probeUrl_total url timeoutMs (exchange n)) as [-> | ->]; auto.
  - destruct (probeUrlOn_stalls url timeoutMs n Hb) as [[_ ->]|[_ ->]]; auto.
Qed.




(** *** Passes one after the other *)

(** What the two calls of the scenario have become: the first has left
    [inLock] with the probe of its primary URL still out, and the second is
    awaiting a race of its own over the same two candidates. *)
Example second_call_races_with_first_probe_out :
  passes (run twoCallers lanWinsThenNextPass)
  = [Finished {| candidates := ["https://bad.example"; "https://good.example"]%string;
                 settled := true; pending := 2; inflight := [0%nat];
                 resolved := Some (Some "https://good.example"%string) |};
     Racing (raceProbes ["https://bad.example"; "https://good.example"]%string)] /\
  passes twoCallers !! 1%nat = Some Queued.
Proof. split; vm_compute; reflexivity. Qed.



End ResolverFacts.

(** ** Facts about the socket client *)

Module ApiSocketFacts.
Import ApiSocket JsFacts.

(** *** Status listeners *)

Lemma quietly_refl (w : World) : quietly w w.
Proof.
  split; [reflexivity|]. split; [reflexivity|].
  exists []. rewrite app_nil_r. split; reflexivity.
Qed.

Lemma quietly_trans (w1 w2 w3 : World) :
  quietly w1 w2 -> quietly w2 w3 -> quietly w1 w3.
Proof.
  intros (Hl & Hs & es & He & Hq) (Hl' & Hs' & es' & He' & Hq').
  split; [congruence|]. split; [congruence|].
  exists (es ++ es'). rewrite He', He, app_assoc. split; [reflexivity|].
  rewrite forallb_app, Hq, Hq'. reflexivity.
Qed.

Lemma statusesSeen_quiet (listener : nat) (es : list Effect) :
  forallb quiet es = true -> statusesSeen listener es = [].
Proof.
  induction es as [|e es IH]; [reflexivity|].
  cbn [forallb]. intros [He Hes]%andb_true_iff.
  unfold statusesSeen. cbn [omap list_omap]. fold (statusesSeen listener es).
  destruct e; try discriminate; cbn; apply IH; exact Hes.
Qed.

Lemma informed_quietly (w w' : World) : quietly w w' -> informed w -> informed w'.
Proof.
  intros (Hl & Hs & es & He & Hq) Hinf l Hin.
  rewrite Hl in Hin. rewrite Hs, He. unfold lastStatusSeen, statusesSeen.
  rewrite omap_app. fold (statusesSeen l es) (statusesSeen l (effects w)).
  rewrite (statusesSeen_quiet l es Hq), app_nil_r. apply Hinf. exact Hin.
Qed.

Lemma lastStatusSeen_notified (listener : nat) (status : Status)
    (ls : list nat) (es : list Effect) :
  listener ∈ ls ->
  lastStatusSeen listener
    (es ++ map (fun l => StatusListenerCalled l status) ls) = Some status.
Proof.
  intros Hin. unfold lastStatusSeen, statusesSeen. rewrite omap_app, last_app.
  fold (statusesSeen listener (map (fun l => StatusListenerCalled l status) ls)).
  assert (H : last (statusesSeen listener
                     (map (fun l => StatusListenerCalled l status) ls))
              = Some status).
  { induction ls as [|l ls IH] using rev_ind; [apply elem_of_nil in Hin; contradiction|].
    rewrite map_app. unfold statusesSeen. rewrite omap_app, last_app. cbn.
    destruct (decide (l = listener)) as [->|Hne].
    - rewrite bool_decide_eq_true_2 by reflexivity. reflexivity.
    - rewrite bool_decide_eq_false_2 by exact Hne. cbn.
      apply IH. apply elem_of_app in Hin as [Hin|Hin]; [exact Hin|].
      apply list_elem_of_singleton in Hin. congruence. }
  rewrite H. reflexivity.
Qed.

Lemma informed_updateStatus (status : Status) (w : World) :
  informed w -> informed (updateStatus status w).
Proof.
  intros Hinf. unfold updateStatus. case_bool_decide as Hne; [|exact Hinf].
  intros l Hin. cbn in Hin |- *. apply lastStatusSeen_notified. exact Hin.
Qed.

Lemma quietly_perform (es : list Effect) (w : World) :
  forallb quiet es = true -> quietly w (perform es w).
Proof.
  intros Hq. split; [reflexivity|]. split; [reflexivity|].
  exists es. split; [reflexivity | exact Hq].
Qed.

Lemma quietly_same_effects (w w' : World) :
  statusListeners (this w') = statusListeners (this w) ->
  currentStatus (this w') = currentStatus (this w) ->
  effects w' = effects w ->
  quietly w w'.
Proof.
  intros Hl Hs He. split; [exact Hl|]. split; [exact Hs|].
  exists []. rewrite app_nil_r. split; [exact He | reflexivity].
Qed.

Lemma quietly_setCall (call : nat) (c : Call) (w : World) :
  quietly w (setCall call c w).
Proof. apply quietly_same_effects; reflexivity. Qed.

Lemma quietly_setSocketObj (sock : nat) (o : SocketObj) (w : World) :
  quietly w (setSocketObj sock o w).
Proof. apply quietly_same_effects; reflexivity. Qed.

Lemma quietly_waitForConnection (call : nat) (timeoutMs : Z) (k : Async) (w : World) :
  quietly w (waitForConnection call timeoutMs k w).
Proof.
  unfold waitForConnection. destruct (socketConnected w); [apply quietly_setCall|].
  destruct (socket (this w)); apply quietly_setCall.
Qed.

Lemma quietly_drive (call : nat) (p : Async) : forall w, quietly w (drive call p w).
Proof.
  induction p as [v|e|k IH|t k IH|d c v k IH|sock event data k IH]; intros w;
    cbn [drive].
  - apply quietly_setCall.
  - apply quietly_setCall.
  - apply IH.
  - apply quietly_waitForConnection.
  - eapply quietly_trans; [apply (quietly_perform [CipherCalled call d c v]); reflexivity|].
    apply quietly_setCall.
  - eapply quietly_trans;
      [apply (quietly_perform [SocketEmitWithAck call sock event data]); reflexivity|].
    apply quietly_setCall.
Qed.

Lemma quietly_invoke (p : Async) (w : World) : quietly w (invoke p w).
Proof.
  unfold invoke. eapply quietly_trans; [|apply quietly_drive].
  apply quietly_same_effects; reflexivity.
Qed.

Lemma quietly_cleanupNetworkListener (w : World) :
  quietly w (cleanupNetworkListener w).
Proof.
  unfold cleanupNetworkListener. destruct (networkSubscription (this w));
    [|apply quietly_refl].
  split; [reflexivity|]. split; [reflexivity|].
  exists [NetworkListenerRemoved]. split; reflexivity.
Qed.

Lemma quietly_setupNetworkListener (w : World) :
  quietly w (setupNetworkListener w).
Proof.
  unfold setupNetworkListener.
  eapply quietly_trans; [apply quietly_cleanupNetworkListener|].
  split; [reflexivity|]. split; [reflexivity|].
  exists [NetworkListenerAdded]. split; reflexivity.
Qed.

Lemma quietly_socketDisconnect (sock : nat) (w : World) :
  quietly w (socketDisconnect sock w).
Proof.
  unfold socketDisconnect. destruct (sockets w !! sock); [|apply quietly_refl].
  split; [reflexivity|]. split; [reflexivity|].
  exists [SocketDisconnect sock]. split; reflexivity.
Qed.

Lemma informed_connect (w : World) : informed w -> informed (connect w).
Proof.
  intros Hinf. unfold connect.
  destruct (config (this w)) as [cfg|]; [|exact Hinf].
  destruct (socket (this w)); [exact Hinf|].
  eapply informed_quietly; [apply quietly_setupNetworkListener|].
  eapply informed_quietly; [|apply (informed_updateStatus connecting); exact Hinf].
  split; [reflexivity|]. split; [reflexivity|].
  eexists. split; [reflexivity|]. reflexivity.
Qed.

Lemma informed_disconnect (w : World) : informed w -> informed (disconnect w).
Proof.
  intros Hinf. unfold disconnect. apply informed_updateStatus.
  eapply informed_quietly; [|exact Hinf].
  eapply quietly_trans; [apply quietly_cleanupNetworkListener|].
  destruct (socket (this (cleanupNetworkListener w))) as [sock|]; [|apply quietly_refl].
  eapply quietly_trans; [apply quietly_socketDisconnect|].
  apply quietly_same_effects; reflexivity.
Qed.

Lemma informed_onStatusChange (listener : nat) (w : World) :
  informed w -> informed (onStatusChange listener w).
Proof.
  intros Hinf l Hin. unfold onStatusChange in *. cbn in Hin |- *.
  unfold lastStatusSeen, statusesSeen. rewrite omap_app, last_app. cbn.
  destruct (decide (listener = l)) as [->|Hne].
  - rewrite bool_decide_eq_true_2 by reflexivity. reflexivity.
  - rewrite bool_decide_eq_false_2 by exact Hne. cbn. apply Hinf.
    unfold setAdd in Hin. case_bool_decide; [exact Hin|].
    apply elem_of_app in Hin as [Hin|Hin]; [exact Hin|].
    apply list_elem_of_singleton in Hin. congruence.
Qed.

Lemma informed_offStatusChange (listener : nat) (w : World) :
  informed w -> informed (offStatusChange listener w).
Proof.
  intros Hinf l Hin. unfold offStatusChange in *. cbn in Hin |- *.
  apply Hinf. unfold setDelete in Hin. apply list_elem_of_filter in Hin. tauto.
Qed.

Lemma informed_step (w : World) (e : Event) : informed w -> informed (step w e).
Proof.
  intros Hinf. destruct e; cbn [step].
  - unfold initialize. apply informed_connect.
    eapply informed_quietly; [|exact Hinf]. apply quietly_same_effects; reflexivity.
  - apply informed_connect. exact Hinf.
  - apply informed_disconnect. exact Hinf.
  - unfold ensureConnected. destruct (socket (this w)) as [sock|].
    + destruct (negb (socketConnected w)); [|exact Hinf].
      eapply informed_quietly; [|exact Hinf].
      apply (quietly_perform [SocketConnect sock]). reflexivity.
    + destruct (config (this w)); [apply informed_connect|]; exact Hinf.
  - apply informed_onStatusChange. exact Hinf.
  - apply informed_offStatusChange. exact Hinf.
  - eapply informed_quietly; [|exact Hinf]. apply quietly_same_effects; reflexivity.
  - eapply informed_quietly; [|exact Hinf]. apply quietly_same_effects; reflexivity.
  - eapply informed_quietly; [|exact Hinf]. apply quietly_same_effects; reflexivity.
  - eapply informed_quietly; [|exact Hinf]. apply quietly_same_effects; reflexivity.
  - unfold send. destruct (socket (this w)) as [sock|]; [|exact Hinf].
    destruct (socketConnected w); [|exact Hinf]. cbn [snd].
    eapply informed_quietly; [|exact Hinf].
    apply (quietly_perform [SocketEmit sock event data]). reflexivity.
  - unfold updateToken. destruct (config (this w)) as [cfg|]; [|exact Hinf].
    case_bool_decide; [|exact Hinf].
    match goal with |- informed (match socket (this ?w1) with _ => _ end) =>
      assert (Hinf1 : informed w1)
        by (eapply informed_quietly; [|exact Hinf];
            apply quietly_same_effects; reflexivity);
      destruct (socket (this w1)) end.
    + apply informed_connect, informed_disconnect. exact Hinf1.
    + exact Hinf1.
  - eapply informed_quietly; [apply quietly_invoke | exact Hinf].
  - eapply informed_quietly; [apply quietly_invoke | exact Hinf].
  - eapply informed_quietly; [apply quietly_invoke | exact Hinf].
  - unfold registryChanges. destruct (encryption (this w)); [|exact Hinf].
    eapply informed_quietly; [|exact Hinf]. apply quietly_same_effects; reflexivity.
  - unfold onSocketConnect. destruct (sockets w !! sock); [|exact Hinf].
    match goal with |- informed {| this := this ?w3; sockets := _; calls := _;
                                   clock := _; effects := effects ?w3 |} =>
      assert (Hinf3 : informed w3) end.
    { match goal with |- informed (if _ then perform ?es ?w2 else _) =>
        assert (Hinf2 : informed w2)
      end.
      { apply informed_updateStatus.
        eapply informed_quietly; [apply quietly_setSocketObj | exact Hinf]. }
      destruct (negb _); [|exact Hinf2].
      eapply informed_quietly; [|exact Hinf2]. apply quietly_perform.
      induction (reconnectedListeners _); [reflexivity | assumption]. }
    eapply informed_quietly; [|exact Hinf3]. apply quietly_same_effects; reflexivity.
  - unfold onSocketDisconnect. destruct (sockets w !! sock); [|exact Hinf].
    apply informed_updateStatus.
    eapply informed_quietly; [apply quietly_setSocketObj | exact Hinf].
  - unfold onSocketError. destruct (sockets w !! sock); [|exact Hinf].
    apply informed_updateStatus. exact Hinf.
  - unfold onSocketError. destruct (sockets w !! sock); [|exact Hinf].
    apply informed_updateStatus. exact Hinf.
  - unfold onSocketAny. destruct (sockets w !! sock); [|exact Hinf].
    destruct (messageHandlers (this w) !! event) as [h|]; [|exact Hinf].
    eapply informed_quietly; [|exact Hinf].
    apply (quietly_perform [MessageHandlerCalled h data]). reflexivity.
  - unfold onNetworkState. destruct (networkSubscription (this w)); [|exact Hinf].
    destruct (_ && _); [|exact Hinf].
    destruct (socket (this w)) as [sock|]; [|exact Hinf].
    destruct (negb (socketConnected w)); [|exact Hinf].
    eapply informed_quietly; [|exact Hinf].
    eapply quietly_trans; [apply quietly_socketDisconnect|].
    apply (quietly_perform [SocketConnect sock]). reflexivity.
  - unfold resume. destruct (calls w !! call) as [[k| | | |]|]; try exact Hinf.
    eapply informed_quietly; [apply quietly_drive | exact Hinf].
  - unfold cipherSettles. destruct (calls w !! call) as [[| |k| |]|]; try exact Hinf.
    eapply informed_quietly; [|exact Hinf]. unfold settleAwaited.
    destruct r; [apply quietly_drive | apply quietly_setCall].
  - unfold ackSettles. destruct (calls w !! call) as [[| | |k|]|]; try exact Hinf.
    eapply informed_quietly; [|exact Hinf]. unfold settleAwaited.
    destruct r; [apply quietly_drive | apply quietly_setCall].
  - unfold elapse. destruct (0 <=? dt); [|exact Hinf].
    eapply informed_quietly; [|exact Hinf]. apply quietly_same_effects; reflexivity.
Qed.

Lemma client_run_cons (w : World) (e : Event) (es : list Event) :
  run w (e :: es) = run (step w e) es.
Proof. reflexivity. Qed.

Lemma client_run_snoc (w : World) (es : list Event) (e : Event) :
  run w (es ++ [e]) = step (run w es) e.
Proof. unfold run. rewrite foldl_app. reflexivity. Qed.

Lemma informed_reachable (es : list Event) : informed (run fresh es).
Proof.
  induction es as [|e es IH] using rev_ind.
  - intros l Hl. cbn in Hl. apply elem_of_nil in Hl. contradiction.
  - rewrite client_run_snoc. apply informed_step. exact IH.
Qed.

(** C8.  [onStatusChange(listener)] registers the listener and, in the
    same call, calls it with the current status; in particular a listener
    registered while the status is [connected] is called with [connected] at
    once.  [updateStatus], the only place where the status is assigned, calls
    every registered listener with the new status in the same call whenever
    the status changes.  Hence in every world the client can reach, the last
    status each registered listener was called with is the current one. *)
Theorem status_listeners_notified (w : World) (listener : nat) (status : Status)
    (es : list Event) :
  (effects (onStatusChange listener w)
     = effects w ++ [StatusListenerCalled listener (currentStatus (this w))] /\
   listener ∈ statusListeners (this (onStatusChange listener w)) /\
   currentStatus (this (onStatusChange listener w)) = currentStatus (this w)) /\
  (currentStatus (this w) = connected ->
   effects (onStatusChange listener w)
     = effects w ++ [StatusListenerCalled listener connected]) /\
  (currentStatus (this w) <> status ->
   currentStatus (this (updateStatus status w)) = status /\
   effects (updateStatus status w)
     = effects w ++ map (fun l => StatusListenerCalled l status)
                        (statusListeners (this w))) /\
  informed (run fresh es).
Proof.
  split; [|split; [|split]].
  - unfold onStatusChange. cbn. split; [reflexivity|]. split; [|reflexivity].
    unfold setAdd. case_bool_decide as Hin; [exact Hin|].
    apply elem_of_app. right. apply list_elem_of_singleton. reflexivity.
  - intros Hc. unfold onStatusChange. cbn. rewrite Hc. reflexivity.
  - intros Hne. unfold updateStatus. rewrite bool_decide_eq_true_2 by exact Hne.
    cbn. split; reflexivity.
  - apply informed_reachable.
Qed.

(** The token-rotation scenario of the design document: a listener that
    subscribes while connected sees [connected] at once, then the cycle
    [disconnected], [connecting], [connected]. *)
Example token_rotation_cycle :
  statusesSeen 7
    (effects (run online [OnStatusChange 7; UpdateToken "t2"; SocketConnects 1 false]))
  = [connected; disconnected; connecting; connected].
Proof. vm_compute. reflexivity. Qed.

Lemma status_listeners_notified_witness :
  effects (onStatusChange 7 online)
    = effects online ++ [StatusListenerCalled 7 connected].
Proof.
  exact (proj1 (proj2 (status_listeners_notified online 7 connected [])) eq_refl).
Defined.

(** *** Calls without an encryption context *)

Lemma insert_last {A} (l : list A) (x y : A) :
  <[length l := y]> (l ++ [x]) = l ++ [y].
Proof.
  rewrite insert_app_r_alt by lia. rewrite Nat.sub_diag. reflexivity.
Qed.

Lemma invoke_throws (w : World) (k : ApiSocket -> Async) (e : JsError) :
  k (this w) = Throw e -> rejectedAtOnce w (invoke (Read k) w) e.
Proof.
  intros Hk. unfold invoke, rejectedAtOnce. cbn [drive this]. rewrite Hk.
  cbn. rewrite insert_last. repeat split.
Qed.

(** C2 (amended).  With the client initialised, [sessionRPC] for a session
    without a session cipher, and [machineRPC] for a machine without a
    machine cipher, reject at once with the error naming the missing
    encryption: the call never enters [waitForConnection], nothing is
    emitted, and the fields, the sockets and the clock are as before.
    Before [initialize] there is no registry at all, and the same calls
    reject at once with a [TypeError] instead, equally without any
    effect. *)
Theorem rpc_without_cipher_rejects (w : World) (peerId method : string)
    (params : Value) :
  (forall e, encryption (this w) = Some e ->
     getSessionEncryption e peerId = None ->
     rejectedAtOnce w (step w (CallSessionRPC peerId method params))
       (Error ("Session encryption not found for " +:+ peerId))) /\
  (forall e, encryption (this w) = Some e ->
     getMachineEncryption e peerId = None ->
     rejectedAtOnce w (step w (CallMachineRPC peerId method params))
       (Error ("Machine encryption not found for " +:+ peerId))) /\
  (encryption (this w) = None ->
     rejectedAtOnce w (step w (CallSessionRPC peerId method params)) TypeError /\
     rejectedAtOnce w (step w (CallMachineRPC peerId method params)) TypeError).
Proof.
  split; [|split].
  - intros e He Hnone. cbn [step]. apply invoke_throws. rewrite He, Hnone. reflexivity.
  - intros e He Hnone. cbn [step]. apply invoke_throws. rewrite He, Hnone. reflexivity.
  - intros He. split; cbn [step]; apply invoke_throws; rewrite He; reflexivity.
Qed.

Lemma rpc_without_cipher_rejects_witness :
  rejectedAtOnce online (step online (CallSessionRPC "S9" "bash" VNull))
    (Error "Session encryption not found for S9") /\
  rejectedAtOnce online (step online (CallMachineRPC "M9" "bash" VNull))
    (Error "Machine encryption not found for M9").
Proof.
  split.
  - exact (proj1 (rpc_without_cipher_rejects online "S9" "bash" VNull)
                 sampleEncryption eq_refl eq_refl).
  - exact (proj1 (proj2 (rpc_without_cipher_rejects online "M9" "bash" VNull))
                 sampleEncryption eq_refl eq_refl).
Defined.

(** *** What an event does to a pending call *)

Lemma clientEffect_status (status : Status) (ls : list nat) :
  forallb clientEffect (map (fun l => StatusListenerCalled l status) ls) = true.
Proof. induction ls; [reflexivity | assumption]. Qed.

Lemma clientEffect_reconnected (ls : list nat) :
  forallb clientEffect (map ReconnectedListenerCalled ls) = true.
Proof. induction ls; [reflexivity | assumption]. Qed.

Lemma syncChange_refl (w : World) : syncChange w w.
Proof.
  split; [split; reflexivity|].
  exists []. rewrite app_nil_r. split; reflexivity.
Qed.

Lemma syncChange_trans (w1 w2 w3 : World) :
  syncChange w1 w2 -> syncChange w2 w3 -> syncChange w1 w3.
Proof.
  intros [[Hc Hk] (es & He & Hq)] [[Hc' Hk'] (es' & He' & Hq')].
  split; [split; congruence|].
  exists (es ++ es'). rewrite He', He, app_assoc. split; [reflexivity|].
  rewrite forallb_app, Hq, Hq'. reflexivity.
Qed.

Lemma syncChange_perform (es : list Effect) (w : World) :
  forallb clientEffect es = true -> syncChange w (perform es w).
Proof.
  intros Hq. split; [split; reflexivity|]. exists es. split; [reflexivity | exact Hq].
Qed.

Lemma syncChange_setThis (f : ApiSocket -> ApiSocket) (w : World) :
  syncChange w (setThis f w).
Proof.
  split; [split; reflexivity|].
  exists []. cbn. rewrite app_nil_r. split; reflexivity.
Qed.

Lemma syncChange_setSocketObj (sock : nat) (o : SocketObj) (w : World) :
  syncChange w (setSocketObj sock o w).
Proof.
  split; [split; reflexivity|].
  exists []. cbn. rewrite app_nil_r. split; reflexivity.
Qed.

Lemma syncChange_updateStatus (status : Status) (w : World) :
  syncChange w (updateStatus status w).
Proof.
  unfold updateStatus. case_bool_decide; [|apply syncChange_refl].
  eapply syncChange_trans; [apply syncChange_setThis|].
  apply syncChange_perform, clientEffect_status.
Qed.

Lemma syncChange_cleanupNetworkListener (w : World) :
  syncChange w (cleanupNetworkListener w).
Proof.
  unfold cleanupNetworkListener.
  destruct (networkSubscription (this w)); [|apply syncChange_refl].
  eapply syncChange_trans; [|apply syncChange_setThis].
  apply (syncChange_perform [NetworkListenerRemoved]). reflexivity.
Qed.

Lemma syncChange_setupNetworkListener (w : World) :
  syncChange w (setupNetworkListener w).
Proof.
  unfold setupNetworkListener.
  eapply syncChange_trans; [apply syncChange_cleanupNetworkListener|].
  eapply syncChange_trans; [|apply syncChange_setThis].
  apply (syncChange_perform [NetworkListenerAdded]). reflexivity.
Qed.

Lemma syncChange_socketDisconnect (sock : nat) (w : World) :
  syncChange w (socketDisconnect sock w).
Proof.
  unfold socketDisconnect. destruct (sockets w !! sock); [|apply syncChange_refl].
  eapply syncChange_trans; [apply syncChange_setSocketObj|].
  apply (syncChange_perform [SocketDisconnect sock]). reflexivity.
Qed.

Lemma syncChange_connect (w : World) : syncChange w (connect w).
Proof.
  unfold connect. destruct (config (this w)) as [cfg|]; [|apply syncChange_refl].
  destruct (socket (this w)); [apply syncChange_refl|].
  eapply syncChange_trans; [apply (syncChange_updateStatus connecting)|].
  eapply syncChange_trans; [|apply syncChange_setupNetworkListener].
  split; [split; reflexivity|]. eexists. split; reflexivity.
Qed.

Lemma syncChange_disconnect (w : World) : syncChange w (disconnect w).
Proof.
  unfold disconnect.
  eapply syncChange_trans; [|apply syncChange_updateStatus].
  eapply syncChange_trans; [apply syncChange_cleanupNetworkListener|].
  destruct (socket (this (cleanupNetworkListener w))) as [sock|];
    [|apply syncChange_refl].
  eapply syncChange_trans; [apply syncChange_socketDisconnect|].
  apply syncChange_setThis.
Qed.

(** The events that run no asynchronous body and release no waiting call:
    they keep the calls and the clock, and cause client effects only. *)
Lemma syncChange_step (w : World) (e : Event) :
  match e with
  | CallEmitWithAck _ _ | CallSessionRPC _ _ _ | CallMachineRPC _ _ _
  | SocketConnects _ _ | Resume _ | CipherSettles _ _ | AckSettles _ _
  | Elapse _ => True
  | _ => syncChange w (step w e)
  end.
Proof.
  destruct e; try exact I; cbn [step].
  - unfold initialize.
    eapply syncChange_trans; [apply syncChange_setThis | apply syncChange_connect].
  - apply syncChange_connect.
  - apply syncChange_disconnect.
  - unfold ensureConnected. destruct (socket (this w)) as [sock|].
    + destruct (negb (socketConnected w)); [|apply syncChange_refl].
      apply (syncChange_perform [SocketConnect sock]). reflexivity.
    + destruct (config (this w)); [apply syncChange_connect | apply syncChange_refl].
  - unfold onStatusChange.
    eapply syncChange_trans; [apply syncChange_setThis|].
    apply syncChange_perform. reflexivity.
  - apply syncChange_setThis.
  - apply syncChange_setThis.
  - apply syncChange_setThis.
  - apply syncChange_setThis.
  - apply syncChange_setThis.
  - unfold send. destruct (socket (this w)) as [sock|]; [|apply syncChange_refl].
    destruct (socketConnected w); [|apply syncChange_refl].
    apply (syncChange_perform [SocketEmit sock event data]). reflexivity.
  - unfold updateToken. destruct (config (this w)) as [cfg|]; [|apply syncChange_refl].
    case_bool_decide; [|apply syncChange_refl].
    match goal with |- syncChange w (match socket (this ?w1) with _ => _ end) =>
      assert (H1 : syncChange w w1) by apply syncChange_setThis;
      destruct (socket (this w1)) end; [|exact H1].
    eapply syncChange_trans; [exact H1|].
    eapply syncChange_trans; [apply syncChange_disconnect | apply syncChange_connect].
  - unfold registryChanges.
    destruct (encryption (this w)); [apply syncChange_setThis | apply syncChange_refl].
  - unfold onSocketDisconnect. destruct (sockets w !! sock); [|apply syncChange_refl].
    eapply syncChange_trans; [apply syncChange_setSocketObj | apply syncChange_updateStatus].
  - unfold onSocketError. destruct (sockets w !! sock); [|apply syncChange_refl].
    apply syncChange_updateStatus.
  - unfold onSocketError. destruct (sockets w !! sock); [|apply syncChange_refl].
    apply syncChange_updateStatus.
  - unfold onSocketAny. destruct (sockets w !! sock); [|apply syncChange_refl].
    destruct (messageHandlers (this w) !! event) as [h|]; [|apply syncChange_refl].
    apply (syncChange_perform [MessageHandlerCalled h data]). reflexivity.
  - unfold onNetworkState.
    destruct (networkSubscription (this w)); [|apply syncChange_refl].
    destruct (_ && _); [|apply syncChange_refl].
    destruct (socket (this w)) as [sock|]; [|apply syncChange_refl].
    destruct (negb (socketConnected w)); [|apply syncChange_refl].
    eapply syncChange_trans; [apply syncChange_socketDisconnect|].
    apply (syncChange_perform [SocketConnect sock]). reflexivity.
Qed.

Lemma keepsCalls_sync (w : World) (e : Event) :
  match e with
  | CallEmitWithAck _ _ | CallSessionRPC _ _ _ | CallMachineRPC _ _ _
  | SocketConnects _ _ | Resume _ | CipherSettles _ _ | AckSettles _ _
  | Elapse _ => True
  | _ => keepsCalls w (step w e)
  end.
Proof. pose proof (syncChange_step w e) as H. destruct e; try exact I; apply H. Qed.

(** A socket's ['connect'] keeps the clock; it releases the calls that wait
    on that socket and causes client effects only. *)
Lemma onSocketConnect_change (sock : nat) (recovered : bool) (w : World) :
  is_Some (sockets w !! sock) ->
  calls (onSocketConnect sock recovered w) = map (connectWaiter sock) (calls w) /\
  clock (onSocketConnect sock recovered w) = clock w /\
  addsClientEffects w (onSocketConnect sock recovered w).
Proof.
  intros [o Ho]. unfold onSocketConnect. rewrite Ho. cbn [calls clock].
  match goal with |- context [calls ?w3] => assert (Hsync : syncChange w w3) end.
  { eapply syncChange_trans; [apply syncChange_setSocketObj|].
    eapply syncChange_trans; [apply (syncChange_updateStatus connected)|].
    destruct (negb _); [|apply syncChange_refl].
    apply syncChange_perform, clientEffect_reconnected. }
  destruct Hsync as [[-> ->] Hadd]. split; [reflexivity|]. split; [reflexivity|].
  exact Hadd.
Qed.

Lemma drive_other (call c : nat) (p : Async) :
  c <> call ->
  forall w, calls (drive call p w) !! c = calls w !! c /\
            clock (drive call p w) = clock w.
Proof.
  intros Hne.
  induction p as [v|e|k IH|t k IH|d ci v k IH|sock event data k IH]; intros w;
    cbn [drive].
  - cbn. rewrite list_lookup_insert_ne by congruence. auto.
  - cbn. rewrite list_lookup_insert_ne by congruence. auto.
  - apply IH.
  - unfold waitForConnection.
    destruct (socketConnected w); [|destruct (socket (this w))];
      cbn; rewrite list_lookup_insert_ne by congruence; auto.
  - cbn. rewrite list_lookup_insert_ne by congruence. auto.
  - cbn. rewrite list_lookup_insert_ne by congruence. auto.
Qed.

Lemma drive_clock (call : nat) (p : Async) :
  forall w, clock (drive call p w) = clock w.
Proof.
  induction p as [v|e|k IH|t k IH|d ci v k IH|sock event data k IH]; intros w;
    cbn [drive]; try reflexivity.
  - apply IH.
  - unfold waitForConnection.
    destruct (socketConnected w); [|destruct (socket (this w))]; reflexivity.
Qed.

Lemma invoke_other (p : Async) (w : World) (c : nat) :
  (c < length (calls w))%nat ->
  calls (invoke p w) !! c = calls w !! c /\ clock (invoke p w) = clock w.
Proof.
  intros Hlt. unfold invoke.
  match goal with |- context [drive ?call p ?w0] =>
    destruct (drive_other call c p ltac:(lia) w0) as [-> ->] end.
  cbn. split; [|reflexivity]. apply lookup_app_l. exact Hlt.
Qed.

(** How any event treats call number [c]: it leaves it alone; or it resumes
    it from one of the three resumable states; or it is a socket's
    ['connect'], which releases the calls waiting on that socket; or it is
    the passing of time, which expires the calls whose deadline has come. *)
Lemma step_frame (w : World) (e : Event) (c : nat) :
  (c < length (calls w))%nat ->
  (calls (step w e) !! c = calls w !! c /\ clock (step w e) = clock w) \/
  (resumable (calls w !! c) /\ clock (step w e) = clock w) \/
  (exists sock r, e = SocketConnects sock r /\
     calls (step w e) !! c = connectWaiter sock <$> calls w !! c /\
     clock (step w e) = clock w) \/
  (exists dt, e = Elapse dt /\ 0 <= dt /\
     calls (step w e) !! c = expire (clock w + dt) <$> calls w !! c /\
     clock (step w e) = clock w + dt).
Proof.
  intros Hlt. pose proof (keepsCalls_sync w e) as Hsync.
  destruct e;
    try (left; exact (conj (f_equal (fun l => l !! c) (proj1 Hsync)) (proj2 Hsync)));
    clear Hsync; cbn [step].
  - left. apply invoke_other. exact Hlt.
  - left. apply invoke_other. exact Hlt.
  - left. apply invoke_other. exact Hlt.
  - destruct (sockets w !! sock) eqn:Hs;
      [|left; unfold onSocketConnect; rewrite Hs; auto].
    right. right. left. exists sock, recovered. split; [reflexivity|].
    destruct (onSocketConnect_change sock recovered w) as (-> & -> & _); [eauto|].
    rewrite list_lookup_fmap. auto.
  - unfold resume. destruct (decide (call = c)) as [->|Hne].
    + destruct (calls w !! c) as [[k| | | |]|] eqn:Hc; try solve [left; auto].
      right. left. split; [exact I|].
      apply drive_clock.
    + destruct (calls w !! call) as [[k| | | |]|]; try solve [left; auto].
      left. apply drive_other. congruence.
  - unfold cipherSettles. destruct (decide (call = c)) as [->|Hne].
    + destruct (calls w !! c) as [[| |k| |]|] eqn:Hc; try solve [left; auto].
      right. left. split; [exact I|].
      unfold settleAwaited. destruct r as [v|err]; [apply drive_clock | reflexivity].
    + destruct (calls w !! call) as [[| |k| |]|]; try solve [left; auto].
      left. unfold settleAwaited. destruct r as [v|err].
      * apply drive_other. congruence.
      * cbn. rewrite list_lookup_insert_ne by congruence. auto.
  - unfold ackSettles. destruct (decide (call = c)) as [->|Hne].
    + destruct (calls w !! c) as [[| | |k|]|] eqn:Hc; try solve [left; auto].
      right. left. split; [exact I|].
      unfold settleAwaited. destruct r as [v|err]; [apply drive_clock | reflexivity].
    + destruct (calls w !! call) as [[| | |k|]|]; try solve [left; auto].
      left. unfold settleAwaited. destruct r as [v|err].
      * apply drive_other. congruence.
      * cbn. rewrite list_lookup_insert_ne by congruence. auto.
  - unfold elapse. destruct (Z.leb_spec 0 dt) as [Hdt|Hdt]; [|left; auto].
    right. right. right. exists dt. split; [reflexivity|]. split; [exact Hdt|].
    cbn [calls clock]. rewrite list_lookup_fmap. auto.
Qed.

(** *** Waiting for the connection *)

Lemma waitingOrTimedOut_step (w : World) (e : Event) (c sock : nat)
    (deadline : Z) (k : Async) :
  (forall r, e <> SocketConnects sock r) ->
  waitingOrTimedOut w c sock deadline k ->
  waitingOrTimedOut (step w e) c sock deadline k.
Proof.
  intros Hnc Hw.
  assert (Hlt : (c < length (calls w))%nat).
  { destruct Hw as [[_ H]|[_ H]]; eapply lookup_lt_Some; exact H. }
  destruct (step_frame w e c Hlt)
    as [[Hc Hclk] | [[Hk' Hclk] | [(s & r & -> & Hc & Hclk) | (dt & -> & Hdt & Hc & Hclk)]]].
  - unfold waitingOrTimedOut. rewrite Hc, Hclk. exact Hw.
  - exfalso. destruct Hw as [[_ H]|[_ H]]; rewrite H in Hk'; exact Hk'.
  - unfold waitingOrTimedOut. rewrite Hc, Hclk.
    destruct Hw as [[Hd H]|[Hd H]]; rewrite H; cbn.
    + left. split; [exact Hd|].
      rewrite bool_decide_eq_false_2; [reflexivity|].
      intros ->. apply (Hnc r). reflexivity.
    + right. auto.
  - unfold waitingOrTimedOut. rewrite Hc, Hclk.
    destruct Hw as [[Hd H]|[Hd H]]; rewrite H; cbn.
    + destruct (Z.leb_spec deadline (clock w + dt)); [right | left]; split; auto; lia.
    + right. split; [lia | reflexivity].
Qed.

Lemma waitingOrTimedOut_run (es : list Event) (c sock : nat) (deadline : Z)
    (k : Async) :
  noConnect sock es ->
  forall w, waitingOrTimedOut w c sock deadline k ->
            waitingOrTimedOut (run w es) c sock deadline k.
Proof.
  induction es as [|e es IH]; intros Hnc w Hw; [exact Hw|].
  rewrite client_run_cons. apply IH.
  - intros r Hin. apply (Hnc r). right. exact Hin.
  - apply waitingOrTimedOut_step; [|exact Hw].
    intros r ->. apply (Hnc r). left.
Qed.

Lemma invoke_waits (w : World) (sock : nat) (k : Async) :
  socket (this w) = Some sock -> socketConnected w = false ->
  calls (invoke (AwaitConnection CONNECTION_TIMEOUT_MS k) w)
    = calls w ++ [WaitingConnect sock (clock w + 10000) k] /\
  this (invoke (AwaitConnection CONNECTION_TIMEOUT_MS k) w) = this w /\
  sockets (invoke (AwaitConnection CONNECTION_TIMEOUT_MS k) w) = sockets w /\
  effects (invoke (AwaitConnection CONNECTION_TIMEOUT_MS k) w) = effects w /\
  clock (invoke (AwaitConnection CONNECTION_TIMEOUT_MS k) w) = clock w.
Proof.
  intros Hs Hc. unfold invoke. cbn [drive]. unfold waitForConnection.
  unfold socketConnected in *. cbn [this sockets]. rewrite Hs in *. rewrite Hc.
  cbn. rewrite insert_last. repeat split.
Qed.

Example offline_status :
  currentStatus (this offline) = disconnected /\ socket (this offline) = None.
Proof. split; reflexivity. Qed.

Example reconnecting_status :
  currentStatus (this reconnecting) = disconnected /\
  socket (this reconnecting) = Some 0%nat /\
  socketConnected reconnecting = false.
Proof. repeat split. Qed.

(** Invoking an RPC method for a peer with a cipher is invoking the body
    with that cipher. *)
Lemma invoke_rpcBody (w : World) (k : ApiSocket -> Async) (cipher : Cipher)
    (peerId method : string) (params : Value) :
  k (this w) = rpcBody cipher peerId method params ->
  invoke (Read k) w = invoke (rpcBody cipher peerId method params) w.
Proof.
  intros Hk. unfold invoke. cbn [drive this]. rewrite Hk.
  unfold rpcBody. cbn [drive]. unfold waitForConnection, socketConnected.
  cbn [this sockets].
  destruct (socket (this w)) as [sock|]; cbn;
    [destruct (default false (sock_connected <$> sockets w !! sock))|];
    unfold setCall; cbn; rewrite !insert_last; reflexivity.
Qed.

Lemma invoke_sessionRPC (w : World) (e : Encryption) (cipher : Cipher)
    (sessionId method : string) (params : Value) :
  encryption (this w) = Some e -> getSessionEncryption e sessionId = Some cipher ->
  step w (CallSessionRPC sessionId method params)
    = invoke (rpcBody cipher sessionId method params) w.
Proof.
  intros He Hc. cbn [step]. unfold sessionRPC, withEncryption.
  apply invoke_rpcBody. rewrite He, Hc. reflexivity.
Qed.

Lemma invoke_machineRPC (w : World) (e : Encryption) (cipher : Cipher)
    (machineId method : string) (params : Value) :
  encryption (this w) = Some e -> getMachineEncryption e machineId = Some cipher ->
  step w (CallMachineRPC machineId method params)
    = invoke (rpcBody cipher machineId method params) w.
Proof.
  intros He Hc. cbn [step]. unfold machineRPC, withEncryption.
  apply invoke_rpcBody. rewrite He, Hc. reflexivity.
Qed.

Lemma invoke_no_socket (w : World) (k : Async) :
  socket (this w) = None ->
  rejectedAtOnce w (invoke (AwaitConnection CONNECTION_TIMEOUT_MS k) w)
    (Error "Socket not initialized").
Proof.
  intros Hs. unfold invoke, rejectedAtOnce.
  cbn [drive]. unfold waitForConnection, socketConnected.
  cbn [this sockets]. rewrite Hs. cbn. rewrite insert_last. repeat split.
Qed.

(** Without a socket object the call does not wait: it is rejected at once
    with 'Socket not initialized'. *)
Lemma offline_call_rejected_at_once :
  ~ disconnectedCallTimesOut offline (CallEmitWithAck "ping" VNull).
Proof.
  unfold disconnectedCallTimesOut, rejectsWithTimeout. intros H.
  specialize (H eq_refl). vm_compute in H. discriminate.
Qed.

(** C3 (amended).  Without a socket object (before [initialize], after
    [disconnect()]) an acknowledged send, that is [emitWithAck], or
    [sessionRPC] or [machineRPC] for a peer with a cipher, is rejected at
    once with 'Socket not initialized'.  With a socket object that is not
    connected, [emitWithAck],
    and [sessionRPC] and [machineRPC] for a peer with a cipher, start to wait
    with a timer of 10000 ms; if that socket emits no ['connect'] before the
    timer is due, then whatever else happens the call is rejected with
    'Socket connection timeout' once 10000 ms have passed, and is still
    waiting before.  The passing of time, and so the firing of the timer,
    changes no field of the client, no socket and causes no effect. *)
Theorem acknowledged_send_timeout (w : World) (sock : nat) (event : string)
    (data : Value) :
  (socket (this w) = None ->
     rejectedAtOnce w (step w (CallEmitWithAck event data))
       (Error "Socket not initialized") /\
     (forall e peer method c,
        encryption (this w) = Some e -> getSessionEncryption e peer = Some c ->
        rejectedAtOnce w (step w (CallSessionRPC peer method data))
          (Error "Socket not initialized")) /\
     (forall e peer method c,
        encryption (this w) = Some e -> getMachineEncryption e peer = Some c ->
        rejectedAtOnce w (step w (CallMachineRPC peer method data))
          (Error "Socket not initialized"))) /\
  (socket (this w) = Some sock -> socketConnected w = false ->
     startsWaiting w (CallEmitWithAck event data) sock /\
     (forall e peer method c,
        encryption (this w) = Some e -> getSessionEncryption e peer = Some c ->
        startsWaiting w (CallSessionRPC peer method data) sock) /\
     (forall e peer method c,
        encryption (this w) = Some e -> getMachineEncryption e peer = Some c ->
        startsWaiting w (CallMachineRPC peer method data) sock)) /\
  (forall e es, startsWaiting w e sock -> noConnect sock es ->
     (clock w + 10000 <= clock (run (step w e) es) ->
        calls (run (step w e) es) !! length (calls w)
          = Some (Done (Rejected (Error "Socket connection timeout")))) /\
     (clock (run (step w e) es) < clock w + 10000 ->
        exists k, calls (run (step w e) es) !! length (calls w)
                  = Some (WaitingConnect sock (clock w + 10000) k))) /\
  (forall dt,
     this (step w (Elapse dt)) = this w /\
     sockets (step w (Elapse dt)) = sockets w /\
     effects (step w (Elapse dt)) = effects w).
Proof.
  split; [|split; [|split]].
  - intros Hs. split; [|split].
    + cbn [step]. unfold emitWithAck. apply invoke_no_socket. exact Hs.
    + intros e peer method c He Hp.
      rewrite (invoke_sessionRPC w e c peer method data He Hp).
      unfold rpcBody. apply invoke_no_socket. exact Hs.
    + intros e peer method c He Hp.
      rewrite (invoke_machineRPC w e c peer method data He Hp).
      unfold rpcBody. apply invoke_no_socket. exact Hs.
  - intros Hs Hc. split; [|split].
    + eexists. cbn [step]. unfold emitWithAck. apply invoke_waits; assumption.
    + intros e peer method c He Hp. eexists.
      rewrite (invoke_sessionRPC w e c peer method data He Hp).
      unfold rpcBody. apply invoke_waits; assumption.
    + intros e peer method c He Hp. eexists.
      rewrite (invoke_machineRPC w e c peer method data He Hp).
      unfold rpcBody. apply invoke_waits; assumption.
  - intros e es (k & Hcalls & _ & _ & _ & Hclk) Hnc.
    assert (Hw : waitingOrTimedOut (step w e) (length (calls w)) sock
                   (clock w + 10000) k).
    { left. split; [lia|]. rewrite Hcalls. apply list_lookup_middle. reflexivity. }
    apply (waitingOrTimedOut_run es _ _ _ _ Hnc) in Hw.
    split.
    + intros Hge. destruct Hw as [[Hlt _]|[_ H]]; [lia | exact H].
    + intros Hlt. destruct Hw as [[_ H]|[Hge _]]; [eauto | lia].
  - intros dt. cbn [step]. unfold elapse. destruct (0 <=? dt); repeat split.
Qed.

Lemma acknowledged_send_timeout_witness :
  calls (run (step reconnecting (CallEmitWithAck "ping" VNull))
             [SocketConnectError 0; Elapse 4000; Send "x" VNull; Elapse 6000])
    !! 0%nat
  = Some (Done (Rejected (Error "Socket connection timeout"))) /\
  rejectedAtOnce offline (step offline (CallSessionRPC "S1" "bash" VNull))
    (Error "Socket not initialized") /\
  rejectedAtOnce offline (step offline (CallMachineRPC "M1" "bash" VNull))
    (Error "Socket not initialized").
Proof.
  split; [|split].
  - refine (proj1 (proj1 (proj2 (proj2
              (acknowledged_send_timeout reconnecting 0 "ping" VNull)))
              (CallEmitWithAck "ping" VNull)
              [SocketConnectError 0; Elapse 4000; Send "x" VNull; Elapse 6000]
              _ _) _).
    + exact (proj1 (proj1 (proj2
              (acknowledged_send_timeout reconnecting 0 "ping" VNull))
              eq_refl eq_refl)).
    + intros r Hin. repeat (apply elem_of_cons in Hin as [Hin|Hin]; [discriminate|]).
      apply elem_of_nil in Hin. exact Hin.
    + vm_compute. discriminate.
  - exact (proj1 (proj2 (proj1 (acknowledged_send_timeout offline 0 "ping" VNull)
                           eq_refl))
                 sampleEncryption "S1" "bash" 1%nat eq_refl eq_refl).
  - exact (proj2 (proj2 (proj1 (acknowledged_send_timeout offline 0 "ping" VNull)
                           eq_refl))
                 sampleEncryption "M1" "bash" 3%nat eq_refl eq_refl).
Defined.

(** *** Peer RPC *)

Lemma lookup_last {A} (l : list A) (x : A) : (l ++ [x]) !! length l = Some x.
Proof. apply list_lookup_middle. reflexivity. Qed.

Lemma rpcBody_roundTrip (w : World) (cipher : Cipher) (peerId method : string)
    (params encrypted payload plain : Value) (sock : nat) :
  socket (this w) = Some sock -> socketConnected w = true ->
  effects (run (invoke (rpcBody cipher peerId method params) w)
               (roundTrip (length (calls w)) encrypted payload plain))
    = effects w ++
      [CipherCalled (length (calls w)) Encrypt cipher params;
       SocketEmitWithAck (length (calls w)) sock "rpc-call"
         (rpcCall (methodKey peerId method) encrypted);
       CipherCalled (length (calls w)) Decrypt cipher payload] /\
  calls (run (invoke (rpcBody cipher peerId method params) w)
             (roundTrip (length (calls w)) encrypted payload plain))
    = calls w ++ [Done (Fulfilled plain)].
Proof.
  intros Hs Hc. unfold roundTrip, invoke, rpcBody.
  cbn [drive]. unfold waitForConnection.
  assert (Hc' : forall cs cl ef,
             socketConnected {| this := this w; sockets := sockets w; calls := cs;
                                clock := cl; effects := ef |} = true)
    by (intros; exact Hc).
  rewrite Hc'. unfold setCall. cbn [this sockets calls clock effects].
  rewrite insert_last.
  (* the continuation runs: [this.socket!], then [encryptRaw] is called *)
  rewrite client_run_cons. cbn [step]. unfold resume. cbn [calls].
  rewrite lookup_last. unfold withSocket. cbn [drive this]. rewrite Hs.
  cbn [drive]. unfold setCall, perform. cbn [this sockets calls clock effects].
  rewrite insert_last.
  (* the ciphertext arrives: the call is emitted *)
  rewrite client_run_cons. cbn [step]. unfold cipherSettles. cbn [calls].
  rewrite lookup_last. unfold settleAwaited. cbn [drive].
  unfold setCall, perform. cbn [this sockets calls clock effects].
  rewrite insert_last.
  (* the acknowledgement arrives: [decryptRaw] is called *)
  rewrite client_run_cons. cbn [step]. unfold ackSettles. cbn [calls].
  rewrite lookup_last. unfold settleAwaited, rpcResult, ackOk.
  cbn [prop field String.eqb Ascii.eqb Bool.eqb truthyValue drive].
  unfold setCall, perform. cbn [this sockets calls clock effects].
  rewrite insert_last.
  (* the plaintext arrives: the call returns it *)
  rewrite client_run_cons. cbn [step]. unfold cipherSettles. cbn [calls].
  rewrite lookup_last. unfold settleAwaited. cbn [drive].
  unfold setCall. cbn [this sockets calls clock effects run foldl].
  rewrite insert_last, <- !app_assoc. split; reflexivity.
Qed.

(** **** Method keys *)

Lemma append_length (s t : string) :
  String.length (s +:+ t) = (String.length s + String.length t)%nat.
Proof.
  induction s as [|a s IH]; [reflexivity|].
  rewrite append_cons. cbn [String.length]. rewrite IH. reflexivity.
Qed.

Lemma append_cancel_r (s1 s2 t : string) : s1 +:+ t = s2 +:+ t -> s1 = s2.
Proof.
  revert s2. induction s1 as [|a s1 IH]; intros s2 H.
  - destruct s2 as [|b s2]; [reflexivity|]. exfalso.
    apply (f_equal String.length) in H.
    rewrite append_nil_l, append_length in H. cbn [String.length] in H. lia.
  - destruct s2 as [|b s2].
    + exfalso. apply (f_equal String.length) in H.
      rewrite append_nil_l, append_length in H. cbn [String.length] in H. lia.
    + rewrite !append_cons in H. injection H as -> H. f_equal. apply IH. exact H.
Qed.

(** Two calls of the same method on different peers have different keys. *)
Lemma methodKey_same_method (id1 id2 method : string) :
  id1 <> id2 -> methodKey id1 method <> methodKey id2 method.
Proof.
  intros Hne H. apply Hne. unfold methodKey in H.
  apply append_cancel_r in H. exact H.
Qed.

Lemma colonFree_cons (a : Ascii.ascii) (s : string) :
  colonFree (String a s) -> a <> ":"%char /\ colonFree s.
Proof.
  unfold colonFree. cbn [includes String.prefix].
  destruct (Ascii.ascii_dec ":" a) as [<-|Hne].
  - destruct s; discriminate.
  - cbn [orb]. intros H. split; [congruence | exact H].
Qed.

(** The key determines the peer when identifiers contain no colon. *)
Lemma methodKey_colonFree (id1 id2 m1 m2 : string) :
  colonFree id1 -> colonFree id2 ->
  methodKey id1 m1 = methodKey id2 m2 -> id1 = id2.
Proof.
  unfold methodKey. revert id2.
  induction id1 as [|a id1 IH]; intros [|b id2] H1 H2 H.
  - reflexivity.
  - exfalso. apply colonFree_cons in H2 as [Hb _].
    rewrite append_nil_l, !append_cons in H. congruence.
  - exfalso. apply colonFree_cons in H1 as [Ha _].
    rewrite append_nil_l, !append_cons in H. congruence.
  - apply colonFree_cons in H1 as [_ H1]. apply colonFree_cons in H2 as [_ H2].
    rewrite !append_cons in H. injection H as -> H. f_equal. exact (IH _ H1 H2 H).
Qed.

(** Peer "a" with method "b:c" and peer "a:b" with method "c" share the key
    "a:b:c". *)
Lemma method_keys_can_collide :
  ~ distinctPeersDistinctKeys "a" "b:c" "a:b" "c".
Proof.
  unfold distinctPeersDistinctKeys. intros H. apply H; [discriminate | reflexivity].
Qed.

(** **** No cross-use of ciphers, whatever the interleaving *)

Lemma bound_rpcBody (c : Cipher) (peerId method : string) (params : Value) :
  bound c (methodKey peerId method) (rpcBody c peerId method params).
Proof.
  unfold rpcBody, withSocket. constructor. constructor. intros a.
  destruct (socket a) as [sock|]; [|constructor].
  constructor. intros encrypted. constructor; [reflexivity|].
  intros result. unfold rpcResult.
  destruct (prop result "ok") as [flag|e]; [|constructor].
  destruct (truthyValue flag); [|constructor].
  destruct (prop result "result") as [payload|e]; [|constructor].
  constructor. intros plain. constructor.
Qed.

Lemma clientEffect_confined (call : nat) (c : Cipher) (key : string)
    (es : list Effect) :
  forallb clientEffect es = true -> Forall (confined call c key) es.
Proof.
  induction es as [|e es IH]; [constructor|].
  cbn [forallb]. intros [He Hes]%andb_true_iff. constructor; [|apply IH; exact Hes].
  destruct e; try exact I; discriminate.
Qed.

Lemma addsClientEffects_sync (w : World) (e : Event) :
  match e with
  | CallEmitWithAck _ _ | CallSessionRPC _ _ _ | CallMachineRPC _ _ _
  | SocketConnects _ _ | Resume _ | CipherSettles _ _ | AckSettles _ _
  | Elapse _ => True
  | _ => addsClientEffects w (step w e)
  end.
Proof. pose proof (syncChange_step w e) as H. destruct e; try exact I; apply H. Qed.

Lemma advances_nothing (w : World) (call : nat) (c : Cipher) (key : string)
    (s : Call) :
  calls w !! call = Some s -> callBound c key s -> advances w w call c key.
Proof.
  intros Hs Hb. split; [|eauto].
  exists []. rewrite app_nil_r. split; [reflexivity | constructor].
Qed.

Lemma advances_setCall (w : World) (call : nat) (c : Cipher) (key : string)
    (s : Call) (new : list Effect) :
  (call < length (calls w))%nat -> callBound c key s ->
  Forall (confined call c key) new ->
  advances w (setCall call s (perform new w)) call c key.
Proof.
  intros Hlt Hb Hnew. split.
  - exists new. split; [reflexivity | exact Hnew].
  - exists s. split; [|exact Hb]. cbn. apply list_lookup_insert_eq. exact Hlt.
Qed.

Lemma advances_setCall_only (w : World) (call : nat) (c : Cipher)
    (key : string) (s : Call) :
  (call < length (calls w))%nat -> callBound c key s ->
  advances w (setCall call s w) call c key.
Proof.
  intros Hlt Hb. split.
  - exists []. cbn [setCall effects]. rewrite app_nil_r. split; [reflexivity | constructor].
  - exists s. split; [|exact Hb]. cbn. apply list_lookup_insert_eq. exact Hlt.
Qed.

(** Running the call's own body. *)
Lemma drive_own (call : nat) (c : Cipher) (key : string) (p : Async) :
  bound c key p ->
  forall w, (call < length (calls w))%nat ->
            advances w (drive call p w) call c key.
Proof.
  induction 1 as [v|e|k Hk IH|t k Hk IH|d v k Hk IH|sock data k Hdata Hk IH];
    intros w Hlt; cbn [drive].
  - apply advances_setCall_only; [exact Hlt | exact I].
  - apply advances_setCall_only; [exact Hlt | exact I].
  - apply IH. exact Hlt.
  - unfold waitForConnection.
    destruct (socketConnected w); [|destruct (socket (this w))];
      (apply advances_setCall_only; [exact Hlt | first [exact Hk | exact I]]).
  - apply advances_setCall; [exact Hlt | exact Hk |].
    constructor; [intros _; reflexivity | constructor].
  - apply advances_setCall; [exact Hlt | exact Hk |].
    constructor; [intros _; split; [reflexivity | exact Hdata] | constructor].
Qed.

(** Running the body of another call. *)
Lemma drive_foreign (call call' : nat) (c : Cipher) (key : string) (p : Async) :
  call' <> call ->
  forall w, exists new, effects (drive call' p w) = effects w ++ new /\
                        Forall (confined call c key) new.
Proof.
  intros Hne.
  induction p as [v|e|k IH|t k IH|d ci v k IH|sock event data k IH]; intros w;
    cbn [drive].
  - exists []. rewrite app_nil_r. split; [reflexivity | constructor].
  - exists []. rewrite app_nil_r. split; [reflexivity | constructor].
  - apply IH.
  - exists []. rewrite app_nil_r. split; [|constructor].
    unfold waitForConnection.
    destruct (socketConnected w); [|destruct (socket (this w))]; reflexivity.
  - eexists. split; [reflexivity|].
    constructor; [intros Heq; congruence | constructor].
  - eexists. split; [reflexivity|].
    constructor; [intros Heq; congruence | constructor].
Qed.

Lemma advances_foreign_drive (w : World) (call call' : nat) (c : Cipher)
    (key : string) (p : Async) (s : Call) :
  call' <> call -> calls w !! call = Some s -> callBound c key s ->
  advances w (drive call' p w) call c key.
Proof.
  intros Hne Hs Hb. split; [apply drive_foreign; exact Hne|].
  exists s. split; [|exact Hb].
  destruct (drive_other call' call p ltac:(congruence) w) as [-> _]. exact Hs.
Qed.

Lemma advances_invoke (w : World) (call : nat) (c : Cipher) (key : string)
    (p : Async) (s : Call) :
  calls w !! call = Some s -> callBound c key s ->
  advances w (invoke p w) call c key.
Proof.
  intros Hs Hb.
  assert (Hlt : (call < length (calls w))%nat) by (eapply lookup_lt_Some; exact Hs).
  split.
  - unfold invoke.
    match goal with |- context [drive ?call' p ?w0] =>
      destruct (drive_foreign call call' c key p ltac:(lia) w0) as (new & He & Hn)
    end.
    exists new. split; [exact He | exact Hn].
  - exists s. split; [|exact Hb].
    destruct (invoke_other p w call Hlt) as [-> _]. exact Hs.
Qed.

Lemma advances_settleAwaited (w : World) (call call' : nat) (c : Cipher)
    (key : string) (r : settle Value) (k : Value -> Async) (s : Call) :
  calls w !! call = Some s -> callBound c key s ->
  (call' = call -> forall v, bound c key (k v)) ->
  advances w (settleAwaited r call' k w) call c key.
Proof.
  intros Hs Hb Hk.
  assert (Hlt : (call < length (calls w))%nat) by (eapply lookup_lt_Some; exact Hs).
  unfold settleAwaited. destruct (decide (call' = call)) as [->|Hne].
  - destruct r as [v|e].
    + apply drive_own; [apply Hk; reflexivity | exact Hlt].
    + apply advances_setCall_only; [exact Hlt | exact I].
  - destruct r as [v|e].
    + eapply advances_foreign_drive; eassumption.
    + split.
      * exists []. rewrite app_nil_r. split; [reflexivity | constructor].
      * exists s. split; [|exact Hb]. cbn.
        rewrite list_lookup_insert_ne by exact Hne. exact Hs.
Qed.

Lemma advances_sync (w w' : World) (call : nat) (c : Cipher) (key : string)
    (s : Call) :
  addsClientEffects w w' -> calls w' !! call = Some s -> callBound c key s ->
  advances w w' call c key.
Proof.
  intros (new & He & Hnew) Hs Hb. split; [|eauto].
  exists new. split; [exact He|]. apply clientEffect_confined. exact Hnew.
Qed.

Lemma callBound_connectWaiter (c : Cipher) (key : string) (sock : nat) (s : Call) :
  callBound c key s -> callBound c key (connectWaiter sock s).
Proof.
  destruct s as [k|sock' d k|k|k|r]; cbn; try tauto.
  destruct (bool_decide (sock' = sock)); cbn; tauto.
Qed.

Lemma callBound_expire (c : Cipher) (key : string) (now : Z) (s : Call) :
  callBound c key s -> callBound c key (expire now s).
Proof.
  destruct s as [k|sock' d k|k|k|r]; cbn; try tauto.
  destruct (d <=? now); cbn; tauto.
Qed.

(** Every event advances a bound call within its bounds. *)
Lemma step_advances (w : World) (e : Event) (call : nat) (c : Cipher)
    (key : string) (s : Call) :
  calls w !! call = Some s -> callBound c key s ->
  advances w (step w e) call c key.
Proof.
  intros Hs Hb.
  assert (Hlt : (call < length (calls w))%nat) by (eapply lookup_lt_Some; exact Hs).
  pose proof (syncChange_step w e) as Hsync.
  destruct e;
    try (apply (advances_sync _ _ _ _ _ s (proj2 Hsync));
         [rewrite (proj1 (proj1 Hsync)); exact Hs | exact Hb]);
    clear Hsync; cbn [step].
  - eapply advances_invoke; eassumption.
  - eapply advances_invoke; eassumption.
  - eapply advances_invoke; eassumption.
  - (* a socket connects *)
    destruct (sockets w !! sock) eqn:Hsock.
    + destruct (onSocketConnect_change sock recovered w) as (Hc & _ & Hadd); [eauto|].
      apply (advances_sync _ _ _ _ _ (connectWaiter sock s) Hadd);
        [|apply callBound_connectWaiter; exact Hb].
      rewrite Hc, list_lookup_fmap, Hs. reflexivity.
    + unfold onSocketConnect. rewrite Hsock. eapply advances_nothing; eassumption.
  - (* a queued continuation runs *)
    unfold resume. destruct (calls w !! call0) as [[k| | | |]|] eqn:Hc;
      try (eapply advances_nothing; eassumption).
    destruct (decide (call0 = call)) as [->|Hne].
    + apply drive_own; [|exact Hlt]. rewrite Hs in Hc. injection Hc as ->. exact Hb.
    + eapply advances_foreign_drive; eassumption.
  - unfold cipherSettles. destruct (calls w !! call0) as [[| |k| |]|] eqn:Hc;
      try (eapply advances_nothing; eassumption).
    eapply advances_settleAwaited; try eassumption.
    intros ->. rewrite Hs in Hc. injection Hc as ->. exact Hb.
  - unfold ackSettles. destruct (calls w !! call0) as [[| | |k|]|] eqn:Hc;
      try (eapply advances_nothing; eassumption).
    eapply advances_settleAwaited; try eassumption.
    intros ->. rewrite Hs in Hc. injection Hc as ->. exact Hb.
  - (* time passes *)
    unfold elapse. destruct (0 <=? dt); [|eapply advances_nothing; eassumption].
    apply (advances_sync _ _ _ _ _ (expire (clock w + dt) s));
      [|cbn [calls]; rewrite list_lookup_fmap, Hs; reflexivity
       |apply callBound_expire; exact Hb].
    exists []. cbn [effects]. rewrite app_nil_r. split; reflexivity.
Qed.

Lemma isolated_step (w0 w : World) (e : Event) (call : nat) (c : Cipher)
    (key : string) :
  isolated w0 w call c key -> isolated w0 (step w e) call c key.
Proof.
  intros [(new & He & Hnew) (s & Hs & Hb)].
  destruct (step_advances w e call c key s Hs Hb) as [(new' & He' & Hnew') Hcall].
  split; [|exact Hcall].
  exists (new ++ new'). rewrite He', He, app_assoc. split; [reflexivity|].
  apply Forall_app_2; assumption.
Qed.

Lemma isolated_run (es : list Event) (w0 : World) (call : nat) (c : Cipher)
    (key : string) :
  forall w, isolated w0 w call c key -> isolated w0 (run w es) call c key.
Proof.
  induction es as [|e es IH]; intros w Hw; [exact Hw|].
  rewrite client_run_cons. apply IH. apply isolated_step. exact Hw.
Qed.

Lemma isolated_invoke (w : World) (c : Cipher) (peerId method : string)
    (params : Value) :
  isolated w (invoke (rpcBody c peerId method params) w) (length (calls w)) c
           (methodKey peerId method).
Proof.
  unfold invoke.
  match goal with |- isolated _ (drive ?call ?p ?w0) _ _ _ =>
    destruct (drive_own call c (methodKey peerId method) p
                (bound_rpcBody c peerId method params) w0) as [Hnew Hcall]
  end.
  - cbn [calls]. rewrite length_app. cbn [length]. lia.
  - split; assumption.
Qed.

Lemma rpcBody_usesCipher (w : World) (e : Event) (c : Cipher)
    (peerId method : string) (params : Value) :
  step w e = invoke (rpcBody c peerId method params) w ->
  usesCipher w e c peerId method params.
Proof.
  intros Hstep. unfold usesCipher. rewrite Hstep. split.
  - intros sock encrypted payload plain Hs Hc.
    apply rpcBody_roundTrip; assumption.
  - intros es.
    destruct (isolated_run es w (length (calls w)) c (methodKey peerId method) _
                (isolated_invoke w c peerId method params)) as [Hnew _].
    exact Hnew.
Qed.

(** C6 (amended).  For a peer with an established cipher [c], [sessionRPC]
    (with the session registry) and [machineRPC] (with the machine registry)
    encrypt the parameters with [c], emit 'rpc-call' with the method key
    "{peerId}:{method}" and the ciphertext, and on an acknowledgement whose
    [ok] is true decrypt its [result] with [c]; and whatever other calls and
    events are interleaved, every cipher operation the call causes uses [c]
    and every emit it causes carries its own method key.  The keys of two
    calls to different peers differ when the method is the same, or when
    neither identifier contains a colon. *)
Theorem rpc_uses_target_cipher (w : World) (e : Encryption)
    (peerId method : string) (params : Value) (c : Cipher) :
  encryption (this w) = Some e ->
  (getSessionEncryption e peerId = Some c ->
     usesCipher w (CallSessionRPC peerId method params) c peerId method params) /\
  (getMachineEncryption e peerId = Some c ->
     usesCipher w (CallMachineRPC peerId method params) c peerId method params) /\
  (forall other, peerId <> other ->
     methodKey peerId method <> methodKey other method) /\
  (forall other method', colonFree peerId -> colonFree other -> peerId <> other ->
     methodKey peerId method <> methodKey other method').
Proof.
  intros He. split; [|split; [|split]].
  - intros Hc. apply rpcBody_usesCipher. eapply invoke_sessionRPC; eassumption.
  - intros Hc. apply rpcBody_usesCipher. eapply invoke_machineRPC; eassumption.
  - intros other. apply methodKey_same_method.
  - intros other method' H1 H2 Hne Heq. apply Hne.
    eapply methodKey_colonFree; eassumption.
Qed.

Lemma rpc_uses_target_cipher_witness :
  effects (run (step online (CallSessionRPC "S1" "m" (VStr "p")))
               (roundTrip 0 (VStr "sealed") (VStr "reply") (VStr "plain")))
    = effects online ++
      roundTripEffects 0 0 1%nat "S1" "m" (VStr "p") (VStr "sealed") (VStr "reply").
Proof.
  exact (proj1 (proj1 (proj1 (rpc_uses_target_cipher online sampleEncryption
                                 "S1" "m" (VStr "p") 1%nat eq_refl) eq_refl)
                      0%nat (VStr "sealed") (VStr "reply") (VStr "plain")
                      eq_refl eq_refl)).
Defined.

(** The scenario of the design document: calls to sessions S1 and S2 with
    the same method, interleaved.  Each uses its own cipher (1 and 2) and its
    own key. *)
Example two_sessions_interleaved :
  effects (run online
    [CallSessionRPC "S1" "m" (VStr "p"); CallSessionRPC "S2" "m" (VStr "p");
     Resume 1; Resume 0;
     CipherSettles 0 (Fulfilled (VStr "c1")); CipherSettles 1 (Fulfilled (VStr "c2"));
     AckSettles 1 (Fulfilled (ackOk (VStr "r2")));
     AckSettles 0 (Fulfilled (ackOk (VStr "r1")))])
  = effects online ++
    [CipherCalled 1 Encrypt 2%nat (VStr "p"); CipherCalled 0 Encrypt 1%nat (VStr "p");
     SocketEmitWithAck 0 0 "rpc-call" (rpcCall "S1:m" (VStr "c1"));
     SocketEmitWithAck 1 0 "rpc-call" (rpcCall "S2:m" (VStr "c2"));
     CipherCalled 1 Decrypt 2%nat (VStr "r2"); CipherCalled 0 Decrypt 1%nat (VStr "r1")].
Proof. vm_compute. reflexivity. Qed.

(** *** Sockets and network-state listeners are not leaked *)

Lemma created_app (es1 es2 : list Effect) :
  created (es1 ++ es2) = created es1 ++ created es2.
Proof. apply omap_app. Qed.

Lemma listening_app (es1 es2 : list Effect) :
  listening (es1 ++ es2) = listening es1 + listening es2.
Proof.
  induction es1 as [|e es1 IH]; [reflexivity|].
  cbn [app]. unfold listening in *. cbn [foldr]. rewrite IH. lia.
Qed.

Lemma created_plain (es : list Effect) : forallb plain es = true -> created es = [].
Proof.
  induction es as [|e es IH]; [reflexivity|]. cbn [forallb]. intros H.
  apply andb_true_iff in H as [He Hes].
  destruct e; try discriminate; exact (IH Hes).
Qed.

Lemma listening_plain (es : list Effect) : forallb plain es = true -> listening es = 0.
Proof.
  induction es as [|e es IH]; [reflexivity|]. cbn [forallb]. intros H.
  apply andb_true_iff in H as [He Hes].
  destruct e; try discriminate; exact (IH Hes).
Qed.

Lemma plain_status (status : Status) (ls : list nat) :
  forallb plain (map (fun l => StatusListenerCalled l status) ls) = true.
Proof. induction ls; [reflexivity | assumption]. Qed.

Lemma plain_reconnected (ls : list nat) :
  forallb plain (map ReconnectedListenerCalled ls) = true.
Proof. induction ls; [reflexivity | assumption]. Qed.

Lemma steady_refl (w : World) : steady w w.
Proof.
  do 5 (split; [reflexivity|]). exists []. split; [symmetry; apply app_nil_r | reflexivity].
Qed.

Lemma steady_trans (w1 w2 w3 : World) : steady w1 w2 -> steady w2 w3 -> steady w1 w3.
Proof.
  intros (Ha & Hb & Hc & Hd & He & n1 & Hn1 & Hp1) (Ha' & Hb' & Hc' & Hd' & He' & n2 & Hn2 & Hp2).
  split; [congruence|]. split; [congruence|]. split; [congruence|].
  split; [congruence|]. split; [congruence|].
  exists (n1 ++ n2). split; [rewrite Hn2, Hn1, app_assoc; reflexivity|].
  rewrite forallb_app, Hp1, Hp2. reflexivity.
Qed.

Lemma steady_perform (es : list Effect) (w : World) :
  forallb plain es = true -> steady w (perform es w).
Proof. intros H. do 5 (split; [reflexivity|]). exists es. split; [reflexivity | exact H]. Qed.

Lemma steady_same (w w' : World) :
  socket (this w') = socket (this w) ->
  networkSubscription (this w') = networkSubscription (this w) ->
  statusListeners (this w') = statusListeners (this w) ->
  reconnectedListeners (this w') = reconnectedListeners (this w) ->
  length (sockets w') = length (sockets w) ->
  effects w' = effects w ->
  steady w w'.
Proof.
  intros Ha Hb Hc Hd He Hf. do 5 (split; [assumption|]).
  exists []. split; [rewrite Hf; symmetry; apply app_nil_r | reflexivity].
Qed.

Lemma steady_setCall (call : nat) (c : Call) (w : World) : steady w (setCall call c w).
Proof. apply steady_same; reflexivity. Qed.

Lemma steady_setSocketObj (sock : nat) (o : SocketObj) (w : World) :
  steady w (setSocketObj sock o w).
Proof. apply steady_same; try reflexivity. cbn. apply length_insert. Qed.

Lemma steady_updateStatus (status : Status) (w : World) :
  steady w (updateStatus status w).
Proof.
  unfold updateStatus. case_bool_decide; [|apply steady_refl].
  eapply steady_trans; [|apply steady_perform, plain_status].
  apply steady_same; reflexivity.
Qed.

Lemma steady_socketDisconnect (sock : nat) (w : World) :
  steady w (socketDisconnect sock w).
Proof.
  unfold socketDisconnect. destruct (sockets w !! sock); [|apply steady_refl].
  eapply steady_trans; [apply steady_setSocketObj|].
  apply (steady_perform [SocketDisconnect sock]). reflexivity.
Qed.

Lemma steady_waitForConnection (call : nat) (timeoutMs : Z) (k : Async) (w : World) :
  steady w (waitForConnection call timeoutMs k w).
Proof.
  unfold waitForConnection. destruct (socketConnected w); [apply steady_setCall|].
  destruct (socket (this w)); apply steady_setCall.
Qed.

Lemma steady_drive (call : nat) (p : Async) : forall w, steady w (drive call p w).
Proof.
  induction p as [v|e|k IH|t k IH|d c v k IH|sock event data k IH]; intros w;
    cbn [drive].
  - apply steady_setCall.
  - apply steady_setCall.
  - apply IH.
  - apply steady_waitForConnection.
  - eapply steady_trans; [apply (steady_perform [CipherCalled call d c v]); reflexivity|].
    apply steady_setCall.
  - eapply steady_trans;
      [apply (steady_perform [SocketEmitWithAck call sock event data]); reflexivity|].
    apply steady_setCall.
Qed.

Lemma steady_invoke (p : Async) (w : World) : steady w (invoke p w).
Proof.
  unfold invoke. eapply steady_trans; [|apply steady_drive].
  apply steady_same; reflexivity.
Qed.

Lemma steady_settleAwaited (r : settle Value) (call : nat) (k : Value -> Async)
    (w : World) :
  steady w (settleAwaited r call k w).
Proof. destruct r; cbn [settleAwaited]; [apply steady_drive | apply steady_setCall]. Qed.

Lemma steady_onSocketConnect (sock : nat) (recovered : bool) (w : World) :
  steady w (onSocketConnect sock recovered w).
Proof.
  unfold onSocketConnect. destruct (sockets w !! sock); [|apply steady_refl].
  match goal with |- steady w {| this := this ?w3; sockets := _; calls := _;
                                 clock := _; effects := _ |} =>
    assert (H3 : steady w w3) end.
  { eapply steady_trans; [apply steady_setSocketObj|].
    eapply steady_trans; [apply (steady_updateStatus connected)|].
    destruct (negb _); [|apply steady_refl].
    apply steady_perform, plain_reconnected. }
  eapply steady_trans; [exact H3|]. apply steady_same; reflexivity.
Qed.

(** The events that leave the socket, the subscription and the listener
    sets alone. *)
Lemma steady_step (w : World) (e : Event) :
  match e with
  | Initialize _ _ | Connect | Disconnect | EnsureConnected | UpdateToken _
  | OnStatusChange _ | OffStatusChange _ | OnReconnected _ | OffReconnected _ => True
  | _ => steady w (step w e)
  end.
Proof.
  destruct e; try exact I; cbn [step].
  - apply steady_same; reflexivity.
  - apply steady_same; reflexivity.
  - unfold send. destruct (socket (this w)) as [sock|]; [|apply steady_refl].
    destruct (socketConnected w); [|apply steady_refl].
    apply (steady_perform [SocketEmit sock event data]). reflexivity.
  - apply steady_invoke.
  - apply steady_invoke.
  - apply steady_invoke.
  - unfold registryChanges.
    destruct (encryption (this w)); [apply steady_same; reflexivity | apply steady_refl].
  - apply steady_onSocketConnect.
  - unfold onSocketDisconnect. destruct (sockets w !! sock); [|apply steady_refl].
    eapply steady_trans; [apply steady_setSocketObj | apply steady_updateStatus].
  - unfold onSocketError. destruct (sockets w !! sock); [|apply steady_refl].
    apply steady_updateStatus.
  - unfold onSocketError. destruct (sockets w !! sock); [|apply steady_refl].
    apply steady_updateStatus.
  - unfold onSocketAny. destruct (sockets w !! sock); [|apply steady_refl].
    destruct (messageHandlers (this w) !! event) as [h|]; [|apply steady_refl].
    apply (steady_perform [MessageHandlerCalled h data]). reflexivity.
  - unfold onNetworkState.
    destruct (networkSubscription (this w)); [|apply steady_refl].
    destruct (_ && _); [|apply steady_refl].
    destruct (socket (this w)) as [sock|]; [|apply steady_refl].
    destruct (negb (socketConnected w)); [|apply steady_refl].
    eapply steady_trans; [apply steady_socketDisconnect|].
    apply (steady_perform [SocketConnect sock]). reflexivity.
  - unfold resume. destruct (calls w !! call) as [[k| | | |]|]; try apply steady_refl.
    apply steady_drive.
  - unfold cipherSettles.
    destruct (calls w !! call) as [[| |k| |]|]; try apply steady_refl.
    apply steady_settleAwaited.
  - unfold ackSettles.
    destruct (calls w !! call) as [[| | |k|]|]; try apply steady_refl.
    apply steady_settleAwaited.
  - unfold elapse. destruct (0 <=? dt); [|apply steady_refl].
    apply steady_same; reflexivity.
Qed.

Lemma tidy_steady (w w' : World) : steady w w' -> tidy w -> tidy w'.
Proof.
  intros (Ha & Hb & Hc & Hd & He & new & Hn & Hp) [T1 T2 T3 T4 T5 T6 T7].
  split.
  - rewrite Hn, created_app, (created_plain new Hp), app_nil_r, He. exact T1.
  - intros sock Hs. rewrite He. apply T2. congruence.
  - intros sock Hlt Hs. rewrite Hn. apply elem_of_app. left.
    apply T3; [rewrite <- He; exact Hlt | congruence].
  - rewrite Ha, Hb. exact T4.
  - rewrite Hn, listening_app, (listening_plain new Hp), Hb, T5. lia.
  - rewrite Hc. exact T6.
  - rewrite Hd. exact T7.
Qed.

Lemma tidy_fresh : tidy fresh.
Proof.
  split; cbn; try reflexivity; try apply NoDup_nil_2.
  - discriminate.
  - intros sock H. lia.
  - split; [discriminate | intros [x Hx]; discriminate].
Qed.

Lemma tidy_connect (w : World) : tidy w -> tidy (connect w).
Proof.
  intros Hw. unfold connect.
  destruct (config (this w)) as [cfg|]; [|exact Hw].
  destruct (socket (this w)) as [sock|] eqn:Hsock; [exact Hw|].
  pose proof (steady_updateStatus connecting w) as Hst.
  pose proof (tidy_steady _ _ Hst Hw) as [T1 T2 T3 T4 T5 T6 T7].
  destruct Hst as (Ha & Hb & _).
  set (w1 := updateStatus connecting w) in *.
  assert (Hsub : networkSubscription (this w1) = false).
  { destruct (networkSubscription (this w1)); [|reflexivity].
    destruct (proj1 T4 eq_refl) as [s Hs]. congruence. }
  unfold setupNetworkListener, cleanupNetworkListener.
  cbn [this networkSubscription withSocketField]. rewrite Hsub.
  split; cbn [this effects sockets perform setThis socket networkSubscription
              withNetworkSubscription withSocketField statusListeners
              reconnectedListeners].
  - rewrite !created_app, T1, length_app. cbn. rewrite app_nil_r.
    rewrite Nat.add_1_r, seq_S. reflexivity.
  - intros s [= <-]. rewrite length_app. cbn. lia.
  - intros s Hlt Hne. rewrite length_app in Hlt. cbn in Hlt.
    assert (s <> length (sockets w1)) by congruence.
    rewrite <- app_assoc. apply elem_of_app. left.
    apply T3; [lia | congruence].
  - split; [eauto | reflexivity].
  - rewrite !listening_app, T5, Hsub. reflexivity.
  - exact T6.
  - exact T7.
Qed.

Lemma tidy_disconnect (w : World) : tidy w -> tidy (disconnect w).
Proof.
  intros [T1 T2 T3 T4 T5 T6 T7]. unfold disconnect.
  apply (tidy_steady _ _ (steady_updateStatus disconnected _)).
  unfold cleanupNetworkListener.
  destruct (networkSubscription (this w)) eqn:Hsub.
  - destruct (proj1 T4 eq_refl) as [sock Hsock].
    cbn [this setThis perform socket withNetworkSubscription]. rewrite Hsock.
    pose proof (T2 sock Hsock) as Hlen.
    assert (Ho : is_Some (sockets w !! sock)) by (apply lookup_lt_is_Some; lia).
    destruct Ho as [o Ho]. unfold socketDisconnect. cbn [sockets setThis perform]. rewrite Ho.
    split; cbn [this effects sockets perform setThis setSocketObj socket
                networkSubscription withNetworkSubscription withSocketField
                statusListeners reconnectedListeners].
    + rewrite !created_app, T1, length_insert. cbn. rewrite !app_nil_r. reflexivity.
    + discriminate.
    + intros s Hlt _. rewrite length_insert in Hlt.
      destruct (decide (s = sock)) as [->|Hne].
      * apply elem_of_app. right. left.
      * apply elem_of_app. left. apply elem_of_app. left.
        apply T3; [exact Hlt | congruence].
    + split; [discriminate | intros [x Hx]; discriminate].
    + rewrite !listening_app, T5. reflexivity.
    + exact T6.
    + exact T7.
  - assert (Hnone : socket (this w) = None).
    { destruct (socket (this w)) eqn:Hs; [|reflexivity].
      assert (Hx : false = true) by (apply T4; eauto). discriminate. }
    rewrite Hnone. split; try assumption; rewrite Hsub; assumption.
Qed.

Lemma NoDup_setAdd (x : nat) (l : list nat) : NoDup l -> NoDup (setAdd x l).
Proof.
  intros H. unfold setAdd. case_bool_decide as Hin; [exact H|].
  apply NoDup_app. split; [exact H|]. split; [|apply NoDup_singleton].
  intros y Hy Hy'. apply list_elem_of_singleton in Hy' as ->. contradiction.
Qed.

Lemma NoDup_setDelete (x : nat) (l : list nat) : NoDup l -> NoDup (setDelete x l).
Proof. apply NoDup_filter. Qed.

Lemma tidy_step (w : World) (e : Event) : tidy w -> tidy (step w e).
Proof.
  intros Hw. pose proof (steady_step w e) as Hst.
  destruct e; try (apply (tidy_steady _ _ Hst Hw)); cbn [step]; clear Hst.
  - unfold initialize. apply tidy_connect.
    apply (tidy_steady w); [apply steady_same; reflexivity | exact Hw].
  - apply tidy_connect. exact Hw.
  - apply tidy_disconnect. exact Hw.
  - unfold ensureConnected. destruct (socket (this w)) as [sock|].
    + destruct (negb (socketConnected w)); [|exact Hw].
      apply (tidy_steady w); [|exact Hw].
      apply (steady_perform [SocketConnect sock]). reflexivity.
    + destruct (config (this w)); [apply tidy_connect|]; exact Hw.
  - destruct Hw as [T1 T2 T3 T4 T5 T6 T7]. unfold onStatusChange.
    split; cbn [this effects sockets perform setThis socket networkSubscription
                withStatusListeners statusListeners reconnectedListeners];
      try assumption.
    + rewrite created_app. cbn. rewrite app_nil_r. exact T1.
    + intros s Hlt Hne. apply elem_of_app. left. apply T3; assumption.
    + rewrite listening_app, T5. cbn. lia.
    + apply NoDup_setAdd. exact T6.
  - destruct Hw as [T1 T2 T3 T4 T5 T6 T7]. unfold offStatusChange.
    split; cbn [this effects sockets setThis socket networkSubscription
                withStatusListeners statusListeners reconnectedListeners];
      try assumption.
    apply NoDup_setDelete. exact T6.
  - destruct Hw as [T1 T2 T3 T4 T5 T6 T7]. unfold onReconnected.
    split; cbn [this effects sockets setThis socket networkSubscription
                withReconnectedListeners statusListeners reconnectedListeners];
      try assumption.
    apply NoDup_setAdd. exact T7.
  - destruct Hw as [T1 T2 T3 T4 T5 T6 T7]. unfold offReconnected.
    split; cbn [this effects sockets setThis socket networkSubscription
                withReconnectedListeners statusListeners reconnectedListeners];
      try assumption.
    apply NoDup_setDelete. exact T7.
  - unfold updateToken. destruct (config (this w)) as [cfg|]; [|exact Hw].
    case_bool_decide; [|exact Hw].
    match goal with |- tidy (match socket (this ?w1) with _ => _ end) =>
      assert (H1 : tidy w1)
        by (apply (tidy_steady w); [apply steady_same; reflexivity | exact Hw]);
      destruct (socket (this w1)) end; [|exact H1].
    apply tidy_connect, tidy_disconnect. exact H1.
Qed.

Lemma tidy_reachable (es : list Event) : tidy (run fresh es).
Proof.
  induction es as [|e es IH] using rev_ind; [exact tidy_fresh|].
  rewrite client_run_snoc. apply tidy_step. exact IH.
Qed.

(** X9.  The client never has two sockets in use and leaks none: in every
    world it can reach, the socket objects are those it created with [io],
    the socket it uses is the one created last, and it has called
    [disconnect()] on every other socket it ever created. *)
Theorem sockets_never_leak (es : list Event) :
  created (effects (run fresh es)) = seq 0 (length (sockets (run fresh es))) /\
  (forall sock, socket (this (run fresh es)) = Some sock ->
     S sock = length (sockets (run fresh es))) /\
  (forall sock, (sock < length (sockets (run fresh es)))%nat ->
     socket (this (run fresh es)) <> Some sock ->
     SocketDisconnect sock ∈ effects (run fresh es)).
Proof.
  destruct (tidy_reachable es) as [T1 T2 T3 _ _ _ _].
  split; [exact T1|]. split; [exact T2 | exact T3].
Qed.

(** X10.  The client keeps exactly one network-state listener while it has
    a socket and none otherwise: in every world it can reach, the listeners
    added and not removed number one when there is a socket and zero when
    there is none, and the subscription field is set exactly when there is
    a socket. *)
Theorem network_listener_balanced (es : list Event) :
  listening (effects (run fresh es))
    = match socket (this (run fresh es)) with Some _ => 1 | None => 0 end /\
  (networkSubscription (this (run fresh es)) = true
   <-> is_Some (socket (this (run fresh es)))).
Proof.
  destruct (tidy_reachable es) as [_ _ _ T4 T5 _ _].
  split; [|exact T4]. rewrite T5.
  destruct (networkSubscription (this (run fresh es))) eqn:Hsub.
  - destruct (proj1 T4 eq_refl) as [s ->]. reflexivity.
  - destruct (socket (this (run fresh es))) eqn:Hs; [|reflexivity].
    assert (Hx : false = true) by (apply T4; eauto). discriminate.
Qed.

(** *** Opening and closing the connection *)

Lemma updateStatus_effects (status : Status) (w : World) :
  effects (updateStatus status w) = effects w ++ statusCalls status w.
Proof.
  unfold updateStatus, statusCalls. case_bool_decide; [reflexivity|].
  symmetry. apply app_nil_r.
Qed.

Lemma updateStatus_fields (status : Status) (w : World) :
  currentStatus (this (updateStatus status w)) = status /\
  socket (this (updateStatus status w)) = socket (this w) /\
  config (this (updateStatus status w)) = config (this w) /\
  networkSubscription (this (updateStatus status w)) = networkSubscription (this w) /\
  reconnectedListeners (this (updateStatus status w)) = reconnectedListeners (this w) /\
  sockets (updateStatus status w) = sockets w /\
  calls (updateStatus status w) = calls w /\
  clock (updateStatus status w) = clock w.
Proof.
  unfold updateStatus. case_bool_decide as H; cbn; [tauto|].
  split; [|tauto].
  destruct (decide (currentStatus (this w) = status)); [assumption | contradiction].
Qed.

Lemma wire_app (es1 es2 : list Effect) : wire (es1 ++ es2) = wire es1 ++ wire es2.
Proof. apply List.filter_app. Qed.

Lemma wire_statusCalls (status : Status) (w : World) : wire (statusCalls status w) = [].
Proof.
  unfold statusCalls. case_bool_decide; [|reflexivity].
  induction (statusListeners (this w)); [reflexivity | assumption].
Qed.

(** [disconnect()] on a client without socket, subscription or connection
    does nothing. *)
Lemma disconnect_closed (w : World) :
  socket (this w) = None -> networkSubscription (this w) = false ->
  currentStatus (this w) = disconnected -> disconnect w = w.
Proof.
  intros Hs Hn Hc. unfold disconnect, cleanupNetworkListener. rewrite Hn, Hs.
  unfold updateStatus. rewrite Hc. reflexivity.
Qed.

Lemma disconnect_fields (w : World) :
  socket (this (disconnect w)) = None /\
  networkSubscription (this (disconnect w)) = false /\
  currentStatus (this (disconnect w)) = disconnected /\
  config (this (disconnect w)) = config (this w) /\
  length (sockets (disconnect w)) = length (sockets w) /\
  calls (disconnect w) = calls w /\ clock (disconnect w) = clock w.
Proof.
  unfold disconnect.
  match goal with |- context [updateStatus disconnected ?w2] =>
    destruct (updateStatus_fields disconnected w2) as (-> & -> & -> & -> & _ & -> & -> & ->)
  end.
  unfold cleanupNetworkListener, socketDisconnect.
  destruct (networkSubscription (this w)) eqn:Hn; cbn;
    destruct (socket (this w)) as [sock|] eqn:Hs; cbn; rewrite ?Hn;
    try destruct (sockets w !! sock) eqn:Ho; cbn; rewrite ?length_insert; tauto.
Qed.

Lemma disconnect_wire (w : World) :
  wire (effects (disconnect w))
  = wire (effects w) ++
    match socket (this w) with
    | Some sock =>
        match sockets w !! sock with
        | Some _ => [SocketDisconnect sock]
        | None => []
        end
    | None => []
    end.
Proof.
  unfold disconnect. rewrite updateStatus_effects, wire_app, wire_statusCalls, app_nil_r.
  unfold cleanupNetworkListener, socketDisconnect.
  destruct (networkSubscription (this w)); cbn;
    destruct (socket (this w)) as [sock|]; cbn;
    try destruct (sockets w !! sock); cbn;
    rewrite ?wire_app, ?app_nil_r; cbn; rewrite ?app_nil_r; reflexivity.
Qed.

(** [connect()] on a configured client without a socket. *)
Lemma connect_opens (w : World) (cfg : SyncSocketConfig) :
  config (this w) = Some cfg -> socket (this w) = None ->
  socket (this (connect w)) = Some (length (sockets w)) /\
  sockets (connect w)
    = sockets w ++ [{| sock_connected := false; sock_recovered := false |}] /\
  currentStatus (this (connect w)) = connecting /\
  config (this (connect w)) = Some cfg /\
  networkSubscription (this (connect w)) = true /\
  calls (connect w) = calls w /\ clock (connect w) = clock w /\
  wire (effects (connect w))
    = wire (effects w) ++ [IoCreated (length (sockets w)) (endpoint cfg) (token cfg)].
Proof.
  intros Hc Hs. unfold connect. rewrite Hc, Hs.
  destruct (updateStatus_fields connecting w) as (H1 & H2 & H3 & H4 & H5 & H6 & H7 & H8).
  unfold setupNetworkListener, cleanupNetworkListener.
  cbn [this networkSubscription withSocketField].
  destruct (networkSubscription (this (updateStatus connecting w)));
    cbn [this effects sockets calls clock perform setThis socket config currentStatus
         networkSubscription withNetworkSubscription withSocketField];
    rewrite H1, H3, H6, H7, H8, updateStatus_effects, !wire_app, wire_statusCalls;
    cbn; rewrite ?app_nil_r; tauto.
Qed.

(** X11.  [disconnect()] always leaves the client closed: no socket, no
    network-state listener, status [disconnected], the old socket
    disconnected on the wire and nothing else sent; closing twice is closing
    once; [send] then returns [false] and does nothing; and with the
    configuration kept, [ensureConnected()] opens a fresh socket. *)
Theorem disconnect_closes (w : World) :
  socket (this (disconnect w)) = None /\
  networkSubscription (this (disconnect w)) = false /\
  currentStatus (this (disconnect w)) = disconnected /\
  disconnect (disconnect w) = disconnect w /\
  (forall sock o, socket (this w) = Some sock -> sockets w !! sock = Some o ->
     wire (effects (disconnect w)) = wire (effects w) ++ [SocketDisconnect sock]) /\
  (forall event data, send event data (disconnect w) = (false, disconnect w)) /\
  (forall cfg, config (this w) = Some cfg ->
     socket (this (ensureConnected (disconnect w))) = Some (length (sockets w)) /\
     wire (effects (ensureConnected (disconnect w)))
       = wire (effects (disconnect w))
           ++ [IoCreated (length (sockets w)) (endpoint cfg) (token cfg)]).
Proof.
  destruct (disconnect_fields w) as (Hs & Hn & Hc & Hcfg & Hlen & _).
  split; [exact Hs|]. split; [exact Hn|]. split; [exact Hc|].
  split; [apply disconnect_closed; assumption|]. split.
  - intros sock o Hsock Ho. rewrite disconnect_wire, Hsock, Ho. reflexivity.
  - split.
    + intros event data. unfold send. rewrite Hs. reflexivity.
    + intros cfg Hcf. unfold ensureConnected. rewrite Hs, Hcfg, Hcf.
      assert (Hcf' : config (this (disconnect w)) = Some cfg) by congruence.
      destruct (connect_opens (disconnect w) cfg Hcf' Hs) as (H1 & _ & _ & _ & _ & _ & _ & H8).
      rewrite H1, H8, Hlen. split; reflexivity.
Qed.

(** X12.  [connect()] opens a socket only when there is none: connecting
    twice is connecting once; and [initialize] on a client that has a
    socket swaps the configuration and the registry but keeps the socket,
    creating nothing and notifying nobody. *)
Theorem connect_only_without_socket (w : World) :
  connect (connect w) = connect w /\
  (forall sock, socket (this w) = Some sock -> connect w = w) /\
  (forall sock cfg e, socket (this w) = Some sock ->
     socket (this (initialize cfg e w)) = Some sock /\
     config (this (initialize cfg e w)) = Some cfg /\
     encryption (this (initialize cfg e w)) = Some e /\
     sockets (initialize cfg e w) = sockets w /\
     effects (initialize cfg e w) = effects w /\
     currentStatus (this (initialize cfg e w)) = currentStatus (this w)).
Proof.
  assert (Hhas : forall w0 sock, socket (this w0) = Some sock -> connect w0 = w0).
  { intros w0 sock H. unfold connect. rewrite H. destruct (config (this w0)); reflexivity. }
  split; [|split].
  - destruct (config (this w)) as [cfg|] eqn:Hc.
    + destruct (socket (this w)) as [sock|] eqn:Hs.
      * rewrite (Hhas w sock Hs). apply (Hhas w sock Hs).
      * destruct (connect_opens w cfg Hc Hs) as (H1 & _).
        apply (Hhas _ _ H1).
    + assert (Hw : connect w = w) by (unfold connect; rewrite Hc; reflexivity).
      rewrite Hw. exact Hw.
  - exact (Hhas w).
  - intros sock cfg e Hs. unfold initialize.
    rewrite (Hhas _ sock) by exact Hs. cbn. tauto.
Qed.

(** X13.  [updateToken] with a new token on a client that has a socket
    closes that socket and opens a new one to the same endpoint with the new
    token, in that order and with nothing else on the wire; with the token
    it already has it does nothing; and without a socket it only stores the
    token. *)
Theorem updateToken_reconnects (w : World) (cfg : SyncSocketConfig)
    (newToken : string) :
  config (this w) = Some cfg ->
  (token cfg = newToken -> updateToken newToken w = w) /\
  (token cfg <> newToken ->
   config (this (updateToken newToken w))
     = Some {| endpoint := endpoint cfg; token := newToken |} /\
   (socket (this w) = None ->
      socket (this (updateToken newToken w)) = None /\
      effects (updateToken newToken w) = effects w /\
      sockets (updateToken newToken w) = sockets w) /\
   (forall sock o, socket (this w) = Some sock -> sockets w !! sock = Some o ->
      socket (this (updateToken newToken w)) = Some (length (sockets w)) /\
      currentStatus (this (updateToken newToken w)) = connecting /\
      sockets (updateToken newToken w) !! sock
        = Some {| sock_connected := false; sock_recovered := sock_recovered o |} /\
      wire (effects (updateToken newToken w))
        = wire (effects w) ++
          [SocketDisconnect sock;
           IoCreated (length (sockets w)) (endpoint cfg) newToken])).
Proof.
  intros Hc. unfold updateToken. rewrite Hc. split.
  - intros Heq. rewrite bool_decide_eq_false_2 by (intros H; apply H; exact Heq).
    reflexivity.
  - intros Hne. rewrite bool_decide_eq_true_2 by exact Hne.
    set (w1 := setThis (withConfig (Some {| endpoint := endpoint cfg; token := newToken |})) w).
    assert (Hs1 : socket (this w1) = socket (this w)) by reflexivity.
    assert (Hc1 : config (this w1)
                  = Some {| endpoint := endpoint cfg; token := newToken |}) by reflexivity.
    rewrite Hs1. split; [|split].
    + destruct (socket (this w)) as [sock|] eqn:Hs; [|exact Hc1].
      destruct (disconnect_fields w1) as (Hds & _ & _ & Hdc & _).
      rewrite Hc1 in Hdc.
      destruct (connect_opens (disconnect w1) _ Hdc Hds) as (_ & _ & _ & H4 & _).
      exact H4.
    + intros Hs. rewrite Hs. split; [exact Hs | split; reflexivity].
    + intros sock o Hs Ho. rewrite Hs.
      destruct (disconnect_fields w1) as (Hds & _ & _ & Hdc & Hlen & _).
      rewrite Hc1 in Hdc.
      destruct (connect_opens (disconnect w1) _ Hdc Hds)
        as (H1 & H2 & H3 & _ & _ & _ & _ & H8).
      split; [rewrite H1, Hlen; reflexivity|]. split; [exact H3|]. split.
      * rewrite H2. rewrite lookup_app_l
          by (rewrite Hlen; apply lookup_lt_is_Some; eauto).
        unfold disconnect.
        match goal with |- context [updateStatus disconnected ?w2] =>
          destruct (updateStatus_fields disconnected w2) as (_ & _ & _ & _ & _ & -> & _)
        end.
        unfold cleanupNetworkListener, socketDisconnect.
        destruct (networkSubscription (this w1)); cbn; rewrite Hs; cbn; rewrite Ho; cbn;
          apply list_lookup_insert_eq; apply lookup_lt_is_Some; eauto.
      * rewrite H8, Hlen, (disconnect_wire w1), Hs1, Hs. cbn [sockets w1 setThis].
        rewrite Ho, <- app_assoc. reflexivity.
Qed.

Lemma updateToken_reconnects_witness :
  wire (effects (updateToken "t2" online))
    = wire (effects online) ++ [SocketDisconnect 0; IoCreated 1 "https://api.example" "t2"].
Proof.
  destruct (updateToken_reconnects online sampleConfig "t2" eq_refl) as [_ H].
  destruct H as (_ & _ & H); [discriminate|].
  destruct (H 0%nat {| sock_connected := true; sock_recovered := false |}
              eq_refl eq_refl) as (_ & _ & _ & Hw).
  exact Hw.
Defined.

(** *** Listeners and handlers *)

Lemma onSocketConnect_effects (w : World) (sock : nat) (recovered : bool)
    (o : SocketObj) :
  socket (this w) = Some sock -> sockets w !! sock = Some o ->
  effects (onSocketConnect sock recovered w)
  = effects w ++ statusCalls connected w ++
    (if recovered then []
     else map ReconnectedListenerCalled (reconnectedListeners (this w))) /\
  this (onSocketConnect sock recovered w)
  = this (updateStatus connected w) /\
  sockets (onSocketConnect sock recovered w)
  = <[sock := {| sock_connected := true; sock_recovered := recovered |}]> (sockets w).
Proof.
  intros Hs Ho. unfold onSocketConnect. rewrite Ho. cbn [effects this sockets].
  set (w1 := setSocketObj sock {| sock_connected := true; sock_recovered := recovered |} w).
  destruct (updateStatus_fields connected w1) as (_ & H2 & _ & _ & H5 & H6 & _).
  assert (Hrec : socketRecovered (updateStatus connected w1) = recovered).
  { unfold socketRecovered. rewrite H2, H6. cbn [w1 this setSocketObj sockets].
    rewrite Hs, list_lookup_insert_eq by (apply lookup_lt_is_Some; eauto). reflexivity. }
  rewrite Hrec.
  assert (Hthis : this (updateStatus connected w1) = this (updateStatus connected w)).
  { unfold updateStatus. cbn [w1 this setSocketObj]. case_bool_decide; reflexivity. }
  destruct recovered; cbn [negb perform effects this sockets].
  - rewrite updateStatus_effects, app_nil_r. split; [reflexivity|].
    split; [exact Hthis | exact H6].
  - rewrite updateStatus_effects, H5, <- app_assoc. split; [reflexivity|].
    split; [exact Hthis | exact H6].
Qed.

(** X14.  When the socket in use connects, in every world the client can
    reach: the status listeners are told [connected] if that is a change,
    then, unless the connection was recovered, every reconnect listener is
    called, once each in the order of registration; on a recovered
    connection none is called. *)
Theorem reconnected_listeners_notified (es : list Event) (sock : nat)
    (recovered : bool) :
  socket (this (run fresh es)) = Some sock ->
  effects (step (run fresh es) (SocketConnects sock recovered))
  = effects (run fresh es) ++ statusCalls connected (run fresh es) ++
    (if recovered then []
     else map ReconnectedListenerCalled (reconnectedListeners (this (run fresh es)))) /\
  NoDup (reconnectedListeners (this (run fresh es))) /\
  NoDup (statusListeners (this (run fresh es))) /\
  currentStatus (this (step (run fresh es) (SocketConnects sock recovered))) = connected.
Proof.
  intros Hs. destruct (tidy_reachable es) as [_ T2 _ _ _ T6 T7].
  assert (Ho : is_Some (sockets (run fresh es) !! sock)).
  { apply lookup_lt_is_Some. specialize (T2 sock Hs). lia. }
  destruct Ho as [o Ho]. cbn [step].
  destruct (onSocketConnect_effects (run fresh es) sock recovered o Hs Ho) as (He & Ht & _).
  split; [exact He|]. split; [exact T7|]. split; [exact T6|].
  rewrite Ht. apply updateStatus_fields.
Qed.

Lemma reconnected_listeners_notified_witness :
  effects (step (run fresh [Initialize sampleConfig sampleEncryption;
                            OnReconnected 5; OnReconnected 6; OnReconnected 5])
                (SocketConnects 0 false))
  = effects (run fresh [Initialize sampleConfig sampleEncryption;
                        OnReconnected 5; OnReconnected 6; OnReconnected 5])
    ++ [ReconnectedListenerCalled 5; ReconnectedListenerCalled 6].
Proof.
  destruct (reconnected_listeners_notified
              [Initialize sampleConfig sampleEncryption;
               OnReconnected 5; OnReconnected 6; OnReconnected 5] 0 false eq_refl)
    as [H _].
  exact H.
Defined.

Lemma onMessage_lookup (event : string) (handler : nat) (w : World) (other : string) :
  messageHandlers (this (onMessage event handler w)) !! other
  = if bool_decide (other = event) then Some handler
    else messageHandlers (this w) !! other.
Proof.
  cbn. case_bool_decide as H.
  - subst other. apply lookup_insert_eq.
  - apply lookup_insert_ne. congruence.
Qed.

(** X15.  An event has at most one handler.  The handler registered last
    for an event is the one the socket's messages go to; registering a
    handler for another event does not change that; removing the handler of
    an event, also through the function returned for an earlier
    registration, leaves the event without handler; and a message for an
    event without handler has no effect at all. *)
Theorem message_dispatch (w : World) (sock : nat) (event : string) (data : Value) :
  is_Some (sockets w !! sock) ->
  (forall h, effects (onSocketAny sock event data (onMessage event h w))
             = effects w ++ [MessageHandlerCalled h data]) /\
  (forall h h', effects (onSocketAny sock event data
                           (onMessage event h' (onMessage event h w)))
                = effects w ++ [MessageHandlerCalled h' data]) /\
  (forall h other h', other <> event ->
     effects (onSocketAny sock event data (onMessage other h' (onMessage event h w)))
     = effects w ++ [MessageHandlerCalled h data]) /\
  (forall h h', onSocketAny sock event data
                  (offMessage event (onMessage event h' (onMessage event h w)))
                = offMessage event (onMessage event h' (onMessage event h w))) /\
  (messageHandlers (this w) !! event = None ->
     onSocketAny sock event data w = w).
Proof.
  intros [o Ho].
  assert (Hany : forall w0 h, sockets w0 !! sock = Some o ->
            messageHandlers (this w0) !! event = Some h ->
            effects (onSocketAny sock event data w0)
            = effects w0 ++ [MessageHandlerCalled h data]).
  { intros w0 h H1 H2. unfold onSocketAny. rewrite H1, H2. reflexivity. }
  split; [|split; [|split; [|split]]].
  - intros h. apply (Hany (onMessage event h w)); [exact Ho|].
    rewrite onMessage_lookup, bool_decide_eq_true_2; reflexivity.
  - intros h h'. apply (Hany (onMessage event h' (onMessage event h w))); [exact Ho|].
    rewrite onMessage_lookup, bool_decide_eq_true_2; reflexivity.
  - intros h other h' Hne.
    apply (Hany (onMessage other h' (onMessage event h w))); [exact Ho|].
    rewrite onMessage_lookup, bool_decide_eq_false_2 by congruence.
    rewrite onMessage_lookup, bool_decide_eq_true_2; reflexivity.
  - intros h h'. unfold onSocketAny.
    cbn [sockets offMessage onMessage setThis this messageHandlers withMessageHandlers].
    rewrite Ho, lookup_delete_eq. reflexivity.
  - intros Hnone. unfold onSocketAny. rewrite Ho, Hnone. reflexivity.
Qed.

Lemma message_dispatch_witness :
  effects (onSocketAny 0 "update" (VStr "m")
             (onMessage "update" 9 (onMessage "update" 8 online)))
  = effects online ++ [MessageHandlerCalled 9 (VStr "m")].
Proof.
  destruct (message_dispatch online 0 "update" (VStr "m")) as (_ & H & _).
  - eexists. reflexivity.
  - apply (H 8%nat 9%nat).
Defined.

(** *** Acknowledged sends across a reconnect *)

Lemma elapse_fields (dt : Z) (w : World) :
  this (elapse dt w) = this w /\ sockets (elapse dt w) = sockets w /\
  effects (elapse dt w) = effects w.
Proof. unfold elapse. destruct (0 <=? dt); repeat split. Qed.

Lemma elapse_ready (dt : Z) (w : World) (c : nat) (k : Async) :
  calls w !! c = Some (Ready k) -> calls (elapse dt w) !! c = Some (Ready k).
Proof.
  intros H. unfold elapse. destruct (0 <=? dt); [|exact H].
  cbn [calls]. rewrite list_lookup_fmap, H. reflexivity.
Qed.

Lemma elapse_waiting (dt : Z) (w : World) (c sock : nat) (deadline : Z) (k : Async) :
  calls w !! c = Some (WaitingConnect sock deadline k) -> clock w + dt < deadline ->
  calls (elapse dt w) !! c = Some (WaitingConnect sock deadline k).
Proof.
  intros H Hlt. unfold elapse. destruct (0 <=? dt); [|exact H].
  cbn [calls]. rewrite list_lookup_fmap, H. cbn [fmap option_fmap option_map expire].
  destruct (Z.leb_spec deadline (clock w + dt)); [lia | reflexivity].
Qed.

Lemma waiter_connects (w : World) (c sock : nat) (recovered : bool) (deadline : Z)
    (k : Async) :
  calls w !! c = Some (WaitingConnect sock deadline k) ->
  is_Some (sockets w !! sock) ->
  calls (onSocketConnect sock recovered w) !! c = Some (Ready k).
Proof.
  intros H Ho. destruct (onSocketConnect_change sock recovered w Ho) as (-> & _).
  rewrite list_lookup_fmap, H. cbn. rewrite bool_decide_eq_true_2; reflexivity.
Qed.

Lemma resume_emits (w : World) (c sock : nat) (event : string) (data : Value)
    (k : Value -> Async) :
  calls w !! c = Some (Ready (withSocket (fun s => AwaitAck s event data k))) ->
  socket (this w) = Some sock ->
  resume c w = setCall c (WaitingAck k) (perform [SocketEmitWithAck c sock event data] w).
Proof.
  intros H Hs. unfold resume. rewrite H. unfold withSocket. cbn [drive]. rewrite Hs.
  reflexivity.
Qed.

Lemma ack_returns (w : World) (c : nat) (r : settle Value) :
  calls w !! c = Some (WaitingAck Return) ->
  calls (ackSettles c r w) !! c = Some (Done r) /\
  effects (ackSettles c r w) = effects w.
Proof.
  intros H. unfold ackSettles. rewrite H.
  assert (Hlt : (c < length (calls w))%nat) by (apply lookup_lt_is_Some; eauto).
  destruct r; cbn [settleAwaited drive setCall calls effects];
    (split; [apply list_lookup_insert_eq; exact Hlt | reflexivity]).
Qed.

(** X16.  An acknowledged send made while the socket in use is down waits
    for it: when the socket connects within 10000 ms the timer is cleared,
    however long the continuation then takes to run; the event is emitted
    once, on that socket, after the listeners of the connection have been
    told; and the call settles as the acknowledgement does. *)
Theorem emitWithAck_waits_for_connect (w : World) (sock : nat) (o : SocketObj)
    (event : string) (data : Value) (dt dt' : Z) (recovered : bool)
    (r : settle Value) :
  socket (this w) = Some sock -> sockets w !! sock = Some o ->
  sock_connected o = false -> 0 <= dt < 10000 ->
  exists notes,
    forallb clientEffect notes = true /\
    outcomeSince w
      (run w (connectThenAck event data dt sock recovered dt' (length (calls w)) r))
      (length (calls w)) (Done r)
      (notes ++ [SocketEmitWithAck (length (calls w)) sock event data]).
Proof.
  intros Hs Ho Hoff Hdt.
  assert (Hconn : socketConnected w = false).
  { unfold socketConnected. rewrite Hs, Ho. exact Hoff. }
  set (c := length (calls w)).
  set (k := withSocket (fun s => AwaitAck s event data Return)).
  unfold connectThenAck. cbn [run foldl step]. unfold emitWithAck. fold k.
  destruct (invoke_waits w sock k Hs Hconn) as (Hc1 & Ht1 & Hso1 & He1 & Hcl1).
  set (w1 := invoke (AwaitConnection CONNECTION_TIMEOUT_MS k) w) in *.
  assert (Hw1 : calls w1 !! c = Some (WaitingConnect sock (clock w + 10000) k))
    by (rewrite Hc1; apply lookup_last).
  (* time passes, less than the timeout *)
  pose proof (elapse_waiting dt w1 c sock _ k Hw1 ltac:(lia)) as Hw2.
  destruct (elapse_fields dt w1) as (Ht2 & Hso2 & He2).
  set (w2 := elapse dt w1) in *.
  (* the socket connects *)
  assert (Ho2 : is_Some (sockets w2 !! sock)) by (rewrite Hso2, Hso1; eauto).
  pose proof (waiter_connects w2 c sock recovered _ k Hw2 Ho2) as Hw3.
  destruct (onSocketConnect_change sock recovered w2 Ho2) as (_ & _ & notes & He3 & Hn).
  destruct (steady_onSocketConnect sock recovered w2) as (Hs3 & _).
  set (w3 := onSocketConnect sock recovered w2) in *.
  (* more time passes *)
  pose proof (elapse_ready dt' w3 c k Hw3) as Hw4.
  destruct (elapse_fields dt' w3) as (Ht4 & Hso4 & He4).
  set (w4 := elapse dt' w3) in *.
  (* the continuation runs *)
  assert (Hs4 : socket (this w4) = Some sock) by congruence.
  rewrite (resume_emits w4 c sock event data Return Hw4 Hs4).
  set (w5 := setCall c (WaitingAck Return)
               (perform [SocketEmitWithAck c sock event data] w4)).
  assert (Hw5 : calls w5 !! c = Some (WaitingAck Return)).
  { cbn. apply list_lookup_insert_eq. apply lookup_lt_is_Some. eauto. }
  destruct (ack_returns w5 c r Hw5) as (Hw6 & He6).
  exists notes. split; [exact Hn|]. split; [exact Hw6|].
  rewrite He6. cbn [w5 setCall perform effects].
  rewrite He4, He3, He2, He1, app_assoc. reflexivity.
Qed.

Lemma emitWithAck_waits_for_connect_witness :
  calls (run reconnecting
           (connectThenAck "ping" VNull 4000 0 true 60000 0 (Fulfilled (VStr "pong"))))
    !! 0%nat
  = Some (Done (Fulfilled (VStr "pong"))).
Proof.
  destruct (emitWithAck_waits_for_connect reconnecting 0
              {| sock_connected := false; sock_recovered := false |}
              "ping" VNull 4000 60000 true (Fulfilled (VStr "pong")))
    as (notes & _ & H & _).
  - reflexivity.
  - reflexivity.
  - reflexivity.
  - lia.
  - exact H.
Defined.

Lemma updateToken_opens (w : World) (cfg : SyncSocketConfig) (newToken : string)
    (sock : nat) (o : SocketObj) :
  config (this w) = Some cfg -> token cfg <> newToken ->
  socket (this w) = Some sock -> sockets w !! sock = Some o ->
  socket (this (updateToken newToken w)) = Some (length (sockets w)) /\
  currentStatus (this (updateToken newToken w)) = connecting /\
  length (sockets (updateToken newToken w)) = S (length (sockets w)) /\
  calls (updateToken newToken w) = calls w /\
  clock (updateToken newToken w) = clock w /\
  wire (effects (updateToken newToken w))
    = wire (effects w) ++
      [SocketDisconnect sock; IoCreated (length (sockets w)) (endpoint cfg) newToken].
Proof.
  intros Hc Hne Hs Ho. unfold updateToken. rewrite Hc.
  rewrite bool_decide_eq_true_2 by exact Hne.
  set (w1 := setThis (withConfig (Some {| endpoint := endpoint cfg; token := newToken |})) w).
  assert (Hs1 : socket (this w1) = Some sock) by exact Hs.
  rewrite Hs1.
  destruct (disconnect_fields w1) as (Hds & _ & _ & Hdc & Hlen & Hdcalls & Hdclock).
  destruct (connect_opens (disconnect w1) _ Hdc Hds)
    as (H1 & H2 & H3 & _ & _ & H6 & H7 & H8).
  split; [rewrite H1, Hlen; reflexivity|]. split; [exact H3|].
  split; [rewrite H2, length_app, Hlen; cbn; lia|].
  split; [rewrite H6, Hdcalls; reflexivity|].
  split; [rewrite H7, Hdclock; reflexivity|].
  rewrite H8, Hlen, (disconnect_wire w1), Hs1. cbn [sockets w1 setThis].
  rewrite Ho, <- app_assoc. reflexivity.
Qed.

(** X17.  A call that waits for the connection waits on the socket that was
    in use when it was made.  When the token is rotated meanwhile, that
    socket is dropped, and the call is rejected with the timeout error after
    10000 ms although the new socket has connected and the status is
    [connected]. *)
Theorem waiting_call_lost_on_token_change (w : World) (sock : nat) (o : SocketObj)
    (cfg : SyncSocketConfig) (newToken event : string) (data : Value)
    (recovered : bool) :
  socket (this w) = Some sock -> sockets w !! sock = Some o ->
  sock_connected o = false ->
  config (this w) = Some cfg -> token cfg <> newToken ->
  calls (run w (rotateWhileWaiting event data newToken (length (sockets w)) recovered))
    !! length (calls w)
  = Some (Done (Rejected (Error "Socket connection timeout"))) /\
  socket (this (run w (rotateWhileWaiting event data newToken (length (sockets w))
                         recovered)))
  = Some (length (sockets w)) /\
  currentStatus (this (run w (rotateWhileWaiting event data newToken
                                (length (sockets w)) recovered)))
  = connected.
Proof.
  intros Hs Ho Hoff Hc Hne.
  assert (Hconn : socketConnected w = false).
  { unfold socketConnected. rewrite Hs, Ho. exact Hoff. }
  assert (Hlt : (sock < length (sockets w))%nat) by (apply lookup_lt_is_Some; eauto).
  set (c := length (calls w)). set (new := length (sockets w)).
  set (k := withSocket (fun s => AwaitAck s event data Return)).
  unfold rotateWhileWaiting. cbn [run foldl step]. unfold emitWithAck. fold k.
  destruct (invoke_waits w sock k Hs Hconn) as (Hc1 & Ht1 & Hso1 & He1 & Hcl1).
  set (w1 := invoke (AwaitConnection CONNECTION_TIMEOUT_MS k) w) in *.
  assert (Hw1 : calls w1 !! c = Some (WaitingConnect sock (clock w + 10000) k))
    by (rewrite Hc1; apply lookup_last).
  (* the token is rotated: a new socket replaces the one waited on *)
  destruct (updateToken_opens w1 cfg newToken sock o) as (Hs2 & Hst2 & Hlen2 & Hc2 & Hcl2 & _);
    [rewrite Ht1; exact Hc | exact Hne | rewrite Ht1; exact Hs | rewrite Hso1; exact Ho |].
  rewrite Hso1 in Hs2, Hlen2. fold new in Hs2.
  set (w2 := updateToken newToken w1) in *.
  (* the new socket connects: the waiting call is not told *)
  assert (Ho2 : is_Some (sockets w2 !! new)).
  { apply lookup_lt_is_Some. rewrite Hlen2. unfold new. lia. }
  destruct Ho2 as [o2 Ho2].
  destruct (onSocketConnect_effects w2 new recovered o2 Hs2 Ho2) as (_ & Ht3 & _).
  destruct (onSocketConnect_change new recovered w2 (ex_intro _ o2 Ho2)) as (Hc3 & Hcl3 & _).
  set (w3 := onSocketConnect new recovered w2) in *.
  assert (Hw3 : calls w3 !! c = Some (WaitingConnect sock (clock w + 10000) k)).
  { rewrite Hc3, list_lookup_fmap, Hc2, Hw1. cbn.
    rewrite bool_decide_eq_false_2; [reflexivity | unfold new; lia]. }
  (* the timer fires *)
  destruct (elapse_fields 10000 w3) as (Ht4 & _).
  split; [|rewrite Ht4, Ht3; split;
           [rewrite (proj1 (proj2 (updateStatus_fields connected w2))); exact Hs2
           |apply updateStatus_fields]].
  unfold elapse. cbn [Z.leb Z.compare calls].
  rewrite list_lookup_fmap, Hw3. cbn [fmap option_fmap option_map expire].
  rewrite Hcl3, Hcl2, Hcl1.
  destruct (Z.leb_spec (clock w + 10000) (clock w + 10000)); [reflexivity | lia].
Qed.

Lemma waiting_call_lost_on_token_change_witness :
  calls (run reconnecting (rotateWhileWaiting "ping" VNull "t2" 1 false)) !! 0%nat
  = Some (Done (Rejected (Error "Socket connection timeout"))).
Proof.
  destruct (waiting_call_lost_on_token_change reconnecting 0
              {| sock_connected := false; sock_recovered := false |}
              sampleConfig "t2" "ping" VNull false) as (H & _).
  - reflexivity.
  - reflexivity.
  - reflexivity.
  - reflexivity.
  - discriminate.
  - exact H.
Defined.

(** *** How an RPC call fails *)

Lemma rpcBody_encrypting (w : World) (cipher : Cipher) (peerId method : string)
    (params : Value) (sock : nat) :
  socket (this w) = Some sock -> socketConnected w = true ->
  run (invoke (rpcBody cipher peerId method params) w) [Resume (length (calls w))]
  = {| this := this w; sockets := sockets w;
       calls := calls w ++
         [WaitingCipher (fun encrypted =>
            AwaitAck sock "rpc-call" (rpcCall (methodKey peerId method) encrypted)
              (rpcResult cipher))];
       clock := clock w;
       effects := effects w ++ [CipherCalled (length (calls w)) Encrypt cipher params] |}.
Proof.
  intros Hs Hc. unfold invoke, rpcBody.
  cbn [drive]. unfold waitForConnection.
  assert (Hc' : forall cs cl ef,
             socketConnected {| this := this w; sockets := sockets w; calls := cs;
                                clock := cl; effects := ef |} = true)
    by (intros; exact Hc).
  rewrite Hc'. unfold setCall. cbn [this sockets calls clock effects].
  rewrite insert_last.
  cbn [run foldl step]. unfold resume. cbn [calls].
  rewrite lookup_last. unfold withSocket. cbn [drive this]. rewrite Hs.
  cbn [drive]. unfold setCall, perform. cbn [this sockets calls clock effects].
  rewrite insert_last. reflexivity.
Qed.

Lemma rpcBody_emitted (w : World) (cipher : Cipher) (peerId method : string)
    (params encrypted : Value) (sock : nat) :
  socket (this w) = Some sock -> socketConnected w = true ->
  run (invoke (rpcBody cipher peerId method params) w)
      [Resume (length (calls w)); CipherSettles (length (calls w)) (Fulfilled encrypted)]
  = {| this := this w; sockets := sockets w;
       calls := calls w ++ [WaitingAck (rpcResult cipher)];
       clock := clock w;
       effects := effects w ++
         [CipherCalled (length (calls w)) Encrypt cipher params;
          SocketEmitWithAck (length (calls w)) sock "rpc-call"
            (rpcCall (methodKey peerId method) encrypted)] |}.
Proof.
  intros Hs Hc.
  change [Resume (length (calls w)); CipherSettles (length (calls w)) (Fulfilled encrypted)]
    with ([Resume (length (calls w))]
            ++ [CipherSettles (length (calls w)) (Fulfilled encrypted)]).
  unfold run at 1. rewrite foldl_app. fold (run (invoke (rpcBody cipher peerId method params) w)
                                              [Resume (length (calls w))]).
  rewrite (rpcBody_encrypting w cipher peerId method params sock Hs Hc).
  cbn [foldl step]. unfold cipherSettles. cbn [calls].
  rewrite lookup_last. unfold settleAwaited. cbn [drive].
  unfold setCall, perform. cbn [this sockets calls clock effects].
  rewrite insert_last, <- app_assoc. reflexivity.
Qed.

Lemma run_two_more (w : World) (e1 e2 : Event) (es : list Event) :
  run w (e1 :: e2 :: es) = run (run w [e1; e2]) es.
Proof. reflexivity. Qed.

Lemma rpcBody_failures (w : World) (e : Event) (c : Cipher) (peerId method : string)
    (params : Value) (sock : nat) :
  step w e = invoke (rpcBody c peerId method params) w ->
  socket (this w) = Some sock -> socketConnected w = true ->
  rpcFailures w e c (methodKey peerId method) params sock.
Proof.
  intros He Hs Hc. unfold rpcFailures, outcomeSince. rewrite He.
  split; [|split; [|split; [|split]]].
  - intros err. rewrite client_run_cons.
    change (run (step ?w0 (Resume ?n)) ?es) with (run (run w0 [Resume n]) es).
    rewrite (rpcBody_encrypting w c peerId method params sock Hs Hc).
    cbn [run foldl step]. unfold cipherSettles. cbn [calls]. rewrite lookup_last.
    cbn [settleAwaited setCall calls effects]. rewrite insert_last.
    split; [apply lookup_last | reflexivity].
  - intros encrypted err. rewrite run_two_more.
    rewrite (rpcBody_emitted w c peerId method params encrypted sock Hs Hc).
    cbn [run foldl step]. unfold ackSettles. cbn [calls]. rewrite lookup_last.
    cbn [settleAwaited setCall calls effects]. rewrite insert_last.
    split; [apply lookup_last | reflexivity].
  - intros encrypted ack flag Hok Hfalsy. rewrite run_two_more.
    rewrite (rpcBody_emitted w c peerId method params encrypted sock Hs Hc).
    cbn [run foldl step]. unfold ackSettles. cbn [calls]. rewrite lookup_last.
    unfold settleAwaited, rpcResult. rewrite Hok, Hfalsy.
    cbn [drive setCall calls effects]. rewrite insert_last.
    split; [apply lookup_last | reflexivity].
  - intros encrypted ack Hack. rewrite run_two_more.
    rewrite (rpcBody_emitted w c peerId method params encrypted sock Hs Hc).
    cbn [run foldl step]. unfold ackSettles. cbn [calls]. rewrite lookup_last.
    unfold settleAwaited, rpcResult.
    destruct Hack as [-> | ->]; cbn [prop drive setCall calls effects];
      rewrite insert_last; (split; [apply lookup_last | reflexivity]).
  - intros encrypted payload err. rewrite run_two_more.
    rewrite (rpcBody_emitted w c peerId method params encrypted sock Hs Hc).
    cbn [run foldl step]. unfold ackSettles. cbn [calls]. rewrite lookup_last.
    unfold settleAwaited, rpcResult, ackOk.
    cbn [prop field String.eqb Ascii.eqb Bool.eqb truthyValue drive].
    unfold setCall, perform. cbn [this sockets calls clock effects].
    rewrite insert_last.
    unfold cipherSettles. cbn [calls]. rewrite lookup_last.
    cbn [settleAwaited setCall calls effects]. rewrite insert_last, <- app_assoc.
    split; [apply lookup_last | reflexivity].
Qed.

(** X18.  How [sessionRPC] and [machineRPC] fail on a connected socket.
    When [encryptRaw] fails the call is rejected with its error and nothing
    is emitted.  When the acknowledgement is rejected, so is the call.  An
    acknowledgement whose [ok] is falsy rejects the call with 'RPC call
    failed', and one that is [null] or [undefined] with a type error,
    without [decryptRaw] being called.  When [decryptRaw] fails the call
    is rejected with its error. *)
Theorem rpc_failure_modes (w : World) (e : Encryption) (peerId method : string)
    (params : Value) (c : Cipher) (sock : nat) :
  encryption (this w) = Some e ->
  socket (this w) = Some sock -> socketConnected w = true ->
  (getSessionEncryption e peerId = Some c ->
     rpcFailures w (CallSessionRPC peerId method params) c
       (methodKey peerId method) params sock) /\
  (getMachineEncryption e peerId = Some c ->
     rpcFailures w (CallMachineRPC peerId method params) c
       (methodKey peerId method) params sock).
Proof.
  intros He Hs Hc. split; intros Hk.
  - apply rpcBody_failures; [|exact Hs | exact Hc].
    apply (invoke_sessionRPC w e); assumption.
  - apply rpcBody_failures; [|exact Hs | exact Hc].
    apply (invoke_machineRPC w e); assumption.
Qed.

Lemma rpc_failure_modes_witness :
  outcomeSince online
    (run (step online (CallSessionRPC "S1" "m" (VStr "p")))
         [Resume 0; CipherSettles 0 (Fulfilled (VStr "sealed"));
          AckSettles 0 (Fulfilled (VObj [("ok"%string, VBool false)]))])
    0 (Done (Rejected (Error "RPC call failed")))
    [CipherCalled 0 Encrypt 1%nat (VStr "p");
     SocketEmitWithAck 0 0 "rpc-call" (rpcCall "S1:m" (VStr "sealed"))].
Proof.
  destruct (rpc_failure_modes online sampleEncryption "S1" "m" (VStr "p") 1%nat 0%nat
              eq_refl eq_refl eq_refl) as [H _].
  destruct (H eq_refl) as (_ & _ & Hfail & _).
  exact (Hfail (VStr "sealed") (VObj [("ok"%string, VBool false)]) (VBool false)
               eq_refl eq_refl).
Defined.

(** *** An RPC call across a token rotation *)

Lemma rpcBody_emits_on_dropped (w : World) (e : Event) (c : Cipher)
    (peerId method : string) (params encrypted : Value) (sock : nat) (o : SocketObj)
    (cfg : SyncSocketConfig) (newToken : string) :
  step w e = invoke (rpcBody c peerId method params) w ->
  socket (this w) = Some sock -> sockets w !! sock = Some o ->
  sock_connected o = true ->
  config (this w) = Some cfg -> token cfg <> newToken ->
  emitsOnDroppedSocket w e (methodKey peerId method) sock cfg newToken encrypted.
Proof.
  intros He Hs Ho Hon Hc Hne.
  assert (Hconn : socketConnected w = true).
  { unfold socketConnected. rewrite Hs, Ho. exact Hon. }
  unfold emitsOnDroppedSocket, rotateWhileEncrypting. rewrite He, client_run_cons.
  change (run (step ?w0 (Resume ?n)) ?es) with (run (run w0 [Resume n]) es).
  rewrite (rpcBody_encrypting w c peerId method params sock Hs Hconn).
  match goal with |- context [run ?w1 _] => set (w1' := w1) end.
  destruct (updateToken_opens w1' cfg newToken sock o Hc Hne Hs Ho)
    as (Hs2 & _ & _ & Hc2 & _ & Hw2).
  cbn [run foldl step]. set (w2 := updateToken newToken w1') in *.
  unfold cipherSettles. rewrite Hc2. cbn [w1' calls]. rewrite lookup_last.
  cbn [settleAwaited drive]. cbn [setCall perform effects this].
  split; [|exact Hs2].
  rewrite wire_app, Hw2. cbn [w1' effects sockets]. rewrite wire_app.
  cbn. rewrite app_nil_r, <- app_assoc. reflexivity.
Qed.

(** X23.  An RPC call takes the socket from [this.socket] before it awaits
    [encryptRaw], and emits on that socket afterwards.  When the token is
    rotated in between, the call goes out on the socket that the client has
    already disconnected and replaced, not on the socket in use. *)
Theorem rpc_emits_on_captured_socket (w : World) (e : Encryption)
    (peerId method : string) (params encrypted : Value) (c : Cipher) (sock : nat)
    (o : SocketObj) (cfg : SyncSocketConfig) (newToken : string) :
  encryption (this w) = Some e ->
  socket (this w) = Some sock -> sockets w !! sock = Some o ->
  sock_connected o = true ->
  config (this w) = Some cfg -> token cfg <> newToken ->
  (getSessionEncryption e peerId = Some c ->
     emitsOnDroppedSocket w (CallSessionRPC peerId method params)
       (methodKey peerId method) sock cfg newToken encrypted) /\
  (getMachineEncryption e peerId = Some c ->
     emitsOnDroppedSocket w (CallMachineRPC peerId method params)
       (methodKey peerId method) sock cfg newToken encrypted).
Proof.
  intros He Hs Ho Hon Hc Hne. split; intros Hk.
  - apply (rpcBody_emits_on_dropped w _ c peerId method params encrypted sock o);
      try assumption.
    apply (invoke_sessionRPC w e); assumption.
  - apply (rpcBody_emits_on_dropped w _ c peerId method params encrypted sock o);
      try assumption.
    apply (invoke_machineRPC w e); assumption.
Qed.

Lemma rpc_emits_on_captured_socket_witness :
  emitsOnDroppedSocket online (CallSessionRPC "S1" "m" (VStr "p")) "S1:m" 0
    sampleConfig "t2" (VStr "sealed").
Proof.
  destruct (rpc_emits_on_captured_socket online sampleEncryption "S1" "m" (VStr "p")
              (VStr "sealed") 1%nat 0%nat
              {| sock_connected := true; sock_recovered := false |}
              sampleConfig "t2" eq_refl eq_refl eq_refl eq_refl eq_refl)
    as [H _]; [discriminate|].
  exact (H eq_refl).
Defined.

(** *** The network comes back *)

Lemma socketDisconnect_wire (sock : nat) (w : World) (o : SocketObj) :
  sockets w !! sock = Some o ->
  effects (socketDisconnect sock w) = effects w ++ [SocketDisconnect sock] /\
  this (socketDisconnect sock w) = this w /\
  length (sockets (socketDisconnect sock w)) = length (sockets w).
Proof.
  intros Ho. unfold socketDisconnect. rewrite Ho. cbn.
  rewrite length_insert. repeat split.
Qed.

(** X24.  In every world the client can reach, a change of the network
    state puts on the wire exactly this: when the network is connected, the
    internet is not known to be unreachable, and the socket in use is down,
    that socket is disconnected and connected again; otherwise nothing.  It
    never creates a socket and never changes the socket in use or the
    status. *)
Theorem network_return_forces_reconnect (es : list Event) (isConnected : bool)
    (isInternetReachable : option bool) :
  wire (effects (step (run fresh es) (NetworkChanges isConnected isInternetReachable)))
  = wire (effects (run fresh es))
      ++ forcedReconnect isConnected isInternetReachable (run fresh es) /\
  this (step (run fresh es) (NetworkChanges isConnected isInternetReachable))
  = this (run fresh es) /\
  length (sockets (step (run fresh es) (NetworkChanges isConnected isInternetReachable)))
  = length (sockets (run fresh es)).
Proof.
  destruct (tidy_reachable es) as [_ T2 _ T4 _ _ _].
  set (w := run fresh es) in *. cbn [step]. unfold onNetworkState, forcedReconnect.
  destruct (socket (this w)) as [sock|] eqn:Hs.
  - rewrite (proj2 T4 (ex_intro _ sock eq_refl)).
    destruct (isConnected && negb (bool_decide (isInternetReachable = Some false)));
      cbn [andb]; [|rewrite app_nil_r; repeat split].
    destruct (negb (socketConnected w)); [|rewrite app_nil_r; repeat split].
    assert (Ho : is_Some (sockets w !! sock)).
    { apply lookup_lt_is_Some. specialize (T2 sock eq_refl). lia. }
    destruct Ho as [o Ho].
    destruct (socketDisconnect_wire sock w o Ho) as (He & Ht & Hl).
    cbn [perform effects this sockets]. rewrite He, <- app_assoc, wire_app.
    split; [reflexivity | split; assumption].
  - destruct (networkSubscription (this w));
      [destruct (_ && _)|]; rewrite app_nil_r; repeat split.
Qed.

(** *** Unsubscribing *)

Lemma statusesSeen_app (l : nat) (es1 es2 : list Effect) :
  statusesSeen l (es1 ++ es2) = statusesSeen l es1 ++ statusesSeen l es2.
Proof. apply omap_app. Qed.

Lemma statusesSeen_others (l : nat) (status : Status) (ls : list nat) :
  l ∉ ls -> statusesSeen l (map (fun l' => StatusListenerCalled l' status) ls) = [].
Proof.
  induction ls as [|a ls IH]; [reflexivity|]. intros Hn.
  apply not_elem_of_cons in Hn as [Hne Hn].
  unfold statusesSeen. cbn [map omap list_omap].
  rewrite bool_decide_eq_false_2 by congruence. apply (IH Hn).
Qed.

Lemma unheard_quietly (l : nat) (seen : list Status) (w w' : World) :
  quietly w w' -> unheard l seen w -> unheard l seen w'.
Proof.
  intros (Hl & _ & es & He & Hq) [Hn Hs]. split; [rewrite Hl; exact Hn|].
  rewrite He, statusesSeen_app, (statusesSeen_quiet l es Hq), app_nil_r. exact Hs.
Qed.

Lemma unheard_updateStatus (l : nat) (seen : list Status) (status : Status)
    (w : World) :
  unheard l seen w -> unheard l seen (updateStatus status w).
Proof.
  intros [Hn Hs]. unfold updateStatus. case_bool_decide; [|split; assumption].
  split; [exact Hn|]. cbn [effects perform setThis this withCurrentStatus statusListeners].
  rewrite statusesSeen_app, (statusesSeen_others l status _ Hn), app_nil_r. exact Hs.
Qed.

Lemma unheard_connect (l : nat) (seen : list Status) (w : World) :
  unheard l seen w -> unheard l seen (connect w).
Proof.
  intros H. unfold connect.
  destruct (config (this w)) as [cfg|]; [|exact H].
  destruct (socket (this w)); [exact H|].
  eapply unheard_quietly; [apply quietly_setupNetworkListener|].
  eapply unheard_quietly; [|apply (unheard_updateStatus l seen connecting); exact H].
  split; [reflexivity|]. split; [reflexivity|].
  eexists. split; [reflexivity|]. reflexivity.
Qed.

Lemma unheard_disconnect (l : nat) (seen : list Status) (w : World) :
  unheard l seen w -> unheard l seen (disconnect w).
Proof.
  intros H. unfold disconnect. apply unheard_updateStatus.
  eapply unheard_quietly; [|exact H].
  eapply quietly_trans; [apply quietly_cleanupNetworkListener|].
  destruct (socket (this (cleanupNetworkListener w))) as [sock|]; [|apply quietly_refl].
  eapply quietly_trans; [apply quietly_socketDisconnect|].
  apply quietly_same_effects; reflexivity.
Qed.

Lemma unheard_step (l : nat) (seen : list Status) (w : World) (e : Event) :
  e <> OnStatusChange l -> unheard l seen w -> unheard l seen (step w e).
Proof.
  intros Hev H. destruct e; cbn [step].
  - unfold initialize. apply unheard_connect.
    eapply unheard_quietly; [|exact H]. apply quietly_same_effects; reflexivity.
  - apply unheard_connect. exact H.
  - apply unheard_disconnect. exact H.
  - unfold ensureConnected. destruct (socket (this w)) as [sock|].
    + destruct (negb (socketConnected w)); [|exact H].
      eapply unheard_quietly; [|exact H].
      apply (quietly_perform [SocketConnect sock]). reflexivity.
    + destruct (config (this w)); [apply unheard_connect|]; exact H.
  - destruct H as [Hn Hs]. assert (Hne : listener <> l) by congruence.
    unfold onStatusChange. split.
    + cbn. unfold setAdd. case_bool_decide; [exact Hn|].
      intros Hin. apply elem_of_app in Hin as [Hin|Hin]; [contradiction|].
      apply list_elem_of_singleton in Hin. congruence.
    + cbn [effects perform setThis]. rewrite statusesSeen_app, Hs.
      unfold statusesSeen. cbn [omap list_omap].
      rewrite bool_decide_eq_false_2 by exact Hne. apply app_nil_r.
  - destruct H as [Hn Hs]. unfold offStatusChange. split; [|exact Hs].
    cbn. unfold setDelete. intros Hin. apply list_elem_of_filter in Hin as [_ Hin].
    contradiction.
  - eapply unheard_quietly; [|exact H]. apply quietly_same_effects; reflexivity.
  - eapply unheard_quietly; [|exact H]. apply quietly_same_effects; reflexivity.
  - eapply unheard_quietly; [|exact H]. apply quietly_same_effects; reflexivity.
  - eapply unheard_quietly; [|exact H]. apply quietly_same_effects; reflexivity.
  - unfold send. destruct (socket (this w)) as [sock|]; [|exact H].
    destruct (socketConnected w); [|exact H]. cbn [snd].
    eapply unheard_quietly; [|exact H].
    apply (quietly_perform [SocketEmit sock event data]). reflexivity.
  - unfold updateToken. destruct (config (this w)) as [cfg|]; [|exact H].
    case_bool_decide; [|exact H].
    match goal with |- unheard l seen (match socket (this ?w1) with _ => _ end) =>
      assert (H1 : unheard l seen w1)
        by (eapply unheard_quietly; [|exact H];
            apply quietly_same_effects; reflexivity);
      destruct (socket (this w1)) end.
    + apply unheard_connect, unheard_disconnect. exact H1.
    + exact H1.
  - eapply unheard_quietly; [apply quietly_invoke | exact H].
  - eapply unheard_quietly; [apply quietly_invoke | exact H].
  - eapply unheard_quietly; [apply quietly_invoke | exact H].
  - unfold registryChanges. destruct (encryption (this w)); [|exact H].
    eapply unheard_quietly; [|exact H]. apply quietly_same_effects; reflexivity.
  - unfold onSocketConnect. destruct (sockets w !! sock); [|exact H].
    match goal with |- unheard l seen {| this := this ?w3; sockets := _; calls := _;
                                         clock := _; effects := effects ?w3 |} =>
      assert (H3 : unheard l seen w3) end.
    { match goal with |- unheard l seen (if _ then perform ?es ?w2 else _) =>
        assert (H2 : unheard l seen w2)
      end.
      { apply unheard_updateStatus.
        eapply unheard_quietly; [apply quietly_setSocketObj | exact H]. }
      destruct (negb _); [|exact H2].
      eapply unheard_quietly; [|exact H2]. apply quietly_perform.
      induction (reconnectedListeners _); [reflexivity | assumption]. }
    eapply unheard_quietly; [|exact H3]. apply quietly_same_effects; reflexivity.
  - unfold onSocketDisconnect. destruct (sockets w !! sock); [|exact H].
    apply unheard_updateStatus.
    eapply unheard_quietly; [apply quietly_setSocketObj | exact H].
  - unfold onSocketError. destruct (sockets w !! sock); [|exact H].
    apply unheard_updateStatus. exact H.
  - unfold onSocketError. destruct (sockets w !! sock); [|exact H].
    apply unheard_updateStatus. exact H.
  - unfold onSocketAny. destruct (sockets w !! sock); [|exact H].
    destruct (messageHandlers (this w) !! event) as [h|]; [|exact H].
    eapply unheard_quietly; [|exact H].
    apply (quietly_perform [MessageHandlerCalled h data]). reflexivity.
  - unfold onNetworkState. destruct (networkSubscription (this w)); [|exact H].
    destruct (_ && _); [|exact H].
    destruct (socket (this w)) as [sock|]; [|exact H].
    destruct (negb (socketConnected w)); [|exact H].
    eapply unheard_quietly; [|exact H].
    eapply quietly_trans; [apply quietly_socketDisconnect|].
    apply (quietly_perform [SocketConnect sock]). reflexivity.
  - unfold resume. destruct (calls w !! call) as [[k| | | |]|]; try exact H.
    eapply unheard_quietly; [apply quietly_drive | exact H].
  - unfold cipherSettles. destruct (calls w !! call) as [[| |k| |]|]; try exact H.
    eapply unheard_quietly; [|exact H]. unfold settleAwaited.
    destruct r; [apply quietly_drive | apply quietly_setCall].
  - unfold ackSettles. destruct (calls w !! call) as [[| | |k|]|]; try exact H.
    eapply unheard_quietly; [|exact H]. unfold settleAwaited.
    destruct r; [apply quietly_drive | apply quietly_setCall].
  - unfold elapse. destruct (0 <=? dt); [|exact H].
    eapply unheard_quietly; [|exact H]. apply quietly_same_effects; reflexivity.
Qed.

Lemma unheard_run (l : nat) (seen : list Status) (es : list Event) :
  OnStatusChange l ∉ es ->
  forall w, unheard l seen w -> unheard l seen (run w es).
Proof.
  induction es as [|e es IH]; intros Hn w H; [exact H|].
  apply not_elem_of_cons in Hn as [Hne Hn].
  rewrite client_run_cons. apply (IH Hn). apply unheard_step; [congruence | exact H].
Qed.

(** X25.  Unsubscribing works: once the function returned by
    [onStatusChange] has been called for a listener, that listener is never
    called again, whatever happens to the client, until it is registered
    anew. *)
Theorem unsubscribed_listener_never_called (w : World) (l : nat) (es : list Event) :
  OnStatusChange l ∉ es ->
  statusesSeen l (effects (run (offStatusChange l w) es)) = statusesSeen l (effects w) /\
  l ∉ statusListeners (this (run (offStatusChange l w) es)).
Proof.
  intros Hn.
  destruct (unheard_run l (statusesSeen l (effects w)) es Hn (offStatusChange l w))
    as [H1 H2]; [|split; assumption].
  split; [|reflexivity]. cbn. unfold setDelete. intros Hin.
  apply list_elem_of_filter in Hin as [Hne _]. apply Hne. reflexivity.
Qed.

Lemma unsubscribed_listener_never_called_witness :
  statusesSeen 7
    (effects (run (offStatusChange 7 (onStatusChange 7 online))
                  [SocketDisconnects 0; SocketConnects 0 true; Disconnect]))
  = [connected].
Proof.
  destruct (unsubscribed_listener_never_called (onStatusChange 7 online) 7
              [SocketDisconnects 0; SocketConnects 0 true; Disconnect]) as [H _].
  - intros Hin. repeat (apply elem_of_cons in Hin as [Hin|Hin]; [discriminate|]).
    apply elem_of_nil in Hin. exact Hin.
  - rewrite H. reflexivity.
Defined.


(** *** Calls before [initialize] *)

(** Before [initialize] no peer has an encryption context, and a call is
    rejected with the [TypeError] of [this.encryption!] on [null], not with
    the error that names the missing context. *)
Lemma rpc_before_initialize_is_TypeError :
  ~ rejectsContextMissing fresh "S9" "bash" VNull.
Proof.
  intros [H _].
  assert (Hno : noSessionContext fresh "S9") by (intros e He; discriminate He).
  destruct (H Hno) as [Hcalls _]. vm_compute in Hcalls. discriminate Hcalls.
Qed.

(** What the call does there. *)
Example rpc_before_initialize :
  calls (step fresh (CallSessionRPC "S9" "bash" VNull)) = [Done (Rejected TypeError)] /\
  effects (step fresh (CallSessionRPC "S9" "bash" VNull)) = [].
Proof. split; reflexivity. Qed.
End ApiSocketFacts.

(** ** Facts about the server settings screen *)

Module ServerScreenFacts.
Import Resolver ServerScreen JsFacts ResolverFacts.

(** [validated], case by case. *)
Lemma validated_eq (n : Traffic) :
  validated n =
  match latency (exchange n) with
  | None => None
  | Some _ =>
      match outcome (exchange n) with
      | NetworkFails _ => Some (Fulfilled (false, Some failedToConnectToServer))
      | Responds r =>
          if ok r then
            if bodyArrives n then
              match text r with
              | Rejected _ => Some (Fulfilled (false, Some failedToConnectToServer))
              | Fulfilled body =>
                  if includes body SERVER_MARKER then Some (Fulfilled (true, None))
                  else Some (Fulfilled (false, Some notValidHappyServer))
              end
            else None
          else Some (Fulfilled (false, Some serverReturnedError))
      end
  end.
Proof.
  unfold validated, plainFetch, readBody.
  destruct (latency (exchange n)); [|reflexivity].
  destruct (outcome (exchange n)) as [r|e]; [|reflexivity]. cbn.
  destruct (ok r); [|reflexivity]. cbn.
  destruct (bodyArrives n); [|reflexivity].
  destruct (text r) as [body|e]; [|reflexivity]. cbn.
  destruct (includes body SERVER_MARKER); reflexivity.
Qed.

Lemma validated_total (n : Traffic) :
  validated n = None \/
  exists valid message, validated n = Some (Fulfilled (valid, message)) /\
                        (message = None <-> valid = true).
Proof.
  rewrite validated_eq.
  destruct (latency (exchange n)); [|left; reflexivity].
  destruct (outcome (exchange n)) as [r|e].
  2: { right. eexists _, _. split; [reflexivity|]. split; discriminate. }
  destruct (ok r).
  2: { right. eexists _, _. split; [reflexivity|]. split; discriminate. }
  destruct (bodyArrives n); [|left; reflexivity].
  destruct (text r) as [body|e].
  2: { right. eexists _, _. split; [reflexivity|]. split; discriminate. }
  destruct (includes body SERVER_MARKER); right; eexists _, _;
    (split; [reflexivity|]); split; (reflexivity || discriminate).
Qed.

Lemma validateServer_true (n : Traffic) :
  fst (validateServer n) = Some (Fulfilled true) <-> exists limit, succeeds n limit.
Proof.
  unfold validateServer. rewrite validated_eq.
  destruct (latency (exchange n)) as [t|] eqn:Hl.
  2: { cbn. split; [discriminate|].
       intros (limit & _ & t & r & body & Hl' & _). congruence. }
  destruct (outcome (exchange n)) as [r|e] eqn:Ho.
  2: { cbn. split; [discriminate|].
       intros (limit & _ & t' & r & body & _ & _ & Ho' & _). congruence. }
  destruct (ok r) eqn:Hok.
  2: { cbn. split; [discriminate|].
       intros (limit & _ & t' & r' & body & _ & _ & Ho' & Hok' & _). congruence. }
  destruct (bodyArrives n) eqn:Hb.
  2: { cbn. split; [discriminate|]. intros (limit & Hb' & _). congruence. }
  destruct (text r) as [body|e] eqn:Htx.
  2: { cbn. split; [discriminate|].
       intros (limit & _ & t' & r' & body & _ & _ & Ho' & _ & Htx' & _). congruence. }
  destruct (includes body SERVER_MARKER) eqn:Hi; cbn.
  - split; [intros _ | reflexivity]. exists (t + 1). split; [exact Hb|].
    exists t, r, body. split; [exact Hl|]. split; [lia|]. split; [exact Ho|].
    split; [exact Hok|]. split; [exact Htx|]. apply includes_spec. exact Hi.
  - split; [discriminate|].
    intros (limit & _ & t' & r' & body' & _ & _ & Ho' & _ & Htx' & Hsub).
    apply includes_spec in Hsub.
    assert (r' = r) by congruence. subst r'.
    assert (body' = body) by congruence. subst body'. congruence.
Qed.

Lemma validateServer_pending (n : Traffic) :
  fst (validateServer n) = None <->
  latency (exchange n) = None \/ exists limit, hangs n limit.
Proof.
  unfold validateServer. rewrite validated_eq.
  destruct (latency (exchange n)) as [t|] eqn:Hl.
  2: { cbn. split; auto. }
  destruct (outcome (exchange n)) as [r|e] eqn:Ho.
  2: { cbn. split; [discriminate|]. intros [H|(limit & _ & t' & r & _ & _ & Ho' & _)];
       congruence. }
  destruct (ok r) eqn:Hok.
  2: { cbn. split; [discriminate|].
       intros [H|(limit & _ & t' & r' & _ & _ & Ho' & Hok')]; congruence. }
  destruct (bodyArrives n) eqn:Hb.
  - assert (Hn : ~ ((Some t = None :> option Z) \/ exists limit, hangs n limit)).
    { intros [H|(limit & Hb' & _)]; congruence. }
    destruct (text r) as [body|e]; [destruct (includes body SERVER_MARKER)|];
      cbn; (split; [discriminate | intros H; contradiction]).
  - cbn. split; [intros _ | reflexivity]. right. exists (t + 1).
    split; [exact Hb|]. exists t, r. split; [exact Hl|]. split; [lia|].
    split; [exact Ho | exact Hok].
Qed.

Lemma validateServer_settles (n : Traffic) :
  (forall e, fst (validateServer n) <> Some (Rejected e)) /\
  (forall valid, fst (validateServer n) = Some (Fulfilled valid) ->
     isValidating (snd (validateServer n)) = false /\
     (error (snd (validateServer n)) = None <-> valid = true)) /\
  (fst (validateServer n) = None ->
     snd (validateServer n) = {| error := None; isValidating := true |}).
Proof.
  unfold validateServer.
  destruct (validated_total n) as [-> | (valid & message & -> & Hm)]; cbn.
  - split; [discriminate|]. split; [discriminate | reflexivity].
  - split; [discriminate|]. split; [|discriminate].
    intros valid' [= <-]. split; [reflexivity | exact Hm].
Qed.

(** Once the head is there, it is in time for every longer timer. *)
Lemma headOk_any (x : Exchange) (t limit timeoutMs : Z) :
  latency x = Some t -> t < timeoutMs -> headOk x limit -> headOk x timeoutMs.
Proof.
  intros Hl Hlt (t' & r & Hl' & _ & H). exists t, r. split; [exact Hl|].
  split; [exact Hlt | exact H].
Qed.

Lemma healthy_any (x : Exchange) (t limit timeoutMs : Z) :
  latency x = Some t -> t < timeoutMs -> healthy x limit -> healthy x timeoutMs.
Proof.
  intros Hl Hlt (t' & r & body & Hl' & _ & H). exists t, r, body.
  split; [exact Hl|]. split; [exact Hlt | exact H].
Qed.

(** X19.  The settings screen accepts a server exactly when it answers, at
    whatever time, with an OK status and a body that arrives and holds the
    marker; it never throws.  It stays pending, with the spinner on, exactly
    when the network never answers or when the body never arrives after an
    OK head.  For a server whose head arrives within 3000 ms the screen
    accepts exactly when the resolver's probe does, and stays pending
    exactly when the probe does; a slower or silent server is rejected by
    the probe, whatever the screen does. *)
Theorem validateServer_agrees_with_probe (n : Traffic) (url : string) :
  (fst (validateServer n) = Some (Fulfilled true) <-> exists limit, succeeds n limit) /\
  (forall e, fst (validateServer n) <> Some (Rejected e)) /\
  (fst (validateServer n) = None
     <-> latency (exchange n) = None \/ exists limit, hangs n limit) /\
  (forall t, latency (exchange n) = Some t -> t < 3000 ->
     (fst (validateServer n) = Some (Fulfilled true)
      <-> probeUrlOn url 3000 n = Some (Fulfilled (Some url))) /\
     (fst (validateServer n) = None <-> probeUrlOn url 3000 n = None)) /\
  (forall t, latency (exchange n) = Some t -> 3000 <= t ->
     probeUrlOn url 3000 n = Some (Fulfilled None)) /\
  (latency (exchange n) = None -> probeUrlOn url 3000 n = Some (Fulfilled None)) /\
  (forall valid, fst (validateServer n) = Some (Fulfilled valid) ->
     isValidating (snd (validateServer n)) = false /\
     (error (snd (validateServer n)) = None <-> valid = true)) /\
  (fst (validateServer n) = None ->
     snd (validateServer n) = {| error := None; isValidating := true |}).
Proof.
  destruct (validateServer_settles n) as (Hrej & Hdone & Hpend).
  assert (Hlate : forall T, ~ headOk (exchange n) T ->
                  probeUrlOn url T n = Some (Fulfilled None)).
  { intros T Hn. destruct (probeUrlOn_total url T n) as [H|[H|H]]; [|exact H|].
    - apply probeUrlOn_success in H as [_ H]. apply healthy_headOk in H. contradiction.
    - apply probeUrlOn_pending in H as [_ H]. contradiction. }
  split; [apply validateServer_true|]. split; [exact Hrej|].
  split; [apply validateServer_pending|]. split; [|split; [|split; [|split]]].
  - intros t Hl Hlt. split.
    + rewrite validateServer_true, probeUrlOn_success. split.
      * intros (limit & Hb & H). split; [exact Hb|].
        exact (healthy_any _ t limit 3000 Hl Hlt H).
      * intros H. exists 3000. exact H.
    + rewrite validateServer_pending, probeUrlOn_pending. split.
      * intros [H|(limit & Hb & H)]; [congruence|]. split; [exact Hb|].
        exact (headOk_any _ t limit 3000 Hl Hlt H).
      * intros H. right. exists 3000. exact H.
  - intros t Hl Hge. apply Hlate.
    intros (t' & r & Hl' & Hlt & _). assert (t' = t) by congruence. lia.
  - intros Hl. apply Hlate. intros (t' & r & Hl' & _). congruence.
  - exact Hdone.
  - exact Hpend.
Qed.

(** A server that needs 5 s is accepted by the screen and not by the
    probe; one that stalls after the head keeps both waiting. *)
Example slow_server_accepted_then_rejected :
  fst (validateServer slowServer) = Some (Fulfilled true) /\
  probeUrlOn "https://slow.example" 3000 slowServer = Some (Fulfilled None) /\
  validateServer stalledBody = (None, {| error := None; isValidating := true |}) /\
  probeUrlOn "https://slow.example" 3000 stalledBody = None.
Proof. repeat split; reflexivity. Qed.

End ServerScreenFacts.

(** ** Facts about the configuration of the command-line agent *)

Module CliConfigFacts.
Import CliConfig JsFacts.

Lemma strip_no_slash (s : string) : endsWithSlash (stripTrailingSlashes s) = false.
Proof.
  induction s as [|a rest IH]; [reflexivity|]. cbn [stripTrailingSlashes].
  destruct (stripTrailingSlashes rest) as [|b kept] eqn:Hr.
  - destruct (Ascii.eqb a "/") eqn:Ha; [reflexivity | cbn; exact Ha].
  - exact IH.
Qed.

Lemma strip_fixed (s : string) : endsWithSlash s = false -> stripTrailingSlashes s = s.
Proof.
  induction s as [|a rest IH]; [reflexivity|]. intros H. cbn [stripTrailingSlashes].
  destruct rest as [|b rest'].
  - cbn in *. rewrite H. reflexivity.
  - rewrite IH by exact H. reflexivity.
Qed.

Lemma strip_slashes (s : string) :
  exists n, s = stripTrailingSlashes s +:+ slashes n.
Proof.
  induction s as [|a rest [n IH]]; [exists 0%nat; reflexivity|].
  cbn [stripTrailingSlashes].
  destruct (stripTrailingSlashes rest) as [|b kept] eqn:Hr.
  - destruct (Ascii.eqb_spec a "/") as [->|Hne].
    + exists (S n). rewrite IH. reflexivity.
    + exists n. rewrite IH at 1. reflexivity.
  - exists n. rewrite IH at 1. reflexivity.
Qed.

Section LoadConfigFacts.
Variable join : string -> string -> string.

Lemma loadConfig_cases (env : Env) :
  loadConfig join env =
  match chooseServerUrl (HAPPY_SERVER_URL env) (settingsServerUrlOf join env) with
  | Fulfilled url =>
      Fulfilled {| serverUrl := url; homeDir := homeDirOf join env;
                   credentialPath := join (homeDirOf join env) "agent.key" |}
  | Rejected e => Rejected e
  end.
Proof. unfold loadConfig. destruct (chooseServerUrl _ _); reflexivity. Qed.

Lemma settingsServerUrlOf_none (env : Env) :
  noSettingsUrl join env ->
  settingsServerUrlOf join env = None \/ settingsServerUrlOf join env = Some JNull.
Proof.
  unfold noSettingsUrl, settingsServerUrlOf, settingsFile.
  intros [H | [[e H] | [(raw & H & Hraw) | (fields & H & Hm)]]]; rewrite H; cbn.
  - left; reflexivity.
  - left; reflexivity.
  - left. destruct raw; try reflexivity. exfalso. apply (Hraw fields). reflexivity.
  - destruct Hm as [-> | ->]; [left | right]; reflexivity.
Qed.

Lemma settingsServerUrlOf_some (env : Env) (v : Json) :
  settingsUrl join env v -> settingsServerUrlOf join env = Some v.
Proof.
  unfold settingsUrl, settingsServerUrlOf, settingsFile.
  intros (fields & -> & Hm). cbn. exact Hm.
Qed.

(** X20.  The server URL of [loadConfig].  The environment variable wins
    over the settings file, whatever that file holds.  Without the variable
    a string in the settings file is used, and the default when the file
    gives no URL, also when it is missing, unreadable or malformed.  A
    settings value that is neither a string nor [null] makes [loadConfig]
    throw.  Trailing slashes are stripped in each case. *)
Theorem loadConfig_serverUrl_priority (env : Env) :
  (forall s, HAPPY_SERVER_URL env = Some s ->
     loadConfig join env = Fulfilled (configWith join env (stripTrailingSlashes s))) /\
  (HAPPY_SERVER_URL env = None ->
     (forall s, settingsUrl join env (JStr s) ->
        loadConfig join env
        = Fulfilled (configWith join env (stripTrailingSlashes s))) /\
     (noSettingsUrl join env ->
        loadConfig join env = Fulfilled (configWith join env DEFAULT_SERVER_URL)) /\
     (forall v, settingsUrl join env v -> v <> JNull -> (forall s, v <> JStr s) ->
        loadConfig join env = Rejected TypeError)).
Proof.
  split.
  - intros s Hs. rewrite loadConfig_cases, Hs. reflexivity.
  - intros Hnone. split; [|split].
    + intros s Hu. rewrite loadConfig_cases, Hnone, (settingsServerUrlOf_some env _ Hu).
      reflexivity.
    + intros Hno. rewrite loadConfig_cases, Hnone.
      destruct (settingsServerUrlOf_none env Hno) as [-> | ->]; reflexivity.
    + intros v Hu Hnull Hstr.
      rewrite loadConfig_cases, Hnone, (settingsServerUrlOf_some env _ Hu).
      destruct v; try reflexivity; [congruence | exfalso; apply (Hstr s); reflexivity].
Qed.

(** X21.  The server URL that [loadConfig] returns never ends with a
    slash, stripping it again changes nothing, and it differs from the URL
    given in the environment by trailing slashes only; the credential file
    lies in the home directory returned. *)
Theorem loadConfig_serverUrl_stripped (env : Env) (cfg : Config) :
  loadConfig join env = Fulfilled cfg ->
  endsWithSlash (serverUrl cfg) = false /\
  stripTrailingSlashes (serverUrl cfg) = serverUrl cfg /\
  (forall s, HAPPY_SERVER_URL env = Some s ->
     exists n, s = serverUrl cfg +:+ slashes n) /\
  credentialPath cfg = join (homeDir cfg) "agent.key".
Proof.
  rewrite loadConfig_cases.
  destruct (chooseServerUrl (HAPPY_SERVER_URL env) (settingsServerUrlOf join env))
    as [url|e] eqn:Hc; [|discriminate].
  intros [= <-]. cbn [serverUrl homeDir credentialPath].
  assert (Hurl : exists s, url = stripTrailingSlashes s).
  { revert Hc. unfold chooseServerUrl.
    destruct (HAPPY_SERVER_URL env) as [s|]; [intros [= <-]; eauto|].
    destruct (settingsServerUrlOf join env) as [[| | |s| |]|];
      try discriminate; intros [= <-];
      first [exists DEFAULT_SERVER_URL; reflexivity | eexists; reflexivity]. }
  destruct Hurl as [s0 ->].
  split; [apply strip_no_slash|].
  split; [apply strip_fixed, strip_no_slash|]. split; [|reflexivity].
  intros s Hs. revert Hc. unfold chooseServerUrl. rewrite Hs. intros [= Heq].
  rewrite <- Heq. apply strip_slashes.
Qed.

End LoadConfigFacts.

Lemma loadConfig_serverUrl_stripped_witness :
  loadConfig joinSlash sampleEnv
    = Fulfilled (configWith joinSlash sampleEnv "http://10.0.0.2:3005") /\
  endsWithSlash "http://10.0.0.2:3005" = false.
Proof.
  split; [reflexivity|].
  exact (proj1 (loadConfig_serverUrl_stripped joinSlash sampleEnv
                  (configWith joinSlash sampleEnv "http://10.0.0.2:3005") eq_refl)).
Defined.

End CliConfigFacts.

(** ** Facts about the shell commands of the git screen *)

Module GitScreenFacts.
Import GitScreen JsFacts.

Lemma dropNul_id (s : string) : hasNul s = false -> dropNul s = s.
Proof.
  induction s as [|c rest IH]; [reflexivity|]. cbn [hasNul dropNul].
  intros H. apply orb_false_iff in H as [Hc Hr]. rewrite Hc, (IH Hr). reflexivity.
Qed.

Lemma hasNul_app (s t : string) : hasNul (s +:+ t) = hasNul s || hasNul t.
Proof.
  induction s as [|c rest IH]; [reflexivity|].
  rewrite append_cons. cbn [hasNul]. rewrite IH. apply orb_assoc.
Qed.

Lemma hasNul_shellEscape (path : string) : hasNul (shellEscape path) = hasNul path.
Proof.
  induction path as [|c rest IH]; [reflexivity|]. cbn [shellEscape].
  destruct (Ascii.eqb_spec c "'") as [->|Hne].
  - rewrite hasNul_app, IH. reflexivity.
  - cbn [hasNul]. rewrite IH. reflexivity.
Qed.

Lemma readWord_quoted (path : string) :
  readWord true (shellEscape path +:+ "'") = Some path.
Proof.
  induction path as [|c rest IH]; [reflexivity|].
  cbn [shellEscape]. destruct (Ascii.eqb_spec c "'") as [->|Hne].
  - change ("'\''" +:+ shellEscape rest)
      with (String "'" (String "\" (String "'" (String "'" (shellEscape rest))))).
    rewrite !append_cons. cbn. rewrite IH. reflexivity.
  - rewrite append_cons. cbn [readWord].
    rewrite (proj2 (Ascii.eqb_neq c "'") Hne), IH. reflexivity.
Qed.

Lemma shellEscape_plain (path : string) :
  Js.includes path "'" = false -> shellEscape path = path.
Proof.
  induction path as [|c rest IH]; [reflexivity|]. cbn [Js.includes shellEscape].
  intros H. apply orb_false_iff in H as [Hp Hr].
  destruct (Ascii.eqb_spec c "'") as [->|Hne].
  - exfalso. revert Hp. cbn. destruct (Ascii.ascii_dec "'" "'"); [|contradiction].
    destruct rest; discriminate.
  - rewrite (IH Hr). reflexivity.
Qed.

(** X22.  A path without a NUL character, escaped by [shellEscape] and put
    between single quotes as the commands of the git screen do, is read
    back by the shell as that very path, whatever other characters it
    holds; so no character of such a path can end the quoted word.  A path
    without a single quote is left as it is. *)
Theorem shellEscape_round_trip (path : string) :
  hasNul path = false ->
  shellRead false (quotedWord path) = Some path /\
  (Js.includes path "'" = false -> shellEscape path = path).
Proof.
  intros Hnul. split; [|apply shellEscape_plain].
  unfold shellRead, quotedWord. rewrite dropNul_id.
  - rewrite append_cons, append_nil_l. cbn [readWord]. apply readWord_quoted.
  - rewrite !hasNul_app, hasNul_shellEscape, Hnul. reflexivity.
Qed.

Lemma shellEscape_round_trip_witness :
  shellRead false (quotedWord "it's") = Some "it's"%string /\
  shellEscape "a b.txt" = "a b.txt"%string.
Proof.
  split.
  - exact (proj1 (shellEscape_round_trip "it's" eq_refl)).
  - exact (proj2 (shellEscape_round_trip "a b.txt" eq_refl) eq_refl).
Defined.

Example shellEscape_quote :
  shellEscape "it's" = "it'\''s"%string /\
  shellRead false "'it'\''s'" = Some "it's"%string.
Proof. split; reflexivity. Qed.

End GitScreenFacts.
